(** * FlowViz: the FlowMD parser, the graph model, the highlight engine
      and the CSV export

    A shallow embedding of [app/assets/js/parser.js] (FlowMDParser,
    FlowMDError), of the graph model (GraphModel), of
    [app/assets/js/highlight.js] (HighlightEngine) and of the CSV export
    of [app/assets/js/export.js] (Exporter.exportCsv), with the properties
    the design document states about them and further properties of the
    code.

    Conventions of the embedding.
    - A JavaScript string is a [string]: a sequence of code units, each an
      [ascii], so the model covers the strings whose code units are below
      256 (the code unit 160 is the no-break space, which [trim] and [\s]
      treat as white space).
    - A [Map] is an association list in insertion order with unique keys,
      a [Set] a duplicate-free list in insertion order.
    - A method that mutates its context returns the new context.
    - A number is an integer of [Z] or a count of [nat]; its rendering in
      a message is modelled for the safe integers (up to 2^53 - 1 in
      absolute value), and what is stated of a rendered number is stated
      of those.
    - [throw] is the [Throw] constructor of [result]. *)

From Stdlib Require Import String Ascii List Bool Arith ZArith Lia Sorted.
From Stdlib Require Import DecimalString.
Import ListNotations.
Local Open Scope list_scope.
Local Open Scope string_scope.
Local Open Scope nat_scope.

Set Implicit Arguments.

(** ** JavaScript strings *)

Module Js.

(** [WhiteSpace] and [LineTerminator] code units below 256: what
    [String.prototype.trim] strips and what [\s] matches. *)
Definition is_space (c : ascii) : bool :=
  let n := nat_of_ascii c in
  (n =? 9) || (n =? 10) || (n =? 11) || (n =? 12) || (n =? 13)
  || (n =? 32) || (n =? 160).

(** Line terminators below 256: what [.] does not match. *)
Definition is_line_terminator (c : ascii) : bool :=
  let n := nat_of_ascii c in (n =? 10) || (n =? 13).

Definition is_upper (c : ascii) : bool :=
  let n := nat_of_ascii c in (65 <=? n) && (n <=? 90).

Definition is_lower (c : ascii) : bool :=
  let n := nat_of_ascii c in (97 <=? n) && (n <=? 122).

Definition is_digit (c : ascii) : bool :=
  let n := nat_of_ascii c in (48 <=? n) && (n <=? 57).

(** Upper-casing of one code unit, as far as it can produce an ASCII
    letter: only [a-z] are mapped to ASCII, and the regular expression
    flag [i] never identifies a code unit of 128 or more with one below. *)
Definition upper (c : ascii) : ascii :=
  if is_lower c then ascii_of_nat (nat_of_ascii c - 32) else c.

(** [s.toUpperCase()] on the strings the parser applies it to (a matched
    direction token, hence ASCII letters). *)
Fixpoint toUpperCase (s : string) : string :=
  match s with
  | EmptyString => EmptyString
  | String c s' => String (upper c) (toUpperCase s')
  end.

(** A string is truthy when it is not empty. *)
Definition truthy (s : string) : bool :=
  match s with EmptyString => false | String _ _ => true end.

(** An optional string (a string, or [undefined]/[null]) is truthy when it
    is a non-empty string. *)
Definition truthy_opt (o : option string) : bool :=
  match o with Some s => truthy s | None => false end.

Fixpoint trimStart (s : string) : string :=
  match s with
  | EmptyString => EmptyString
  | String c s' => if is_space c then trimStart s' else s
  end.

(** [trimEnd s] drops the trailing white space: a character is kept when
    it is not white space or something after it is kept. *)
Fixpoint trimEnd (s : string) : string :=
  match s with
  | EmptyString => EmptyString
  | String c s' =>
      match trimEnd s' with
      | EmptyString => if is_space c then EmptyString else String c EmptyString
      | t => String c t
      end
  end.

Definition trim (s : string) : string := trimEnd (trimStart s).

Fixpoint startsWith (s p : string) : bool :=
  match p, s with
  | EmptyString, _ => true
  | String a p', String b s' => Ascii.eqb a b && startsWith s' p'
  | String _ _, EmptyString => false
  end.

(** [s.slice(1, -1)]: from index 1 to the index [length - 1], empty when
    the string has fewer than three code units. *)
Definition slice_1_m1 (s : string) : string :=
  substring 1 (String.length s - 2) s.

(** [s[0]] for a non-empty string; the parser reads it only from a truthy
    string. *)
Definition first_char (s : string) : string :=
  match s with
  | EmptyString => EmptyString
  | String c _ => String c EmptyString
  end.

(** [parts.join(sep)]. *)
Fixpoint join (sep : string) (parts : list string) : string :=
  match parts with
  | [] => EmptyString
  | [p] => p
  | p :: rest => p ++ sep ++ join sep rest
  end.

(** [Number.isSafeInteger(z)]: the integers up to 2^53 - 1 in absolute
    value, which a number holds exactly. *)
Definition isSafeInteger (z : Z) : bool :=
  (Z.abs z <=? 9007199254740991)%Z.

(** The rendering of a number in a template literal, for the numbers that
    are safe integers: all the decimal digits, after a minus sign for a
    negative number. The counts rendered with [show_nat] are numbers of
    lines and of nodes of a text, which are safe integers. A number that
    is no safe integer is rendered otherwise (rounded digits beyond 2^53,
    an exponent from 10^21 on), which is not modelled: what is stated
    of a rendered [maxNodes] is stated of a safe integer. *)
Definition show_nat (n : nat) : string :=
  NilZero.string_of_uint (Nat.to_uint n).

Definition show_Z (z : Z) : string :=
  NilZero.string_of_int (Z.to_int z).

(** [text.split(/\r?\n/)]: a new piece starts after every line feed; a
    carriage return just before the line feed belongs to the separator, any
    other carriage return stays in its piece. *)
Fixpoint split_lines_aux (s : string) (cur : string) : list string :=
  match s with
  | EmptyString => [cur]
  | String c s' =>
      if Ascii.eqb c "010"%char then cur :: split_lines_aux s' EmptyString
      else if Ascii.eqb c "013"%char then
        match s' with
        | String d s'' =>
            if Ascii.eqb d "010"%char then cur :: split_lines_aux s'' EmptyString
            else split_lines_aux s' (cur ++ String c EmptyString)
        | EmptyString => split_lines_aux s' (cur ++ String c EmptyString)
        end
      else split_lines_aux s' (cur ++ String c EmptyString)
  end.

Definition split_lines (s : string) : list string :=
  split_lines_aux s EmptyString.

(** [s.split(/\s+/)]: the pieces between the maximal runs of white space
    (a leading or trailing run leaves an empty piece). [in_run] tells that
    the previous character was white space. *)
Fixpoint split_ws_aux (s : string) (cur : string) (in_run : bool) : list string :=
  match s with
  | EmptyString => [cur]
  | String c s' =>
      if is_space c then
        if in_run then split_ws_aux s' cur true
        else cur :: split_ws_aux s' EmptyString true
      else split_ws_aux s' (cur ++ String c EmptyString) false
  end.

(** [s.split(/\s+/, limit)]. *)
Definition split_ws (s : string) (limit : nat) : list string :=
  firstn limit (split_ws_aux s EmptyString false).

End Js.

(** ** Regular expressions

    The fragment of ECMAScript regular expressions the parser uses, with
    the backtracking semantics of the language definition: a matcher takes
    the state and a continuation, and the first alternative whose
    continuation succeeds wins. No group of the parser's patterns stands
    under a star, so the reset of the captures at every iteration is left
    out. *)

Module Regex.

Inductive t : Type :=
| Empty                          (* the empty pattern *)
| Char (p : ascii -> bool)       (* one code unit: a literal, a class or [.] *)
| Cat (r1 r2 : t)                (* r1 r2 *)
| Or (r1 r2 : t)                 (* r1|r2, r1 tried first *)
| Star (r : t)                   (* r*, greedy *)
| Group (name : string) (r : t)  (* a capture, by name or by number *)
| Bol                            (* ^ without the flag m *)
| Eol.                           (* $ without the flag m *)

Record state : Type := mk_state {
  input : string;                       (* the whole subject *)
  pos : nat;                            (* the end index of the match so far *)
  rest : string;                        (* the subject from [pos] on *)
  captures : list (string * string)     (* the groups that took part *)
}.

Definition set_capture (name value : string) (st : state) : state :=
  mk_state (input st) (pos st) (rest st)
    ((name, value) :: filter (fun kv => negb (String.eqb (fst kv) name)) (captures st)).

Fixpoint run (r : t) (st : state) (k : state -> option state) : option state :=
  match r with
  | Empty => k st
  | Char p =>
      match rest st with
      | String c s' =>
          if p c then k (mk_state (input st) (S (pos st)) s' (captures st))
          else None
      | EmptyString => None
      end
  | Cat r1 r2 => run r1 st (fun st1 => run r2 st1 k)
  | Or r1 r2 =>
      match run r1 st k with
      | Some m => Some m
      | None => run r2 st k
      end
  | Star r1 =>
      (* one more iteration is tried first; an iteration that consumes
         nothing is rejected; at most one iteration per remaining code
         unit can consume something *)
      (fix loop (n : nat) (st : state) : option state :=
         match n with
         | O => k st
         | S n' =>
             match run r1 st (fun st1 =>
                     if pos st1 =? pos st then None else loop n' st1) with
             | Some m => Some m
             | None => k st
             end
         end) (String.length (rest st)) st
  | Group name r1 =>
      run r1 st (fun st1 =>
        k (set_capture name (substring (pos st) (pos st1 - pos st) (input st)) st1))
  | Bol => if pos st =? 0 then k st else None
  | Eol => match rest st with EmptyString => k st | String _ _ => None end
  end.

(** [re.exec(s)] for a pattern without the flags g and y: the first start
    index, from 0 on, at which the pattern matches. *)
Fixpoint exec_from (r : t) (s : string) (i : nat) (suffix : string) : option state :=
  match run r (mk_state s i suffix []) (fun st => Some st) with
  | Some m => Some m
  | None =>
      match suffix with
      | EmptyString => None
      | String _ suffix' => exec_from r s (S i) suffix'
      end
  end.

Definition exec (r : t) (s : string) : option state := exec_from r s 0 s.

(** [re.test(s)]. *)
Definition test (r : t) (s : string) : bool :=
  match exec r s with Some _ => true | None => false end.

(** [match.groups.name] or [match[n]]: [None] is [undefined]. *)
Definition group (name : string) (m : state) : option string :=
  match find (fun kv => String.eqb (fst kv) name) (captures m) with
  | Some kv => Some (snd kv)
  | None => None
  end.

(** Pattern syntax. *)
Definition Plus (r : t) : t := Cat r (Star r).
Definition Opt (r : t) : t := Or r Empty.

Fixpoint seq (rs : list t) : t :=
  match rs with
  | [] => Empty
  | [r] => r
  | r :: rs' => Cat r (seq rs')
  end.

Fixpoint alt (rs : list t) : t :=
  match rs with
  | [] => Char (fun _ => false)
  | [r] => r
  | r :: rs' => Or r (alt rs')
  end.

Definition lit (c : ascii) : t := Char (Ascii.eqb c).

(** A literal under the flag [i]. *)
Definition lit_i (c : ascii) : t :=
  Char (fun d => Ascii.eqb (Js.upper d) (Js.upper c)).

Fixpoint str (s : string) : t :=
  match s with
  | EmptyString => Empty
  | String c EmptyString => lit c
  | String c s' => Cat (lit c) (str s')
  end.

Fixpoint str_i (s : string) : t :=
  match s with
  | EmptyString => Empty
  | String c EmptyString => lit_i c
  | String c s' => Cat (lit_i c) (str_i s')
  end.

Definition space : t := Char Js.is_space.                       (* \s *)
Definition dot : t := Char (fun c => negb (Js.is_line_terminator c)).  (* . *)
Definition none_of (c : ascii) : t := Char (fun d => negb (Ascii.eqb c d)).  (* [^c] *)

(** [[A-Za-z0-9_\-]] *)
Definition id_char : t :=
  Char (fun c => Js.is_upper c || Js.is_lower c || Js.is_digit c
                 || Ascii.eqb c "_"%char || Ascii.eqb c "-"%char).

End Regex.

(** ** The patterns of parser.js *)

Import Regex.

(** The pattern /^(graph|flowchart)\s+(TB|TD|BT|RL|LR)?/i *)
Definition ORIENTATION_PATTERN : Regex.t :=
  seq [ Bol;
        Group "1" (alt [str_i "graph"; str_i "flowchart"]);
        Plus space;
        Opt (Group "2" (alt [str_i "TB"; str_i "TD"; str_i "BT"; str_i "RL"; str_i "LR"])) ].

(** The pattern (its last group is written here with spaces around it)
    /^(?<lhs>[A-Za-z0-9_\-]+)\s*(?<edge>-->|--|==>|==|-.->|===>)\s*(?<label>\|[^|]+\|)?\s*(?<rhs>[A-Za-z0-9_\-]+)(?<decor> .* )$/ *)
Definition EDGE_PATTERN : Regex.t :=
  seq [ Bol;
        Group "lhs" (Plus id_char);
        Star space;
        Group "edge" (alt [ str "-->"; str "--"; str "==>"; str "==";
                            seq [lit "-"; dot; lit "-"; lit ">"]; str "===>" ]);
        Star space;
        Opt (Group "label" (seq [lit "|"; Plus (none_of "|"); lit "|"]));
        Star space;
        Group "rhs" (Plus id_char);
        Group "decor" (Star dot);
        Eol ].

(** The pattern
    /^(?<id>[A-Za-z0-9_\-]+)(?<shape>\[[^\]]*\]|\([^)]*\)|\{[^}]*\}|>[^<]*<)?$/ *)
Definition NODE_PATTERN : Regex.t :=
  seq [ Bol;
        Group "id" (Plus id_char);
        Opt (Group "shape" (alt [ seq [lit "["; Star (none_of "]"); lit "]"];
                                  seq [lit "("; Star (none_of ")"); lit ")"];
                                  seq [lit "{"; Star (none_of "}"); lit "}"];
                                  seq [lit ">"; Star (none_of "<"); lit "<"] ]));
        Eol ].

(** The pattern /^subgraph\s+/i *)
Definition SUBGRAPH_PATTERN : Regex.t :=
  seq [Bol; str_i "subgraph"; Plus space].

(** The pattern /^end$/i *)
Definition END_PATTERN : Regex.t :=
  seq [Bol; str_i "end"; Eol].

(** ** Maps and sets

    [Map] and [Set] keep their entries in insertion order; the keys and
    elements of this program are strings. *)

Module JsMap.
Section WithValue.
Variable V : Type.

Definition t : Type := list (string * V).

Fixpoint get (k : string) (m : t) : option V :=
  match m with
  | [] => None
  | (k', v) :: m' => if String.eqb k k' then Some v else get k m'
  end.

Definition has (k : string) (m : t) : bool :=
  match get k m with Some _ => true | None => false end.

(** [m.set(k, v)]: the value of an existing key is replaced where it
    stands, a new key goes to the end. *)
Fixpoint set (k : string) (v : V) (m : t) : t :=
  match m with
  | [] => [(k, v)]
  | (k', v') :: m' =>
      if String.eqb k k' then (k, v) :: m' else (k', v') :: set k v m'
  end.

Definition keys (m : t) : list string := map fst m.
Definition values (m : t) : list V := map snd m.
End WithValue.
End JsMap.

Module JsSet.
Definition t : Type := list string.

Definition has (x : string) (s : t) : bool := existsb (String.eqb x) s.

Definition add (x : string) (s : t) : t := if has x s then s else (s ++ [x])%list.

Definition delete (x : string) (s : t) : t :=
  filter (fun y => negb (String.eqb x y)) s.
End JsSet.

(** ** The data model of parser.js *)

(** A value a caller can pass where a string is expected. *)
Inductive JsValue : Type :=
| JsUndefined
| JsNull
| JsBoolean (b : bool)
| JsNumber (z : Z)
| JsString (s : string)
| JsObject (ref : nat).

Definition typeof (v : JsValue) : string :=
  match v with
  | JsUndefined => "undefined"
  | JsNull => "object"
  | JsBoolean _ => "boolean"
  | JsNumber _ => "number"
  | JsString _ => "string"
  | JsObject _ => "object"
  end.

Module Node.
Record t : Type := mk {
  id : string;
  label : string;
  shape : string;
  line : nat;
  group : option string
}.

Definition with_label (l : string) (n : t) : t :=
  mk (id n) l (shape n) (line n) (group n).
End Node.

Module Edge.
Record t : Type := mk {
  id : string;
  source : string;
  target : string;
  label : string;
  line : nat
}.
End Edge.

(** A warning: the parser's carry a line, the graph model's the nodes of a
    cycle. *)
Module Warning.
Record t : Type := mk {
  message : string;
  line : option nat;
  nodes : option (list string)
}.
End Warning.

Module Log.
Record t : Type := mk {
  type : string;
  value : string;
  line : nat
}.
End Log.

Module Meta.
Record t : Type := mk {
  orientation : string;
  preferredMaxNodes : Z;
  maxNodes : Z;
  warnings : list Warning.t;
  logs : list Log.t;
  groups : JsMap.t (list string);
  degrade : bool;
  overflow : bool
}.

Definition with_warnings (w : list Warning.t) (m : t) : t :=
  mk (orientation m) (preferredMaxNodes m) (maxNodes m) w (logs m)
     (groups m) (degrade m) (overflow m).
End Meta.

Module Graph.
Record t : Type := mk {
  nodes : list Node.t;
  edges : list Edge.t;
  meta : Meta.t
}.
End Graph.

(** [class FlowMDError extends Error]. *)
Module FlowMDError.
Record t : Type := mk {
  name : string;
  message : string;
  line : option nat
}.

(** [constructor(message, line)]: [line] is [None] when the argument is
    left out; a line number is truthy when it is not 0. *)
Definition new (message : string) (line : option nat) : t :=
  mk "FlowMDError"
     (match line with
      | Some (S l) => message ++ " (line " ++ Js.show_nat (S l) ++ ")"
      | _ => message
      end)
     line.
End FlowMDError.

Inductive result (A : Type) : Type :=
| Ok (a : A)
| Throw (e : FlowMDError.t).
Arguments Ok {A} a.
Arguments Throw {A} e.

(** The scanning context [ctx] of [parse]. *)
Module Ctx.
Record t : Type := mk {
  orientation : string;
  nodes : JsMap.t Node.t;
  edges : list Edge.t;
  groups : JsMap.t JsSet.t;
  logs : list Log.t;
  warnings : list Warning.t;
  errors : list Warning.t;
  currentGroup : option string;
  line : nat;
  orientationParsed : bool
}.

Definition with_orientation (v : string) (c : t) : t :=
  mk v (nodes c) (edges c) (groups c) (logs c) (warnings c) (errors c)
     (currentGroup c) (line c) (orientationParsed c).
Definition with_nodes (v : JsMap.t Node.t) (c : t) : t :=
  mk (orientation c) v (edges c) (groups c) (logs c) (warnings c) (errors c)
     (currentGroup c) (line c) (orientationParsed c).
Definition with_edges (v : list Edge.t) (c : t) : t :=
  mk (orientation c) (nodes c) v (groups c) (logs c) (warnings c) (errors c)
     (currentGroup c) (line c) (orientationParsed c).
Definition with_groups (v : JsMap.t JsSet.t) (c : t) : t :=
  mk (orientation c) (nodes c) (edges c) v (logs c) (warnings c) (errors c)
     (currentGroup c) (line c) (orientationParsed c).
Definition with_logs (v : list Log.t) (c : t) : t :=
  mk (orientation c) (nodes c) (edges c) (groups c) v (warnings c) (errors c)
     (currentGroup c) (line c) (orientationParsed c).
Definition with_warnings (v : list Warning.t) (c : t) : t :=
  mk (orientation c) (nodes c) (edges c) (groups c) (logs c) v (errors c)
     (currentGroup c) (line c) (orientationParsed c).
Definition with_currentGroup (v : option string) (c : t) : t :=
  mk (orientation c) (nodes c) (edges c) (groups c) (logs c) (warnings c)
     (errors c) v (line c) (orientationParsed c).
Definition with_line (v : nat) (c : t) : t :=
  mk (orientation c) (nodes c) (edges c) (groups c) (logs c) (warnings c)
     (errors c) (currentGroup c) v (orientationParsed c).
Definition with_orientationParsed (v : bool) (c : t) : t :=
  mk (orientation c) (nodes c) (edges c) (groups c) (logs c) (warnings c)
     (errors c) (currentGroup c) (line c) v.

(** The context [parse] starts from; [orientationParsed] is not set,
    hence falsy. *)
Definition initial : t :=
  mk "TB" [] [] [] [] [] [] None 0 false.
End Ctx.

(** The third argument of [ensureNode]. *)
Module Extra.
Record t : Type := mk {
  line : option nat;
  shape : option string
}.
End Extra.

(** ** FlowMDParser *)

Module FlowMDParser.

(** [constructor(options = {})] *)
Record Options : Type := mk_options {
  opt_maxNodes : option Z;
  opt_preferredMaxNodes : option Z
}.

Record t : Type := mk {
  maxNodes : Z;
  preferredMaxNodes : Z
}.

Definition new (options : Options) : t :=
  mk (match opt_maxNodes options with Some n => n | None => 1000%Z end)
     (match opt_preferredMaxNodes options with Some n => n | None => 300%Z end).

Definition default : t := new (mk_options None None).

Definition makeWarning (message : string) (ctx : Ctx.t) : Warning.t :=
  Warning.mk message (Some (Ctx.line ctx)) None.

Definition parseHeader (line : string) (ctx : Ctx.t) : result Ctx.t :=
  match Regex.exec ORIENTATION_PATTERN line with
  | None =>
      Throw (FlowMDError.new "FlowMD must start with graph/flowchart declaration"
                             (Some (Ctx.line ctx)))
  | Some m =>
      let orientation :=
        Js.toUpperCase
          (match Regex.group "2" m with
           | Some (String c s) => String c s
           | _ => "TB"
           end) in
      let ctx := Ctx.with_orientationParsed true ctx in
      let ctx := Ctx.with_orientation orientation ctx in
      Ok (Ctx.with_logs
            (Ctx.logs ctx ++ [Log.mk "orientation" orientation (Ctx.line ctx)])%list
            ctx)
  end.

(** Returns the new current group with the context. *)
Definition parseSubgraph (line : string) (ctx : Ctx.t) : option string * Ctx.t :=
  let nameRaw := nth_error (Js.split_ws line 2) 1 in
  let name := match nameRaw with Some s => Some (Js.trim s) | None => None end in
  match name with
  | Some (String c s) =>
      let name := String c s in
      if negb (JsMap.has name (Ctx.groups ctx))
      then (Some name, Ctx.with_groups (JsMap.set name [] (Ctx.groups ctx)) ctx)
      else (Some name, ctx)
  | _ =>
      (None,
       Ctx.with_warnings
         (Ctx.warnings ctx ++ [makeWarning "Empty subgraph name" ctx])%list ctx)
  end.

(** Returns the record of [id] with the context. A record a later
    sighting relabels is the object held by the map: the map's value is
    replaced where it stands. *)
Definition ensureNode (id : string) (ctx : Ctx.t) (extra : Extra.t)
  : Node.t * Ctx.t :=
  match JsMap.get id (Ctx.nodes ctx) with
  | None =>
      let label :=
        match Extra.shape extra with
        | Some (String c s) => Js.trim (Js.slice_1_m1 (String c s))
        | _ => id
        end in
      let node :=
        Node.mk id
                (if Js.truthy label then label else id)
                (match Extra.shape extra with
                 | Some (String c s) => Js.first_char (String c s)
                 | _ => "[]"
                 end)
                (match Extra.line extra with
                 | Some l => l
                 | None => Ctx.line ctx
                 end)
                (Ctx.currentGroup ctx) in
      (node, Ctx.with_nodes (JsMap.set id node (Ctx.nodes ctx)) ctx)
  | Some node =>
      match Extra.shape extra with
      | Some (String c s) =>
          let shape := String c s in
          if 2 <? String.length shape then
            let inner := Js.trim (Js.slice_1_m1 shape) in
            let node' :=
              Node.with_label (if Js.truthy inner then inner else Node.label node)
                              node in
            (node', Ctx.with_nodes (JsMap.set id node' (Ctx.nodes ctx)) ctx)
          else (node, ctx)
      | _ => (node, ctx)
      end
  end.

(** The groups [lhs] and [rhs] take part in every match of the edge
    pattern: the middle case of the [match] is the match, the last one
    the mismatch. *)
Definition parseEdge (line : string) (ctx : Ctx.t) : bool * Ctx.t :=
  match Regex.exec EDGE_PATTERN line with
  | None => (false, ctx)
  | Some m =>
      match Regex.group "lhs" m, Regex.group "rhs" m with
      | Some lhs, Some rhs =>
          let label := Regex.group "label" m in
          let edgeLabel :=
            match label with
            | Some (String c s) => Js.trim (Js.slice_1_m1 (String c s))
            | _ => ""
            end in
          let (source, ctx) :=
            ensureNode lhs ctx (Extra.mk (Some (Ctx.line ctx)) None) in
          let (target, ctx) :=
            ensureNode rhs ctx (Extra.mk (Some (Ctx.line ctx)) None) in
          (true,
           Ctx.with_edges
             (Ctx.edges ctx ++
                [Edge.mk (Node.id source ++ "->" ++ Node.id target)
                         (Node.id source) (Node.id target) edgeLabel
                         (Ctx.line ctx)])%list
             ctx)
      | _, _ => (false, ctx)
      end
  end.

Definition parseNode (line : string) (ctx : Ctx.t) : bool * Ctx.t :=
  match Regex.exec NODE_PATTERN line with
  | None => (false, ctx)
  | Some m =>
      match Regex.group "id" m with
      | Some id =>
          let shape := Regex.group "shape" m in
          let (node, ctx) :=
            ensureNode id ctx (Extra.mk (Some (Ctx.line ctx)) shape) in
          match Ctx.currentGroup ctx with
          | Some (String c s) =>
              let g := String c s in
              match JsMap.get g (Ctx.groups ctx) with
              | Some members =>
                  (true,
                   Ctx.with_groups
                     (JsMap.set g (JsSet.add (Node.id node) members) (Ctx.groups ctx))
                     ctx)
              | None => (true, ctx)
              end
          | _ => (true, ctx)
          end
      | None => (false, ctx)
      end
  end.

(** One turn of the loop of [parse], on the line of index [index]. *)
Definition parseLine (index : nat) (rawLine : string) (ctx : Ctx.t)
  : result Ctx.t :=
  let ctx := Ctx.with_line (index + 1) ctx in
  let line := Js.trim rawLine in
  if negb (Js.truthy line) || Js.startsWith line "%%" then Ok ctx
  else if negb (Ctx.orientationParsed ctx) then parseHeader line ctx
  else if Regex.test SUBGRAPH_PATTERN line then
    let (g, ctx) := parseSubgraph line ctx in
    Ok (Ctx.with_currentGroup g ctx)
  else if Regex.test END_PATTERN line then
    Ok (Ctx.with_currentGroup None ctx)
  else
    let (isEdge, ctx) := parseEdge line ctx in
    if isEdge then Ok ctx
    else
      let (isNode, ctx) := parseNode line ctx in
      if isNode then Ok ctx
      else
        Ok (Ctx.with_warnings
              (Ctx.warnings ctx ++ [makeWarning "Unrecognised statement" ctx])%list
              ctx).

(** The loop of [parse] from the line of index [index] on. *)
Fixpoint scan (index : nat) (lines : list string) (ctx : Ctx.t) : result Ctx.t :=
  match lines with
  | [] => Ok ctx
  | rawLine :: lines' =>
      match parseLine index rawLine ctx with
      | Ok ctx' => scan (S index) lines' ctx'
      | Throw e => Throw e
      end
  end.

(** [groups[name] = members] on the plain object [groups]: an own
    property is created or overwritten, except for the name [__proto__],
    whose assignment goes to the setter of [Object.prototype] and leaves
    no own property. The properties are kept in the order of their
    creation (the order in which an object enumerates names that are
    array indices is not modelled). *)
Definition object_set (name : string) (members : list string)
           (groups : JsMap.t (list string)) : JsMap.t (list string) :=
  if String.eqb name "__proto__" then groups else JsMap.set name members groups.

Definition groupsObject (groups : JsMap.t JsSet.t) : JsMap.t (list string) :=
  fold_left (fun obj entry => object_set (fst entry) (snd entry) obj) groups [].

(** What [parse] does once the lines are scanned. *)
Definition finish (self : t) (ctx : Ctx.t) : result Graph.t :=
  let nodeArray := JsMap.values (Ctx.nodes ctx) in
  let groups := groupsObject (Ctx.groups ctx) in
  let meta :=
    Meta.mk (Ctx.orientation ctx)
            (preferredMaxNodes self)
            (maxNodes self)
            (Ctx.warnings ctx)
            (Ctx.logs ctx)
            groups
            (Z.of_nat (List.length nodeArray) >? preferredMaxNodes self)%Z
            (Z.of_nat (List.length nodeArray) >? maxNodes self)%Z in
  if Meta.overflow meta then
    Throw (FlowMDError.new
             ("Node count " ++ Js.show_nat (List.length nodeArray)
              ++ " exceeds hard limit " ++ Js.show_Z (maxNodes self))
             None)
  else Ok (Graph.mk nodeArray (Ctx.edges ctx) meta).

(** [parse(text)]; the last case is [typeof text !== 'string']. *)
Definition parse (self : t) (text : JsValue) : result Graph.t :=
  match text with
  | JsString source =>
      match scan 0 (Js.split_lines source) Ctx.initial with
      | Ok ctx => finish self ctx
      | Throw e => Throw e
      end
  | _ => Throw (FlowMDError.new "FlowMD source must be a string" None)
  end.

End FlowMDParser.

(** ** GraphModel *)

Module GraphModel.

Definition Adjacency : Type := JsMap.t JsSet.t.

Record t : Type := mk {
  nodes : list Node.t;
  edges : list Edge.t;
  meta : Meta.t;
  adjacency : Adjacency;
  cycles : list (list string)
}.

(** The body of the loop over the edges in [buildAdjacency]. *)
Definition addEdge (map : Adjacency) (edge : Edge.t) : Adjacency :=
  let map :=
    if negb (JsMap.has (Edge.source edge) map)
    then JsMap.set (Edge.source edge) [] map else map in
  let map :=
    if negb (JsMap.has (Edge.target edge) map)
    then JsMap.set (Edge.target edge) [] map else map in
  match JsMap.get (Edge.source edge) map with
  | Some successors =>
      JsMap.set (Edge.source edge) (JsSet.add (Edge.target edge) successors) map
  | None => map
  end.

Definition buildAdjacency (nodes : list Node.t) (edges : list Edge.t) : Adjacency :=
  let map := fold_left (fun map node => JsMap.set (Node.id node) [] map) nodes [] in
  fold_left addEdge edges map.

(** The variables [dfs] closes over. *)
Record DfsState : Type := mk_dfs {
  visited : JsSet.t;
  stack : JsSet.t;
  path : list string;
  seen : JsSet.t;
  found : list (list string)      (* the local [cycles] *)
}.

(** [path.indexOf(x)], [None] for -1. *)
Fixpoint indexOf (x : string) (l : list string) : option nat :=
  match l with
  | [] => None
  | y :: l' =>
      if String.eqb x y then Some 0
      else match indexOf x l' with Some i => Some (S i) | None => None end
  end.

(** The branch of [dfs] for a visited successor: a successor on the
    stack closes a cycle, recorded unless its key is already seen. *)
Definition recordCycle (successor : string) (st : DfsState) : DfsState :=
  if JsSet.has successor (stack st) then
    match indexOf successor (path st) with
    | Some index =>
        let cyclePath := (skipn index (path st) ++ [successor])%list in
        let key := Js.join "->" cyclePath in
        if negb (JsSet.has key (seen st))
        then mk_dfs (visited st) (stack st) (path st)
                    (JsSet.add key (seen st))
                    (found st ++ [cyclePath])%list
        else st
    | None => st
    end
  else st.

(** The loop over the successors inside [dfs]; [call] is the recursive
    call. *)
Fixpoint forEachSuccessor (call : string -> DfsState -> option DfsState)
         (successors : list string) (st : DfsState) : option DfsState :=
  match successors with
  | [] => Some st
  | successor :: successors' =>
      let next :=
        if negb (JsSet.has successor (visited st)) then call successor st
        else Some (recordCycle successor st) in
      match next with
      | Some st' => forEachSuccessor call successors' st'
      | None => None
      end
  end.

(** The recursive closure [dfs]; [fuel] bounds the depth of the
    recursion, [None] means that it ran out. *)
Fixpoint dfs (fuel : nat) (adjacency : Adjacency) (nodeId : string)
         (st : DfsState) : option DfsState :=
  match fuel with
  | O => None
  | S fuel' =>
      let st := mk_dfs (JsSet.add nodeId (visited st))
                       (JsSet.add nodeId (stack st))
                       (path st ++ [nodeId])%list
                       (seen st) (found st) in
      let successors :=
        match JsMap.get nodeId adjacency with Some s => s | None => [] end in
      match forEachSuccessor (dfs fuel' adjacency) successors st with
      | Some st =>
          Some (mk_dfs (visited st)
                       (JsSet.delete nodeId (stack st))
                       (removelast (path st))
                       (seen st) (found st))
      | None => None
      end
  end.

(** The loop over the keys of the adjacency at the end of
    [detectCycles]. *)
Fixpoint forEachKey (fuel : nat) (adjacency : Adjacency)
         (keys : list string) (st : DfsState) : option DfsState :=
  match keys with
  | [] => Some st
  | node :: keys' =>
      if negb (JsSet.has node (visited st)) then
        match dfs fuel adjacency node st with
        | Some st' => forEachKey fuel adjacency keys' st'
        | None => None
        end
      else forEachKey fuel adjacency keys' st
  end.

(** Every call of [dfs] visits a new key or a node without successors,
    so the recursion is never deeper than the number of keys plus one. *)
Definition detectCycles (adjacency : Adjacency) : option (list (list string)) :=
  match forEachKey (S (List.length adjacency)) adjacency (JsMap.keys adjacency)
                   (mk_dfs [] [] [] [] []) with
  | Some st => Some (found st)
  | None => None
  end.

(** The body of the loop over the cycles in the constructor. *)
Definition addCycleWarning (warnings : list Warning.t) (cycle : list string)
  : list Warning.t :=
  let message := "Cycle detected: " ++ Js.join " -> " cycle in
  if negb (existsb (fun warning => String.eqb (Warning.message warning) message)
                   warnings)
  then (warnings ++ [Warning.mk message None (Some cycle)])%list
  else warnings.

(** [new GraphModel(graph)]: the model, and [graph] as the constructor
    leaves it. The model's [meta] is the object [graph.meta]: what the
    constructor pushes to [this.meta.warnings] shows in both. A document
    of type [Graph.t] has a [meta] and its [warnings] is an array, so
    the constructor's fallbacks for a missing [meta] and for [warnings]
    that is not an array are not taken. *)
Definition new (graph : Graph.t) : option (t * Graph.t) :=
  let adjacency := buildAdjacency (Graph.nodes graph) (Graph.edges graph) in
  match detectCycles adjacency with
  | Some cycles =>
      let meta :=
        match cycles with
        | [] => Graph.meta graph
        | _ :: _ =>
            Meta.with_warnings
              (fold_left addCycleWarning cycles (Meta.warnings (Graph.meta graph)))
              (Graph.meta graph)
        end in
      Some (mk (Graph.nodes graph) (Graph.edges graph) meta adjacency cycles,
            Graph.mk (Graph.nodes graph) (Graph.edges graph) meta)
  | None => None
  end.

Definition successors (self : t) (nodeId : string) : list string :=
  match JsMap.get nodeId (adjacency self) with
  | Some s => s
  | None => []
  end.

Definition findNode (self : t) (nodeId : string) : option Node.t :=
  find (fun node => String.eqb (Node.id node) nodeId) (nodes self).

Definition toJSON (self : t) : Graph.t :=
  Graph.mk (nodes self) (edges self) (meta self).

End GraphModel.

(** ** HighlightEngine *)

Module HighlightEngine.

(** The result of [downstream]; its [duration], a difference of two
    readings of the clock, is left out. *)
Record Result : Type := mk_result {
  nodes : JsSet.t;
  edges : JsSet.t
}.

Record State : Type := mk_state {
  visited : JsSet.t;
  edgeIds : JsSet.t;
  queue : list string
}.

(** The loop over [successors(nodeId)] inside the [while] loop. *)
Definition visitSuccessor (nodeId : string) (st : State) (successor : string)
  : State :=
  let edgeId := nodeId ++ "->" ++ successor in
  mk_state (visited st)
           (JsSet.add edgeId (edgeIds st))
           (if negb (JsSet.has successor (visited st))
            then (queue st ++ [successor])%list else queue st).

(** The [while (queue.length)] loop; [fuel] bounds the number of its
    turns, [None] means that it ran out. *)
Fixpoint loop (fuel : nat) (model : GraphModel.t) (st : State) : option State :=
  match queue st with
  | [] => Some st
  | nodeId :: queue' =>
      match fuel with
      | O => None
      | S fuel' =>
          let st := mk_state (visited st) (edgeIds st) queue' in
          if JsSet.has nodeId (visited st) then loop fuel' model st
          else
            let st := mk_state (JsSet.add nodeId (visited st)) (edgeIds st)
                               (queue st) in
            loop fuel' model
                 (fold_left (visitSuccessor nodeId)
                            (GraphModel.successors model nodeId) st)
      end
  end.

(** A turn of the loop either takes a visited node off the queue or
    visits a new node and queues no more than its successors: the queue
    length plus, for every unvisited key, one plus the number of its
    successors, goes down with every turn. *)
Definition fuelFor (model : GraphModel.t) : nat :=
  2 + fold_right (fun entry n => 1 + List.length (snd entry) + n) 0
                 (GraphModel.adjacency model).

(** [downstream(startId)]; [None] stands for [null] or [undefined]. *)
Definition downstream (model : GraphModel.t) (startId : option string)
  : option Result :=
  match startId with
  | Some (String c s) =>
      match loop (fuelFor model) model (mk_state [] [] [String c s]) with
      | Some st => Some (mk_result (visited st) (edgeIds st))
      | None => None
      end
  | _ => Some (mk_result [] [])
  end.

End HighlightEngine.

(** ** Exporter

    [exportCsv] of export.js. The text it builds is modelled in full; the
    download it ends with is a matter of the browser, and shows here as
    the arguments [downloadBlob] is called with. [exportPng] draws the
    picture from the document tree of the page and is left out. *)

Module Exporter.

(** The arguments of [downloadBlob(content, type, filename)]. *)
Record Download : Type := mk_download {
  content : string;
  type : string;
  filename : string
}.

(** [edgeId.split('->')]: a new piece starts after every arrow. *)
Fixpoint split_arrow_aux (s : string) (cur : string) : list string :=
  match s with
  | EmptyString => [cur]
  | String c s' =>
      match s' with
      | String d s'' =>
          if Ascii.eqb c "-"%char && Ascii.eqb d ">"%char
          then cur :: split_arrow_aux s'' EmptyString
          else split_arrow_aux s' (cur ++ String c EmptyString)
      | EmptyString => split_arrow_aux s' (cur ++ String c EmptyString)
      end
  end.

Definition split_arrow (s : string) : list string :=
  split_arrow_aux s EmptyString.

(** The double quote. *)
Definition dquote : ascii := "034"%char.

(** [value.replace] with the pattern of the double quote and the flag g:
    every double quote is doubled. *)
Fixpoint escape (value : string) : string :=
  match value with
  | EmptyString => EmptyString
  | String c value' =>
      if Ascii.eqb c dquote then String dquote (String dquote (escape value'))
      else String c (escape value')
  end.

(** One cell between double quotes. A cell that is [undefined] (here
    [None]) has no [replace]: the call throws a TypeError, which is the
    result [None]. *)
Definition cell (value : option string) : option string :=
  match value with
  | Some v => Some (String dquote (escape v ++ String dquote EmptyString))
  | None => None
  end.

(** [l.map(f)] for an [f] that may throw: the first throw ends the map. *)
Fixpoint mapOrThrow {A B : Type} (f : A -> option B) (l : list A) : option (list B) :=
  match l with
  | [] => Some []
  | a :: l' =>
      match f a with
      | Some b =>
          match mapOrThrow f l' with
          | Some bs => Some (b :: bs)
          | None => None
          end
      | None => None
      end
  end.

(** [r.map(cell).join(',')] *)
Definition row (r : list (option string)) : option string :=
  match mapOrThrow cell r with
  | Some cells => Some (Js.join "," cells)
  | None => None
  end.

Definition CRLF : string := String "013"%char (String "010"%char EmptyString).

(** [rows.map(row).join('\r\n')] *)
Definition csv (rows : list (list (option string))) : option string :=
  match mapOrThrow row rows with
  | Some lines => Some (Js.join CRLF lines)
  | None => None
  end.

(** [const [source, target] = edgeId.split('->')]: a piece that is not
    there is [undefined]. *)
Definition rowOfEdgeId (edgeId : string) : list (option string) :=
  let parts := split_arrow edgeId in
  [nth_error parts 0; nth_error parts 1].

Definition rowOfEdge (edge : Edge.t) : list (option string) :=
  [Some (Edge.source edge); Some (Edge.target edge)].

(** [exportCsv(model, highlight)]: [highlight] is [None] for [null] or
    [undefined]; a highlight of this program always has its [edges]. The
    result is the download asked for, or [None] for a TypeError. *)
Definition exportCsv (model : GraphModel.t) (highlight : option HighlightEngine.Result)
  : option Download :=
  let header := [Some "source"; Some "target"] in
  let highlighted :=
    match highlight with
    | Some h => negb (List.length (HighlightEngine.edges h) =? 0)
    | None => false
    end in
  let rows :=
    if highlighted
    then match highlight with
         | Some h => header :: map rowOfEdgeId (HighlightEngine.edges h)
         | None => [header]
         end
    else header :: map rowOfEdge (GraphModel.edges model) in
  match csv rows with
  | Some text => Some (mk_download text "text/csv;charset=utf-8" "flowviz-edges.csv")
  | None => None
  end.

End Exporter.

(** ** Vocabulary of the properties *)

(** The line feed, and a text given by its lines. *)
Definition LF : string := String "010"%char EmptyString.

Definition text_of (lines : list string) : string := Js.join LF lines.

(** The texts the design document tests with. *)
Definition dag_text : string :=
  text_of ["flowchart TB"; "A-->B"; "A-->C"; "B-->D"].

Definition cycle_text : string :=
  text_of ["flowchart TB"; "A-->B"; "B-->C"; "C-->A"].

(** The lines the loop of [parse] passes over: blank lines and comments. *)
Definition isSkipped (rawLine : string) : bool :=
  negb (Js.truthy (Js.trim rawLine)) || Js.startsWith (Js.trim rawLine) "%%".

(** The header is read the same in both contexts. *)
Definition same_header (ctx ctx' : Ctx.t) : Prop :=
  Ctx.orientation ctx' = Ctx.orientation ctx
  /\ Ctx.orientationParsed ctx' = Ctx.orientationParsed ctx.

(** The key a cycle is deduplicated by. *)
Definition cycleKey (cycle : list string) : string := Js.join "->" cycle.

(** The cycles found so far have their keys seen, each key once. *)
Definition keys_seen (st : GraphModel.DfsState) : Prop :=
  (forall cycle, In cycle (GraphModel.found st) ->
                 In (cycleKey cycle) (GraphModel.seen st))
  /\ NoDup (map cycleKey (GraphModel.found st)).

(** The warning the graph model writes for a cycle. *)
Definition cycleWarning (cycle : list string) : Warning.t :=
  Warning.mk ("Cycle detected: " ++ Js.join " -> " cycle) None (Some cycle).

(** [id] is listed in the member set of the group [g]. *)
Definition member (id g : string) (groups : JsMap.t JsSet.t) : Prop :=
  exists members, JsMap.get g groups = Some members /\ In id members.


(** The map of the nodes is keyed by the ids of its records, each once. *)
Definition nodes_keyed (nodes : JsMap.t Node.t) : Prop :=
  NoDup (JsMap.keys nodes) /\
  forall k node, In (k, node) nodes -> Node.id node = k.

(** Two states of the record of a node: everything but the label is the
    same. *)
Definition same_origin (node node' : Node.t) : Prop :=
  Node.id node' = Node.id node /\ Node.shape node' = Node.shape node /\
  Node.line node' = Node.line node /\ Node.group node' = Node.group node.

(** A later context of the same scan: the nodes are still there, relabelled
    at most, the groups list what they listed, and the map of the nodes is
    still keyed by the ids. *)
Definition extends (ctx ctx' : Ctx.t) : Prop :=
  (forall id node,
      JsMap.get id (Ctx.nodes ctx) = Some node ->
      exists node', JsMap.get id (Ctx.nodes ctx') = Some node'
                    /\ same_origin node node')
  /\ (forall id g, member id g (Ctx.groups ctx) -> member id g (Ctx.groups ctx'))
  /\ (nodes_keyed (Ctx.nodes ctx) -> nodes_keyed (Ctx.nodes ctx')).

(** The nodes [downstream] has to find: [start], and the successors of
    what it has to find. *)
Inductive reach (model : GraphModel.t) (start : string) : string -> Prop :=
| reach_start : reach model start start
| reach_step : forall n s,
    reach model start n ->
    In s (GraphModel.successors model n) ->
    reach model start s.

(** The key of the edge from [n] to [s]. *)
Definition edgeKey (n s : string) : string := n ++ "->" ++ s.

(** What the loop of [downstream] keeps true, for the start node [start]. *)
Record bfs_inv (model : GraphModel.t) (start : string)
       (st : HighlightEngine.State) : Prop := mk_bfs_inv {
  inv_reach : forall x,
      In x (HighlightEngine.visited st) \/ In x (HighlightEngine.queue st) ->
      reach model start x;
  inv_start :
      In start (HighlightEngine.visited st) \/ In start (HighlightEngine.queue st);
  inv_closed : forall x s,
      In x (HighlightEngine.visited st) ->
      In s (GraphModel.successors model x) ->
      (In s (HighlightEngine.visited st) \/ In s (HighlightEngine.queue st)) /\
      In (edgeKey x s) (HighlightEngine.edgeIds st);
  inv_edges : forall e,
      In e (HighlightEngine.edgeIds st) ->
      exists x s, In x (HighlightEngine.visited st) /\
                  In s (GraphModel.successors model x) /\ e = edgeKey x s;
  inv_nodup_nodes : NoDup (HighlightEngine.visited st);
  inv_nodup_edges : NoDup (HighlightEngine.edgeIds st)
}.

(** The measure of the loop of [downstream]: the entries of the adjacency
    whose key is not visited, each counted with its successors. *)
Fixpoint pending (adjacency : GraphModel.Adjacency) (visited : JsSet.t) : nat :=
  match adjacency with
  | [] => 0
  | (k, successors) :: adjacency' =>
      (if JsSet.has k visited then 0 else 1 + List.length successors)
      + pending adjacency' visited
  end.

(** The measure of [dfs]: the keys not visited yet. *)
Definition unvisited (adjacency : GraphModel.Adjacency) (visited : JsSet.t) : nat :=
  List.length (filter (fun k => negb (JsSet.has k visited)) (JsMap.keys adjacency)).

(** The relabelling rule as the design document words it: a later sighting
    with a decorator whose inner text is not empty sets the label to the
    trimmed inner text. *)
Definition relabel_on_nonempty_inner : Prop :=
  forall id ctx node shape line,
    JsMap.get id (Ctx.nodes ctx) = Some node ->
    0 < String.length (Js.slice_1_m1 shape) ->
    Node.label (fst (FlowMDParser.ensureNode id ctx (Extra.mk line (Some shape))))
    = Js.trim (Js.slice_1_m1 shape).


(** A document whose only edge joins two ids without a record. *)
Definition edge_only_document : Graph.t :=
  Graph.mk [] [Edge.mk "X->Y" "X" "Y" "" 2]
           (Meta.mk "TB" 300 1000 [] [] [] false false).

(** ** Vocabulary of cycle detection *)

(** The successors the adjacency gives a node, none for a node that is no
    key: what [dfs] and [successors] read. *)
Definition succ_of (adjacency : GraphModel.Adjacency) (n : string) : list string :=
  match JsMap.get n adjacency with Some s => s | None => [] end.

(** Every element of the sequence is followed by one of its successors. *)
Fixpoint chain (adjacency : GraphModel.Adjacency) (l : list string) : Prop :=
  match l with
  | x :: ((y :: _) as l') => In y (succ_of adjacency x) /\ chain adjacency l'
  | _ => True
  end.

(** A sequence of at least two ids that follows the edges, ends on the
    id it starts with and passes no other id twice. *)
Definition closed_walk (adjacency : GraphModel.Adjacency) (c : list string) : Prop :=
  chain adjacency c
  /\ exists s mid, c = s :: (mid ++ [s])%list /\ NoDup (s :: mid).

(** [y] is reached from [x] by one edge or more. *)
Inductive walk (adjacency : GraphModel.Adjacency) : string -> string -> Prop :=
| walk_one : forall x y, In y (succ_of adjacency x) -> walk adjacency x y
| walk_more : forall x z y,
    In z (succ_of adjacency x) -> walk adjacency z y -> walk adjacency x y.

Definition acyclic (adjacency : GraphModel.Adjacency) : Prop :=
  forall x, ~ walk adjacency x x.

(** The nodes [dfs] is done with, the latest first: the successors of each
    were done with before it. *)
Fixpoint finish_order (adjacency : GraphModel.Adjacency) (order : list string) : Prop :=
  match order with
  | [] => True
  | x :: earlier =>
      (forall s, In s (succ_of adjacency x) -> In s earlier)
      /\ finish_order adjacency earlier
  end.

(** What [dfs] keeps true of the variables it closes over. *)
Record dfs_inv (adjacency : GraphModel.Adjacency) (st : GraphModel.DfsState)
  : Prop := mk_dfs_inv {
  dfs_stack_path : GraphModel.stack st = GraphModel.path st;
  dfs_path_nodup : NoDup (GraphModel.path st);
  dfs_path_visited : incl (GraphModel.path st) (GraphModel.visited st);
  dfs_path_chain : chain adjacency (GraphModel.path st);
  dfs_found_closed : forall c, In c (GraphModel.found st) -> closed_walk adjacency c;
  dfs_seen_found : forall k, In k (GraphModel.seen st) ->
                             exists c, In c (GraphModel.found st) /\ cycleKey c = k;
  dfs_finished : GraphModel.found st = [] ->
                 exists order,
                   (forall x, In x order <->
                              In x (GraphModel.visited st)
                              /\ ~ In x (GraphModel.path st))
                   /\ finish_order adjacency order
}.

(** What a call of [dfs] on an unvisited successor of the top of the path
    gives. *)
Definition dfs_call_spec (adjacency : GraphModel.Adjacency)
           (call : string -> GraphModel.DfsState -> option GraphModel.DfsState)
  : Prop :=
  forall n st st',
    call n st = Some st' ->
    dfs_inv adjacency st ->
    ~ In n (GraphModel.visited st) ->
    chain adjacency (GraphModel.path st ++ [n]) ->
    dfs_inv adjacency st'
    /\ GraphModel.path st' = GraphModel.path st
    /\ incl (GraphModel.visited st) (GraphModel.visited st')
    /\ In n (GraphModel.visited st')
    /\ (exists extra, GraphModel.found st' = (GraphModel.found st ++ extra)%list).

(** ** Vocabulary of the patterns *)

(** The strings a pattern matches, apart from the position in the subject
    and from the captures. *)
Inductive matches : Regex.t -> string -> Prop :=
| matches_empty : matches Empty EmptyString
| matches_char : forall p c, p c = true -> matches (Char p) (String c EmptyString)
| matches_cat : forall r1 r2 w1 w2,
    matches r1 w1 -> matches r2 w2 -> matches (Cat r1 r2) (w1 ++ w2)
| matches_or_l : forall r1 r2 w, matches r1 w -> matches (Or r1 r2) w
| matches_or_r : forall r1 r2 w, matches r2 w -> matches (Or r1 r2) w
| matches_star_nil : forall r, matches (Star r) EmptyString
| matches_star_more : forall r w1 w2,
    matches r w1 -> matches (Star r) w2 -> matches (Star r) (w1 ++ w2)
| matches_group : forall name r w, matches r w -> matches (Group name r) w
| matches_bol : matches Bol EmptyString
| matches_eol : matches Eol EmptyString.

(** Every group of the pattern captures only strings that [Q] accepts
    under the group's name. *)
Fixpoint groups_ok (Q : string -> string -> Prop) (r : Regex.t) : Prop :=
  match r with
  | Cat r1 r2 | Or r1 r2 => groups_ok Q r1 /\ groups_ok Q r2
  | Star r1 => groups_ok Q r1
  | Group name r1 => (forall w, matches r1 w -> Q name w) /\ groups_ok Q r1
  | _ => True
  end.

Definition captures_ok (Q : string -> string -> Prop)
           (captures : list (string * string)) : Prop :=
  forall name value, In (name, value) captures -> Q name value.

(** The state of a match in progress: [rest] is the subject from [pos]
    on. *)
Definition state_wf (st : Regex.state) : Prop :=
  exists pre, Regex.input st = pre ++ Regex.rest st
              /\ String.length pre = Regex.pos st.

Fixpoint all_chars (p : ascii -> bool) (s : string) : bool :=
  match s with
  | EmptyString => true
  | String c s' => p c && all_chars p s'
  end.

(** The class [[A-Za-z0-9_\-]]. *)
Definition isIdChar (c : ascii) : bool :=
  Js.is_upper c || Js.is_lower c || Js.is_digit c
  || Ascii.eqb c "_"%char || Ascii.eqb c "-"%char.

(** A node id as the patterns capture it: one character of the class or
    more. *)
Definition id_ok (id : string) : Prop :=
  Js.truthy id = true /\ all_chars isIdChar id = true.

(** A shape decorator as the node pattern captures it: an opening
    delimiter, then at least one more character. *)
Definition decorator_ok (shape : string) : Prop :=
  exists c rest,
    shape = String c rest /\ In (String c EmptyString) ["["; "("; "{"; ">"]
    /\ rest <> EmptyString.

(** What the groups of the three patterns capture. *)
Definition edge_groups (name value : string) : Prop :=
  name = "lhs" \/ name = "rhs" -> id_ok value.

Definition node_groups (name value : string) : Prop :=
  (name = "id" -> id_ok value) /\ (name = "shape" -> decorator_ok value).

Definition orientation_groups (name value : string) : Prop :=
  name = "2" -> In (Js.toUpperCase value) ["TB"; "TD"; "BT"; "RL"; "LR"].

(** ** Vocabulary of the parsed document *)

(** A record of the map of the nodes, under its key, at the line [line] of
    the scan. *)
Definition node_ok (line : nat) (id : string) (node : Node.t) : Prop :=
  id_ok id
  /\ Js.truthy (Node.label node) = true
  /\ In (Node.shape node) ["[]"; "["; "("; "{"; ">"]
  /\ 1 <= Node.line node <= line.

(** An edge among the nodes [nodes]: both ends have a record, made no later
    than the edge. *)
Definition edge_ok (nodes : JsMap.t Node.t) (line : nat) (edge : Edge.t) : Prop :=
  (exists node, JsMap.get (Edge.source edge) nodes = Some node
                /\ Node.line node <= Edge.line edge)
  /\ (exists node, JsMap.get (Edge.target edge) nodes = Some node
                   /\ Node.line node <= Edge.line edge)
  /\ Edge.id edge = edgeKey (Edge.source edge) (Edge.target edge)
  /\ 1 <= Edge.line edge <= line.

Definition warning_ok (line : nat) (warning : Warning.t) : Prop :=
  Warning.message warning = "Unrecognised statement"
  /\ (exists l, Warning.line warning = Some l /\ 1 <= l <= line)
  /\ Warning.nodes warning = None.

(** What the scan keeps true of its context. *)
Record parse_inv (ctx : Ctx.t) : Prop := mk_parse_inv {
  pi_keyed : nodes_keyed (Ctx.nodes ctx);
  pi_nodes : forall id node,
      In (id, node) (Ctx.nodes ctx) -> node_ok (Ctx.line ctx) id node;
  pi_edges : forall edge,
      In edge (Ctx.edges ctx) -> edge_ok (Ctx.nodes ctx) (Ctx.line ctx) edge;
  pi_warnings : forall warning,
      In warning (Ctx.warnings ctx) -> warning_ok (Ctx.line ctx) warning;
  pi_orientation : In (Ctx.orientation ctx) ["TB"; "TD"; "BT"; "RL"; "LR"];
  pi_group_keys : NoDup (JsMap.keys (Ctx.groups ctx));
  pi_groups : forall g members,
      In (g, members) (Ctx.groups ctx) ->
      g <> EmptyString /\ NoDup members
      /\ forall id, In id members -> JsMap.has id (Ctx.nodes ctx) = true;
  pi_current : forall g,
      Ctx.currentGroup ctx = Some g -> JsMap.has g (Ctx.groups ctx) = true;
  pi_node_group : forall id node g,
      In (id, node) (Ctx.nodes ctx) -> Node.group node = Some g ->
      JsMap.has g (Ctx.groups ctx) = true
}.

(** The text with a carriage return put before every line feed. *)
Fixpoint crlf (s : string) : string :=
  match s with
  | EmptyString => EmptyString
  | String c s' =>
      if Ascii.eqb c "010"%char then String "013"%char (String c (crlf s'))
      else String c (crlf s')
  end.

(** Two lines that differ in the white space around them at most. *)
Definition same_statement (a b : string) : Prop := Js.trim a = Js.trim b.

(** ** Vocabulary of the exported table *)

(** The text of a table all of whose cells are there. *)
Definition csv_cell (v : string) : string :=
  String Exporter.dquote (Exporter.escape v ++ String Exporter.dquote EmptyString).

Definition csv_row (cells : list string) : string :=
  Js.join "," (map csv_cell cells).

Definition csv_text (rows : list (list string)) : string :=
  Js.join Exporter.CRLF (map csv_row rows).

(** A reader of such texts: where it stands in the text. *)
Inductive CsvState : Type :=
| AtCell       (* a cell has to open *)
| InCell       (* inside the quotes of a cell *)
| AfterQuote.  (* after a quote inside a cell: closing, or the first of two *)

(** [cur] is the cell being read, [cells] the cells of the row being read,
    [rows] the rows read. *)
Fixpoint csv_read (s : string) (st : CsvState) (cur : string)
         (cells : list string) (rows : list (list string))
  : option (list (list string)) :=
  match s with
  | EmptyString =>
      match st with
      | AfterQuote => Some (rows ++ [cells ++ [cur]])%list
      | _ => None
      end
  | String c s' =>
      match st with
      | AtCell =>
          if Ascii.eqb c Exporter.dquote then csv_read s' InCell EmptyString cells rows
          else None
      | InCell =>
          if Ascii.eqb c Exporter.dquote then csv_read s' AfterQuote cur cells rows
          else csv_read s' InCell (cur ++ String c EmptyString) cells rows
      | AfterQuote =>
          if Ascii.eqb c Exporter.dquote
          then csv_read s' InCell (cur ++ String c EmptyString) cells rows
          else if Ascii.eqb c ","%char
          then csv_read s' AtCell EmptyString (cells ++ [cur])%list rows
          else if Ascii.eqb c "013"%char
          then match s' with
               | String d s'' =>
                   if Ascii.eqb d "010"%char
                   then csv_read s'' AtCell EmptyString []
                                 (rows ++ [cells ++ [cur]])%list
                   else None
               | EmptyString => None
               end
          else None
      end
  end.

Definition csv_decode (s : string) : option (list (list string)) :=
  csv_read s AtCell EmptyString [] [].

(** The rows of the table [exportCsv] writes for the edges [edges]. *)
Definition edge_rows (edges : list Edge.t) : list (list string) :=
  ["source"; "target"] :: map (fun edge => [Edge.source edge; Edge.target edge]) edges.

(** ** Vocabulary of the order of a document *)

(** What the scan keeps true of the labels and of the order of its
    records: the labels are trimmed, the edges stand in the order of their
    lines, one to a line, and the nodes in the order of the lines that
    made them. *)
Record order_inv (ctx : Ctx.t) : Prop := mk_order_inv {
  oi_labels : forall id node,
      In (id, node) (Ctx.nodes ctx) -> Js.trim (Node.label node) = Node.label node;
  oi_edge_labels : forall edge,
      In edge (Ctx.edges ctx) -> Js.trim (Edge.label edge) = Edge.label edge;
  oi_edge_lines : StronglySorted lt (map Edge.line (Ctx.edges ctx));
  oi_node_lines : StronglySorted le (map Node.line (JsMap.values (Ctx.nodes ctx)))
}.

(** ** Vocabulary of the sightings *)

(** The line is an edge statement: the edge pattern accepts it, with both
    ends. [parseEdge] returns this. *)
Definition isEdgeStatement (line : string) : bool :=
  match Regex.exec EDGE_PATTERN line with
  | Some m =>
      match Regex.group "lhs" m, Regex.group "rhs" m with
      | Some _, Some _ => true
      | _, _ => false
      end
  | None => false
  end.

(** The node statement the loop of [parse] reads the line as, in the
    context [ctx]: the id and the decorator that [parseNode] reads off the
    match of the node pattern and hands to [ensureNode]. [None] for a line
    that the loop passes over, reads as the header, as a subgraph, as an
    end or as an edge statement, or does not recognise. *)
Definition nodeSighting (ctx : Ctx.t) (rawLine : string)
  : option (string * option string) :=
  let line := Js.trim rawLine in
  if isSkipped rawLine then None
  else if negb (Ctx.orientationParsed ctx) then None
  else if Regex.test SUBGRAPH_PATTERN line then None
  else if Regex.test END_PATTERN line then None
  else if isEdgeStatement line then None
  else match Regex.exec NODE_PATTERN line with
       | Some m =>
           match Regex.group "id" m with
           | Some id => Some (id, Regex.group "shape" m)
           | None => None
           end
       | None => None
       end.

(** * Properties *)

Unset Implicit Arguments.

(** ** Strings, maps and sets *)

Lemma set_has_true (x : string) (s : JsSet.t) : JsSet.has x s = true <-> In x s.
Proof.
  unfold JsSet.has. rewrite existsb_exists. split.
  - intros [y [Hin Heq]]. apply String.eqb_eq in Heq. now subst.
  - intros Hin. exists x. split; [assumption | apply String.eqb_refl].
Qed.

Lemma set_has_false (x : string) (s : JsSet.t) : JsSet.has x s = false <-> ~ In x s.
Proof.
  rewrite <- set_has_true. destruct (JsSet.has x s); split; congruence.
Qed.

Lemma set_add_in (x y : string) (s : JsSet.t) :
  In y (JsSet.add x s) <-> In y s \/ y = x.
Proof.
  unfold JsSet.add. destruct (JsSet.has x s) eqn:E.
  - apply set_has_true in E. split; [now left | intros [H | ->]; assumption].
  - rewrite in_app_iff. simpl. intuition.
Qed.

Lemma set_add_nodup (x : string) (s : JsSet.t) : NoDup s -> NoDup (JsSet.add x s).
Proof.
  intros Hs. unfold JsSet.add. destruct (JsSet.has x s) eqn:E; [assumption |].
  apply set_has_false in E. apply NoDup_app; [assumption | repeat constructor; simpl; tauto |].
  intros y Hy [<- | []]. contradiction.
Qed.

Lemma set_has_add (x y : string) (s : JsSet.t) :
  JsSet.has y (JsSet.add x s) = String.eqb y x || JsSet.has y s.
Proof.
  destruct (JsSet.has y (JsSet.add x s)) eqn:E.
  - apply set_has_true, set_add_in in E. symmetry. apply orb_true_iff.
    destruct E as [E | ->]; [right; now apply set_has_true | left; apply String.eqb_refl].
  - symmetry. apply orb_false_iff. rewrite set_has_false, set_add_in in E. split.
    + apply String.eqb_neq. tauto.
    + apply set_has_false. tauto.
Qed.

Section MapFacts.
Variable V : Type.
Implicit Types (m : JsMap.t V) (k : string) (v : V).

Lemma map_get_in m k v : JsMap.get k m = Some v -> In (k, v) m.
Proof.
  induction m as [| [k' v'] m IH]; simpl; [discriminate |].
  destruct (String.eqb k k') eqn:E.
  - apply String.eqb_eq in E. intros [= ->]. left. now subst.
  - intros H. right. now apply IH.
Qed.

Lemma map_get_none m k : JsMap.get k m = None <-> ~ In k (JsMap.keys m).
Proof.
  induction m as [| [k' v'] m IH]; simpl; [tauto |].
  destruct (String.eqb k k') eqn:E.
  - apply String.eqb_eq in E. subst k'.
    split; [discriminate | intros H; exfalso; apply H; now left].
  - apply String.eqb_neq in E. rewrite IH.
    split; intros H; [intros [H1 | H1]; [congruence | tauto] | tauto].
Qed.

Lemma map_has_true m k : JsMap.has k m = true <-> In k (JsMap.keys m).
Proof.
  unfold JsMap.has. destruct (JsMap.get k m) eqn:E.
  - split; [intros _ | reflexivity].
    apply map_get_in in E. apply (in_map fst) in E. exact E.
  - apply map_get_none in E. split; [discriminate | contradiction].
Qed.

Lemma map_get_set_same m k v : JsMap.get k (JsMap.set k v m) = Some v.
Proof.
  induction m as [| [k' v'] m IH]; simpl.
  - now rewrite String.eqb_refl.
  - destruct (String.eqb k k') eqn:E; simpl.
    + now rewrite String.eqb_refl.
    + now rewrite E.
Qed.

Lemma map_get_set_other m k k' v :
  k' <> k -> JsMap.get k' (JsMap.set k v m) = JsMap.get k' m.
Proof.
  intros Hne. induction m as [| [k0 v0] m IH]; simpl.
  - apply String.eqb_neq in Hne. now rewrite Hne.
  - destruct (String.eqb k k0) eqn:E; simpl.
    + apply String.eqb_eq in E. subst k0.
      apply String.eqb_neq in Hne. now rewrite Hne.
    + destruct (String.eqb k' k0); [reflexivity | exact IH].
Qed.

Lemma map_keys_set m k v :
  JsMap.keys (JsMap.set k v m)
  = if JsMap.has k m then JsMap.keys m else (JsMap.keys m ++ [k])%list.
Proof.
  unfold JsMap.has.
  induction m as [| [k' v'] m IH]; simpl; [reflexivity |].
  destruct (String.eqb k k') eqn:E; simpl.
  - apply String.eqb_eq in E. now subst.
  - rewrite IH. now destruct (JsMap.get k m).
Qed.

Lemma map_keys_set_in m k v x :
  In x (JsMap.keys (JsMap.set k v m)) <-> In x (JsMap.keys m) \/ x = k.
Proof.
  rewrite map_keys_set. destruct (JsMap.has k m) eqn:E.
  - apply map_has_true in E. split; [now left | intros [H | ->]; assumption].
  - rewrite in_app_iff. simpl. intuition.
Qed.

Lemma map_keys_set_nodup m k v :
  NoDup (JsMap.keys m) -> NoDup (JsMap.keys (JsMap.set k v m)).
Proof.
  intros Hm. rewrite map_keys_set. destruct (JsMap.has k m) eqn:E; [assumption |].
  assert (Hk : ~ In k (JsMap.keys m)).
  { intros Hin. apply map_has_true in Hin. congruence. }
  apply NoDup_app; [assumption | repeat constructor; simpl; tauto |].
  intros y Hy [<- | []]. contradiction.
Qed.

Lemma map_set_in m k v k0 v0 :
  In (k0, v0) (JsMap.set k v m) -> (k0, v0) = (k, v) \/ In (k0, v0) m.
Proof.
  induction m as [| [k' v'] m IH]; simpl.
  - intros [[= <- <-] | []]. now left.
  - destruct (String.eqb k k'); simpl.
    + intros [[= <- <-] | H]; [now left | right; now right].
    + intros [H | H]; [right; now left |].
      destruct (IH H) as [H' | H']; [now left | right; now right].
Qed.
End MapFacts.

(** ** The argument and the header of [parse] *)

Lemma typeof_string (v : JsValue) :
  typeof v = "string" <-> exists s, v = JsString s.
Proof.
  split.
  - destruct v; simpl; try discriminate. intros _. now exists s.
  - intros [s ->]. reflexivity.
Qed.

(** C10: for every argument that is not a string, [parse] throws a
    FlowMDError whose message is "FlowMD source must be a string" and whose
    line is [null], whatever the parser's options; no line is examined. *)
Theorem parse_rejects_non_string (self : FlowMDParser.t) (text : JsValue) :
  typeof text <> "string" ->
  FlowMDParser.parse self text
  = Throw (FlowMDError.mk "FlowMDError" "FlowMD source must be a string" None).
Proof.
  intros H. destruct text; try reflexivity.
  exfalso. apply H. reflexivity.
Qed.

Lemma parse_rejects_non_string_witness :
  typeof (JsNumber 42) <> "string" /\
  FlowMDParser.parse FlowMDParser.default (JsNumber 42)
  = Throw (FlowMDError.mk "FlowMDError" "FlowMD source must be a string" None).
Proof.
  split.
  - discriminate.
  - apply parse_rejects_non_string. discriminate.
Defined.

(** C1, at the input the code and the claim differ on: the bare keyword
    [graph] is a header without a direction, and [parse] rejects it with
    the error of a missing header at line 1 instead of taking the
    orientation TB. *)
Theorem parse_bare_keyword_throws :
  FlowMDParser.parse FlowMDParser.default (JsString "graph")
  = Throw (FlowMDError.mk "FlowMDError"
             "FlowMD must start with graph/flowchart declaration (line 1)"
             (Some 1))
  /\ Regex.exec ORIENTATION_PATTERN "graph" = None
  /\ (exists g, FlowMDParser.parse FlowMDParser.default (JsString "graph x") = Ok g
                /\ Meta.orientation (Graph.meta g) = "TB").
Proof.
  split; [| split].
  - vm_compute. reflexivity.
  - vm_compute. reflexivity.
  - eexists. split; [vm_compute; reflexivity | reflexivity].
Qed.

(** ** The node count *)

(** C2: once the lines are scanned, with [N] nodes: if [N] is above
    [maxNodes] (1000 by default), [parse] throws and returns no document,
    and the message of the error gives [N] and the cap (stated for a cap
    that is a safe integer, as the rendering of numbers is modelled for
    those); if [N] is above [preferredMaxNodes] (300 by default) and not
    above [maxNodes], [parse] returns a document with [meta.degrade] set;
    if [N] is not above [preferredMaxNodes], the document [parse] returns
    has [meta.degrade] unset (and [parse] returns one unless [N] is above
    [maxNodes]). *)
Theorem node_count_policy (self : FlowMDParser.t) (source : string) (ctx : Ctx.t) :
  FlowMDParser.scan 0 (Js.split_lines source) Ctx.initial = Ok ctx ->
  let N := List.length (Ctx.nodes ctx) in
  let cap := FlowMDParser.maxNodes self in
  let preferred := FlowMDParser.preferredMaxNodes self in
  (FlowMDParser.maxNodes FlowMDParser.default = 1000
   /\ FlowMDParser.preferredMaxNodes FlowMDParser.default = 300)%Z
  /\ ((Z.of_nat N > cap)%Z ->
      (exists e, FlowMDParser.parse self (JsString source) = Throw e
                 /\ FlowMDError.name e = "FlowMDError"
                 /\ FlowMDError.line e = None)
      /\ (Js.isSafeInteger cap = true ->
          FlowMDParser.parse self (JsString source)
          = Throw (FlowMDError.mk "FlowMDError"
                     ("Node count " ++ Js.show_nat N ++ " exceeds hard limit "
                      ++ Js.show_Z cap)
                     None)))
  /\ ((preferred < Z.of_nat N <= cap)%Z ->
      exists g, FlowMDParser.parse self (JsString source) = Ok g
                /\ List.length (Graph.nodes g) = N
                /\ Meta.degrade (Graph.meta g) = true)
  /\ ((Z.of_nat N <= preferred)%Z ->
      match FlowMDParser.parse self (JsString source) with
      | Ok g => List.length (Graph.nodes g) = N
                /\ Meta.degrade (Graph.meta g) = false
      | Throw _ => (Z.of_nat N > cap)%Z
      end).
Proof.
  intros Hscan N cap preferred.
  assert (HN : List.length (JsMap.values (Ctx.nodes ctx)) = N).
  { unfold JsMap.values. apply length_map. }
  split; [split; reflexivity |].
  unfold FlowMDParser.parse. rewrite Hscan. unfold FlowMDParser.finish.
  cbn [Meta.overflow Meta.degrade]. rewrite HN. fold cap preferred.
  split; [| split].
  - intros Hgt. apply Z.gtb_gt in Hgt. rewrite Hgt.
    split; [| intros _; reflexivity].
    eexists. split; [reflexivity |]. split; reflexivity.
  - intros [Hlo Hhi].
    destruct (Z.of_nat N >? cap)%Z eqn:E; [apply Z.gtb_gt in E; lia |].
    eexists. split; [reflexivity |]. cbn. split; [exact HN |].
    apply Z.gtb_gt. lia.
  - intros Hle.
    destruct (Z.of_nat N >? cap)%Z eqn:E; [apply Z.gtb_gt in E; exact E |].
    cbn. split; [exact HN |].
    destruct (Z.of_nat N >? preferred)%Z eqn:E'; [apply Z.gtb_gt in E'; lia | reflexivity].
Qed.

Lemma node_count_policy_witness :
  (exists ctx,
      FlowMDParser.scan 0 (Js.split_lines dag_text) Ctx.initial = Ok ctx
      /\ List.length (Ctx.nodes ctx) = 4)
  /\ FlowMDParser.parse (FlowMDParser.mk 3 1) (JsString dag_text)
     = Throw (FlowMDError.mk "FlowMDError"
                "Node count 4 exceeds hard limit 3" None).
Proof.
  destruct (FlowMDParser.scan 0 (Js.split_lines dag_text) Ctx.initial)
    as [ctx | e] eqn:E.
  - assert (N4 : List.length (Ctx.nodes ctx) = 4).
    { vm_compute in E. injection E as <-. reflexivity. }
    split; [exists ctx; split; [reflexivity | exact N4] |].
    pose proof (node_count_policy (FlowMDParser.mk 3 1) dag_text ctx E) as H.
    cbv zeta in H. destruct H as [_ [H _]]. rewrite N4 in H.
    apply H; [simpl; lia | reflexivity].
  - vm_compute in E. discriminate E.
Defined.

(** ** The scan keeps the nodes and the groups *)

Lemma same_origin_refl (node : Node.t) : same_origin node node.
Proof. repeat split. Qed.

Lemma same_origin_trans (a b c : Node.t) :
  same_origin a b -> same_origin b c -> same_origin a c.
Proof.
  unfold same_origin. intros (H1 & H2 & H3 & H4) (K1 & K2 & K3 & K4).
  repeat split; congruence.
Qed.

Lemma extends_same (ctx ctx' : Ctx.t) :
  Ctx.nodes ctx' = Ctx.nodes ctx -> Ctx.groups ctx' = Ctx.groups ctx ->
  extends ctx ctx'.
Proof.
  intros Hn Hg. unfold extends. rewrite Hn, Hg. split; [| split]; try tauto.
  intros id node H. exists node. split; [exact H | apply same_origin_refl].
Qed.

Lemma extends_refl (ctx : Ctx.t) : extends ctx ctx.
Proof. now apply extends_same. Qed.

Lemma extends_trans (a b c : Ctx.t) : extends a b -> extends b c -> extends a c.
Proof.
  intros (N1 & G1 & K1) (N2 & G2 & K2). split; [| split].
  - intros id node H. destruct (N1 _ _ H) as (node1 & H1 & S1).
    destruct (N2 _ _ H1) as (node2 & H2 & S2).
    exists node2. split; [exact H2 | eapply same_origin_trans; eassumption].
  - intros id g H. auto.
  - intros H. apply K2, K1, H.
Qed.

Lemma nodes_keyed_set (nodes : JsMap.t Node.t) (id : string) (node : Node.t) :
  Node.id node = id -> nodes_keyed nodes -> nodes_keyed (JsMap.set id node nodes).
Proof.
  intros Hid [Hnd Hk]. split.
  - now apply map_keys_set_nodup.
  - intros k v Hin. apply map_set_in in Hin. destruct Hin as [[= -> ->] | Hin].
    + exact Hid.
    + now apply Hk.
Qed.

Lemma extends_new_node (ctx : Ctx.t) (id : string) (node : Node.t) :
  JsMap.get id (Ctx.nodes ctx) = None -> Node.id node = id ->
  extends ctx (Ctx.with_nodes (JsMap.set id node (Ctx.nodes ctx)) ctx).
Proof.
  intros Hnone Hid. split; [| split]; cbn.
  - intros id0 node0 H. exists node0. split; [| apply same_origin_refl].
    rewrite map_get_set_other; [exact H | congruence].
  - tauto.
  - intros K. now apply nodes_keyed_set.
Qed.

Lemma extends_relabel (ctx : Ctx.t) (id label : string) (node : Node.t) :
  JsMap.get id (Ctx.nodes ctx) = Some node ->
  extends ctx
    (Ctx.with_nodes (JsMap.set id (Node.with_label label node) (Ctx.nodes ctx)) ctx).
Proof.
  intros Hget.
  assert (Hkey : nodes_keyed (Ctx.nodes ctx) ->
                 nodes_keyed (JsMap.set id (Node.with_label label node) (Ctx.nodes ctx))).
  { intros K. apply nodes_keyed_set; [| exact K].
    cbn. destruct K as [_ K]. apply K. now apply map_get_in. }
  split; [| split]; cbn.
  - intros id0 node0 H. destruct (string_dec id0 id) as [-> | Hne].
    + rewrite map_get_set_same. eexists. split; [reflexivity |].
      assert (node0 = node) by congruence. subst. repeat split.
    + rewrite map_get_set_other by assumption.
      exists node0. split; [exact H | apply same_origin_refl].
  - tauto.
  - exact Hkey.
Qed.

Lemma ensureNode_extends (id : string) (ctx : Ctx.t) (extra : Extra.t) :
  extends ctx (snd (FlowMDParser.ensureNode id ctx extra)).
Proof.
  unfold FlowMDParser.ensureNode.
  destruct (JsMap.get id (Ctx.nodes ctx)) as [node |] eqn:G.
  - destruct (Extra.shape extra) as [[| c s] |]; try apply extends_refl.
    destruct (2 <? String.length (String c s)); [| apply extends_refl].
    cbn [snd]. now apply extends_relabel.
  - cbn [snd]. now apply extends_new_node.
Qed.

Lemma parseEdge_extends (line : string) (ctx : Ctx.t) :
  extends ctx (snd (FlowMDParser.parseEdge line ctx)).
Proof.
  unfold FlowMDParser.parseEdge.
  destruct (Regex.exec EDGE_PATTERN line) as [m |]; [| apply extends_refl].
  destruct (Regex.group "lhs" m) as [lhs |]; [| apply extends_refl].
  destruct (Regex.group "rhs" m) as [rhs |]; [| apply extends_refl].
  pose proof (ensureNode_extends lhs ctx (Extra.mk (Some (Ctx.line ctx)) None)) as H1.
  destruct (FlowMDParser.ensureNode lhs ctx _) as [source ctx1]. cbn [snd] in H1.
  pose proof (ensureNode_extends rhs ctx1 (Extra.mk (Some (Ctx.line ctx1)) None)) as H2.
  destruct (FlowMDParser.ensureNode rhs ctx1 _) as [target ctx2]. cbn [snd] in *.
  eapply extends_trans; [exact H1 |]. eapply extends_trans; [exact H2 |].
  now apply extends_same.
Qed.

Lemma member_add (id x g : string) (groups : JsMap.t JsSet.t) (members : JsSet.t) :
  JsMap.get g groups = Some members ->
  forall id0 g0, member id0 g0 groups ->
                 member id0 g0 (JsMap.set g (JsSet.add x members) groups).
Proof.
  intros Hget id0 g0 (members0 & H0 & Hin). unfold member.
  destruct (string_dec g0 g) as [-> | Hne].
  - rewrite map_get_set_same. eexists. split; [reflexivity |].
    apply set_add_in. left. congruence.
  - rewrite map_get_set_other by assumption. eauto.
Qed.

Lemma parseNode_extends (line : string) (ctx : Ctx.t) :
  extends ctx (snd (FlowMDParser.parseNode line ctx)).
Proof.
  unfold FlowMDParser.parseNode.
  destruct (Regex.exec NODE_PATTERN line) as [m |]; [| apply extends_refl].
  destruct (Regex.group "id" m) as [id |]; [| apply extends_refl].
  pose proof (ensureNode_extends id ctx
                (Extra.mk (Some (Ctx.line ctx)) (Regex.group "shape" m))) as H1.
  destruct (FlowMDParser.ensureNode id ctx _) as [node ctx1]. cbn [snd] in H1.
  destruct (Ctx.currentGroup ctx1) as [[| c s] |]; try exact H1.
  destruct (JsMap.get (String c s) (Ctx.groups ctx1)) as [members |] eqn:G;
    [| exact H1].
  cbn [snd]. eapply extends_trans; [exact H1 |].
  split; [| split]; cbn; try tauto.
  - intros id0 node0 H. exists node0. split; [exact H | apply same_origin_refl].
  - intros id0 g0. now apply member_add.
Qed.

Lemma parseSubgraph_extends (line : string) (ctx : Ctx.t) :
  extends ctx (snd (FlowMDParser.parseSubgraph line ctx)).
Proof.
  unfold FlowMDParser.parseSubgraph.
  destruct (nth_error (Js.split_ws line 2) 1) as [raw |];
    [| now apply extends_same].
  destruct (Js.trim raw) as [| c s]; [now apply extends_same |].
  destruct (JsMap.has (String c s) (Ctx.groups ctx)) eqn:E; cbn [negb snd];
    [apply extends_refl |].
  split; [| split]; cbn; try tauto.
  - intros id0 node0 H. exists node0. split; [exact H | apply same_origin_refl].
  - intros id0 g0 (members & Hget & Hin). exists members. split; [| exact Hin].
    rewrite map_get_set_other; [exact Hget |].
    intros ->. unfold JsMap.has in E. now rewrite Hget in E.
Qed.

Lemma parseHeader_extends (line : string) (ctx ctx' : Ctx.t) :
  FlowMDParser.parseHeader line ctx = Ok ctx' -> extends ctx ctx'.
Proof.
  unfold FlowMDParser.parseHeader.
  destruct (Regex.exec ORIENTATION_PATTERN line); [| discriminate].
  intros [= <-]. now apply extends_same.
Qed.

Lemma parseLine_extends (index : nat) (rawLine : string) (ctx ctx' : Ctx.t) :
  FlowMDParser.parseLine index rawLine ctx = Ok ctx' -> extends ctx ctx'.
Proof.
  unfold FlowMDParser.parseLine.
  set (ctx0 := Ctx.with_line (index + 1) ctx).
  assert (H0 : extends ctx ctx0) by now apply extends_same.
  destruct (negb (Js.truthy (Js.trim rawLine)) || Js.startsWith (Js.trim rawLine) "%%").
  { intros [= <-]. exact H0. }
  destruct (negb (Ctx.orientationParsed ctx0)).
  { intros H. eapply extends_trans; [exact H0 |]. eapply parseHeader_extends, H. }
  destruct (Regex.test SUBGRAPH_PATTERN (Js.trim rawLine)).
  { pose proof (parseSubgraph_extends (Js.trim rawLine) ctx0) as H1.
    destruct (FlowMDParser.parseSubgraph (Js.trim rawLine) ctx0) as [g ctx1].
    intros [= <-]. eapply extends_trans; [exact H0 |].
    eapply extends_trans; [exact H1 |]. now apply extends_same. }
  destruct (Regex.test END_PATTERN (Js.trim rawLine)).
  { intros [= <-]. eapply extends_trans; [exact H0 |]. now apply extends_same. }
  pose proof (parseEdge_extends (Js.trim rawLine) ctx0) as H1.
  destruct (FlowMDParser.parseEdge (Js.trim rawLine) ctx0) as [isEdge ctx1].
  cbn [snd] in H1.
  destruct isEdge.
  { intros [= <-]. eapply extends_trans; [exact H0 | exact H1]. }
  pose proof (parseNode_extends (Js.trim rawLine) ctx1) as H2.
  destruct (FlowMDParser.parseNode (Js.trim rawLine) ctx1) as [isNode ctx2].
  cbn [snd] in H2.
  destruct isNode; intros [= <-].
  - eapply extends_trans; [exact H0 |]. eapply extends_trans; [exact H1 | exact H2].
  - eapply extends_trans; [exact H0 |]. eapply extends_trans; [exact H1 |].
    eapply extends_trans; [exact H2 |]. now apply extends_same.
Qed.

Lemma scan_extends (lines : list string) :
  forall index ctx ctx',
    FlowMDParser.scan index lines ctx = Ok ctx' -> extends ctx ctx'.
Proof.
  induction lines as [| rawLine lines IH]; intros index ctx ctx'; simpl.
  - intros [= <-]. apply extends_refl.
  - destruct (FlowMDParser.parseLine index rawLine ctx) as [ctx1 | e] eqn:E;
      [| discriminate].
    intros H. eapply extends_trans; [eapply parseLine_extends, E | eapply IH, H].
Qed.

Lemma nodes_keyed_ids (nodes : JsMap.t Node.t) :
  nodes_keyed nodes -> map Node.id (JsMap.values nodes) = JsMap.keys nodes.
Proof.
  intros [_ K]. unfold JsMap.values, JsMap.keys. rewrite map_map.
  apply map_ext_in. intros [k node] Hin. cbn. now apply K.
Qed.

(** C6: whenever [parse] returns a document, no two records of its [nodes]
    have the same id. *)
Theorem parse_node_ids_unique (self : FlowMDParser.t) (text : JsValue) (g : Graph.t) :
  FlowMDParser.parse self text = Ok g ->
  NoDup (map Node.id (Graph.nodes g)).
Proof.
  unfold FlowMDParser.parse. destruct text; try discriminate.
  destruct (FlowMDParser.scan 0 (Js.split_lines s) Ctx.initial) as [ctx | e] eqn:E;
    [| discriminate].
  unfold FlowMDParser.finish.
  destruct (Meta.overflow _); [discriminate |].
  intros [= <-]. cbn [Graph.nodes].
  apply scan_extends in E. destruct E as (_ & _ & K).
  assert (K0 : nodes_keyed (Ctx.nodes Ctx.initial)).
  { split; [constructor | intros k node []]. }
  specialize (K K0). rewrite nodes_keyed_ids by assumption. apply K.
Qed.

Lemma parse_node_ids_unique_witness :
  exists g,
    FlowMDParser.parse FlowMDParser.default
      (JsString (text_of ["graph LR"; "A[one]"; "A-->B"; "B-->A"; "A(two)"])) = Ok g
    /\ map Node.id (Graph.nodes g) = ["A"; "B"]
    /\ NoDup (map Node.id (Graph.nodes g)).
Proof.
  eexists. split; [vm_compute; reflexivity |]. split; [reflexivity |].
  apply (parse_node_ids_unique FlowMDParser.default
           (JsString (text_of ["graph LR"; "A[one]"; "A-->B"; "B-->A"; "A(two)"]))).
  vm_compute. reflexivity.
Defined.

(** ** Later sightings of a node *)

Lemma substring_zero (n : nat) (s : string) : substring n 0 s = EmptyString.
Proof.
  revert s. induction n as [| n IH]; intros [| c s]; simpl; auto.
Qed.

Lemma slice_short (s : string) : String.length s <= 2 -> Js.slice_1_m1 s = EmptyString.
Proof.
  intros H. unfold Js.slice_1_m1.
  replace (String.length s - 2) with 0 by lia. apply substring_zero.
Qed.

(** C7 as stated fails: a decorator whose inner text is blank has an inner
    text of length 1, and the label stays what it was instead of becoming
    the trimmed inner text, which is empty. *)
Lemma relabel_on_nonempty_inner_fails :
  ~ relabel_on_nonempty_inner
  /\ (exists g,
         FlowMDParser.parse FlowMDParser.default
           (JsString (text_of ["graph TB"; "A[foo]"; "A[ ]"])) = Ok g
         /\ map Node.label (Graph.nodes g) = ["foo"]
         /\ String.length (Js.slice_1_m1 "[ ]") = 1
         /\ Js.trim (Js.slice_1_m1 "[ ]") = "").
Proof.
  split.
  - intros H.
    specialize (H "A"
                  (Ctx.with_nodes [("A", Node.mk "A" "foo" "[" 2 None)] Ctx.initial)
                  (Node.mk "A" "foo" "[" 2 None) "[ ]" (Some 3) eq_refl).
    cbn in H. specialize (H (Nat.lt_0_succ 0)). discriminate H.
  - eexists. split; [vm_compute; reflexivity |]. repeat split.
Qed.

(** ** Group membership *)




(** ** The adjacency *)

Section AdjacencyFacts.
Implicit Types (map : GraphModel.Adjacency) (edge : Edge.t).

Let distinct_values map : Prop :=
  forall k s, In (k, s) map -> NoDup s.

Lemma distinct_values_set map k s :
  distinct_values map -> NoDup s -> distinct_values (JsMap.set k s map).
Proof.
  intros Hm Hs k0 s0 Hin. apply map_set_in in Hin.
  destruct Hin as [[= -> ->] | Hin]; [exact Hs | eapply Hm, Hin].
Qed.

Lemma addEdge_keys map edge x :
  In x (JsMap.keys (GraphModel.addEdge map edge))
  <-> In x (JsMap.keys map) \/ x = Edge.source edge \/ x = Edge.target edge.
Proof.
  unfold GraphModel.addEdge.
  set (map1 := if negb (JsMap.has (Edge.source edge) map)
               then JsMap.set (Edge.source edge) [] map else map).
  set (map2 := if negb (JsMap.has (Edge.target edge) map1)
               then JsMap.set (Edge.target edge) [] map1 else map1).
  assert (H1 : forall y, In y (JsMap.keys map1)
                         <-> In y (JsMap.keys map) \/ y = Edge.source edge).
  { intros y. subst map1.
    destruct (JsMap.has (Edge.source edge) map) eqn:E; cbn [negb].
    - apply map_has_true in E. split; [now left | intros [H | ->]; assumption].
    - apply map_keys_set_in. }
  assert (H2 : forall y, In y (JsMap.keys map2)
                         <-> In y (JsMap.keys map1) \/ y = Edge.target edge).
  { intros y. subst map2.
    destruct (JsMap.has (Edge.target edge) map1) eqn:E; cbn [negb].
    - apply map_has_true in E. split; [now left | intros [H | ->]; assumption].
    - apply map_keys_set_in. }
  assert (Hs : In (Edge.source edge) (JsMap.keys map2)).
  { apply H2. left. apply H1. now right. }
  destruct (JsMap.get (Edge.source edge) map2) as [successors |] eqn:G.
  - rewrite map_keys_set_in, H2, H1. tauto.
  - rewrite H2, H1. tauto.
Qed.

Lemma addEdge_wf map edge :
  NoDup (JsMap.keys map) /\ distinct_values map ->
  NoDup (JsMap.keys (GraphModel.addEdge map edge))
  /\ distinct_values (GraphModel.addEdge map edge).
Proof.
  intros [Hk Hv]. unfold GraphModel.addEdge.
  set (map1 := if negb (JsMap.has (Edge.source edge) map)
               then JsMap.set (Edge.source edge) [] map else map).
  set (map2 := if negb (JsMap.has (Edge.target edge) map1)
               then JsMap.set (Edge.target edge) [] map1 else map1).
  assert (W1 : NoDup (JsMap.keys map1) /\ distinct_values map1).
  { subst map1. destruct (negb (JsMap.has (Edge.source edge) map));
      [| split; assumption].
    split; [now apply map_keys_set_nodup |].
    apply distinct_values_set; [assumption | constructor]. }
  destruct W1 as [Hk1 Hv1].
  assert (W2 : NoDup (JsMap.keys map2) /\ distinct_values map2).
  { subst map2. destruct (negb (JsMap.has (Edge.target edge) map1));
      [| split; assumption].
    split; [now apply map_keys_set_nodup |].
    apply distinct_values_set; [assumption | constructor]. }
  destruct W2 as [Hk2 Hv2].
  destruct (JsMap.get (Edge.source edge) map2) as [successors |] eqn:G;
    [| split; assumption].
  split; [now apply map_keys_set_nodup |].
  apply distinct_values_set; [assumption |].
  apply set_add_nodup. eapply Hv2, map_get_in, G.
Qed.

Lemma addEdges_wf edges : forall map,
  NoDup (JsMap.keys map) /\ distinct_values map ->
  NoDup (JsMap.keys (fold_left GraphModel.addEdge edges map))
  /\ distinct_values (fold_left GraphModel.addEdge edges map).
Proof.
  induction edges as [| edge edges IH]; intros map W; simpl; [exact W |].
  apply IH, addEdge_wf, W.
Qed.

Lemma addEdges_keys edges : forall map x,
  In x (JsMap.keys (fold_left GraphModel.addEdge edges map))
  <-> In x (JsMap.keys map)
      \/ exists edge, In edge edges
                      /\ (x = Edge.source edge \/ x = Edge.target edge).
Proof.
  induction edges as [| edge edges IH]; intros map x; simpl.
  - split; [now left | intros [H | (e & [] & _)]; exact H].
  - rewrite IH, addEdge_keys. split.
    + intros [[H | H] | (e & Hin & H)].
      * now left.
      * right. exists edge. split; [now left | exact H].
      * right. exists e. split; [now right | exact H].
    + intros [H | (e & [<- | Hin] & H)].
      * left. now left.
      * left. now right.
      * right. exists e. now split.
Qed.

Lemma seed_wf nodes : forall map,
  NoDup (JsMap.keys map) /\ distinct_values map ->
  NoDup (JsMap.keys (fold_left (fun map node => JsMap.set (Node.id node) [] map)
                               nodes map))
  /\ distinct_values (fold_left (fun map node => JsMap.set (Node.id node) [] map)
                                nodes map).
Proof.
  induction nodes as [| node nodes IH]; intros map [Hk Hv]; simpl; [split; assumption |].
  apply IH. split; [now apply map_keys_set_nodup |].
  apply distinct_values_set; [assumption | constructor].
Qed.

Lemma seed_keys nodes : forall (map : GraphModel.Adjacency) x,
  In x (JsMap.keys (fold_left (fun map node => JsMap.set (Node.id node) [] map)
                              nodes map))
  <-> In x (JsMap.keys map) \/ In x (List.map Node.id nodes).
Proof.
  induction nodes as [| node nodes IH]; intros map x; simpl; [tauto |].
  rewrite IH, map_keys_set_in. intuition.
Qed.

Lemma buildAdjacency_wf nodes edges :
  NoDup (JsMap.keys (GraphModel.buildAdjacency nodes edges))
  /\ distinct_values (GraphModel.buildAdjacency nodes edges).
Proof.
  unfold GraphModel.buildAdjacency. apply addEdges_wf, seed_wf.
  split; [constructor | intros k s []].
Qed.

Lemma buildAdjacency_keys nodes edges x :
  In x (JsMap.keys (GraphModel.buildAdjacency nodes edges))
  <-> In x (List.map Node.id nodes)
      \/ exists edge, In edge edges
                      /\ (x = Edge.source edge \/ x = Edge.target edge).
Proof.
  unfold GraphModel.buildAdjacency. rewrite addEdges_keys, seed_keys.
  simpl. tauto.
Qed.
End AdjacencyFacts.

Lemma new_adjacency (g g' : Graph.t) (m : GraphModel.t) :
  GraphModel.new g = Some (m, g') ->
  GraphModel.adjacency m = GraphModel.buildAdjacency (Graph.nodes g) (Graph.edges g).
Proof.
  unfold GraphModel.new. destruct (GraphModel.detectCycles _); [| discriminate].
  intros [= <- _]. reflexivity.
Qed.

(** C5: in a graph model built from a document, the source and the target
    of every edge are keys of the adjacency, with or without a record in
    [nodes], as is the id of every record; the keys are distinct and every
    value lists distinct successors, which [successors] returns in their
    order; for an id that is no key, [successors] returns the empty
    sequence. *)
Theorem adjacency_covers_edges (g g' : Graph.t) (m : GraphModel.t) :
  GraphModel.new g = Some (m, g') ->
  (forall edge, In edge (Graph.edges g) ->
                JsMap.has (Edge.source edge) (GraphModel.adjacency m) = true
                /\ JsMap.has (Edge.target edge) (GraphModel.adjacency m) = true)
  /\ (forall node, In node (Graph.nodes g) ->
                   JsMap.has (Node.id node) (GraphModel.adjacency m) = true)
  /\ NoDup (JsMap.keys (GraphModel.adjacency m))
  /\ (forall k s, JsMap.get k (GraphModel.adjacency m) = Some s ->
                  NoDup s /\ GraphModel.successors m k = s)
  /\ (forall id, JsMap.has id (GraphModel.adjacency m) = false ->
                 GraphModel.successors m id = []).
Proof.
  intros Hnew. pose proof (new_adjacency g g' m Hnew) as Hadj.
  destruct (buildAdjacency_wf (Graph.nodes g) (Graph.edges g)) as [Hk Hv].
  rewrite <- Hadj in Hk, Hv.
  split; [| split; [| split; [| split]]].
  - intros edge Hin. rewrite !map_has_true, Hadj, !buildAdjacency_keys.
    split; right; exists edge; tauto.
  - intros node Hin. rewrite map_has_true, Hadj, buildAdjacency_keys.
    left. now apply in_map.
  - exact Hk.
  - intros k s Hget. split.
    + eapply Hv, map_get_in, Hget.
    + unfold GraphModel.successors. now rewrite Hget.
  - intros id Hhas. unfold GraphModel.successors, JsMap.has in *.
    destruct (JsMap.get id (GraphModel.adjacency m)); [discriminate | reflexivity].
Qed.

(** ** Cycle detection returns *)

Section DetectCycles.
Variable adjacency : GraphModel.Adjacency.

Lemma unseen_incl (keys : list string) (visited visited' : JsSet.t) :
  incl visited visited' ->
  List.length (filter (fun k => negb (JsSet.has k visited')) keys)
  <= List.length (filter (fun k => negb (JsSet.has k visited)) keys).
Proof.
  intros Hincl. induction keys as [| k keys IH]; simpl; [lia |].
  destruct (JsSet.has k visited) eqn:E.
  - apply set_has_true in E. apply Hincl in E. apply set_has_true in E.
    rewrite E. simpl. exact IH.
  - destruct (JsSet.has k visited'); simpl; lia.
Qed.

Lemma unseen_add (keys : list string) (visited : JsSet.t) (n : string) :
  In n keys -> ~ In n visited ->
  List.length (filter (fun k => negb (JsSet.has k (JsSet.add n visited))) keys)
  < List.length (filter (fun k => negb (JsSet.has k visited)) keys).
Proof.
  intros Hin Hnew. induction keys as [| k keys IH]; simpl; [destruct Hin |].
  assert (Hle := unseen_incl keys visited (JsSet.add n visited)
                   (fun x H => proj2 (set_add_in n x visited) (or_introl H))).
  rewrite set_has_add. destruct (string_dec k n) as [-> | Hne].
  - rewrite String.eqb_refl. apply set_has_false in Hnew. rewrite Hnew.
    simpl. lia.
  - apply String.eqb_neq in Hne. rewrite Hne. simpl.
    destruct Hin as [-> | Hin]; [now rewrite String.eqb_refl in Hne |].
    specialize (IH Hin). destruct (JsSet.has k visited); simpl; lia.
Qed.

Lemma unvisited_incl (visited visited' : JsSet.t) :
  incl visited visited' ->
  unvisited adjacency visited' <= unvisited adjacency visited.
Proof. apply unseen_incl. Qed.

Lemma unvisited_add (visited : JsSet.t) (n : string) :
  In n (JsMap.keys adjacency) -> ~ In n visited ->
  unvisited adjacency (JsSet.add n visited) < unvisited adjacency visited.
Proof. apply unseen_add. Qed.

Lemma recordCycle_visited (s : string) (st : GraphModel.DfsState) :
  GraphModel.visited (GraphModel.recordCycle s st) = GraphModel.visited st.
Proof.
  unfold GraphModel.recordCycle.
  destruct (JsSet.has s (GraphModel.stack st)); [| reflexivity].
  destruct (GraphModel.indexOf s (GraphModel.path st)); [| reflexivity].
  destruct (negb _); reflexivity.
Qed.

(** The loop over the successors returns when the recursive call does. *)
Lemma forEachSuccessor_returns (fuel : nat)
      (call : string -> GraphModel.DfsState -> option GraphModel.DfsState) :
  (forall n st,
      unvisited adjacency (GraphModel.visited st) < fuel ->
      ~ In n (GraphModel.visited st) ->
      exists st', call n st = Some st'
                  /\ incl (GraphModel.visited st) (GraphModel.visited st')) ->
  forall successors st,
    unvisited adjacency (GraphModel.visited st) < fuel ->
    exists st', GraphModel.forEachSuccessor call successors st = Some st'
                /\ incl (GraphModel.visited st) (GraphModel.visited st').
Proof.
  intros Hcall. induction successors as [| s successors IH]; intros st Hfuel.
  - exists st. split; [reflexivity | apply incl_refl].
  - simpl. destruct (JsSet.has s (GraphModel.visited st)) eqn:E; cbn [negb].
    + destruct (IH (GraphModel.recordCycle s st)) as (st' & H' & Hincl);
        [now rewrite recordCycle_visited |].
      exists st'. split; [exact H' | now rewrite recordCycle_visited in Hincl].
    + apply set_has_false in E.
      destruct (Hcall s st Hfuel E) as (st1 & -> & Hincl1).
      destruct (IH st1) as (st' & H' & Hincl).
      { eapply Nat.le_lt_trans; [apply unvisited_incl, Hincl1 | exact Hfuel]. }
      exists st'. split; [exact H' |]. eapply incl_tran; eassumption.
Qed.

(** A call of [dfs] on an unvisited node returns when the fuel is above
    the number of unvisited keys. *)
Lemma dfs_returns (fuel : nat) : forall n st,
  unvisited adjacency (GraphModel.visited st) < fuel ->
  ~ In n (GraphModel.visited st) ->
  exists st', GraphModel.dfs fuel adjacency n st = Some st'
              /\ incl (GraphModel.visited st) (GraphModel.visited st').
Proof.
  induction fuel as [| fuel IH]; intros n st Hfuel Hnew; [lia |].
  cbn [GraphModel.dfs].
  set (st1 := GraphModel.mk_dfs (JsSet.add n (GraphModel.visited st))
                                (JsSet.add n (GraphModel.stack st))
                                (GraphModel.path st ++ [n])%list
                                (GraphModel.seen st) (GraphModel.found st)).
  assert (Hincl1 : incl (GraphModel.visited st) (GraphModel.visited st1)).
  { intros x Hx. apply set_add_in. now left. }
  destruct (JsMap.get n adjacency) as [[| s successors] |] eqn:G.
  - eexists. split; [reflexivity | exact Hincl1].
  - assert (Hkey : In n (JsMap.keys adjacency)).
    { apply map_get_in in G. apply (in_map fst) in G. exact G. }
    assert (Hfuel1 : unvisited adjacency (GraphModel.visited st1) < fuel).
    { pose proof (unvisited_add (GraphModel.visited st) n Hkey Hnew) as Hlt.
      cbn [st1 GraphModel.visited]. lia. }
    destruct (forEachSuccessor_returns fuel (GraphModel.dfs fuel adjacency) IH
                (s :: successors) st1 Hfuel1)
      as (st2 & -> & Hincl2).
    eexists. split; [reflexivity |]. cbn [GraphModel.visited].
    eapply incl_tran; eassumption.
  - eexists. split; [reflexivity | exact Hincl1].
Qed.

Lemma forEachKey_returns (fuel : nat) (keys : list string) : forall st,
  unvisited adjacency (GraphModel.visited st) < fuel ->
  exists st', GraphModel.forEachKey fuel adjacency keys st = Some st'.
Proof.
  induction keys as [| k keys IH]; intros st Hfuel; simpl.
  - now exists st.
  - destruct (JsSet.has k (GraphModel.visited st)) eqn:E; cbn [negb].
    + now apply IH.
    + apply set_has_false in E.
      destruct (dfs_returns fuel k st Hfuel E) as (st1 & -> & Hincl).
      apply IH. eapply Nat.le_lt_trans; [apply unvisited_incl, Hincl | exact Hfuel].
Qed.

Lemma detectCycles_returns :
  exists cycles, GraphModel.detectCycles adjacency = Some cycles.
Proof.
  unfold GraphModel.detectCycles.
  destruct (forEachKey_returns (S (List.length adjacency))
              (JsMap.keys adjacency) (GraphModel.mk_dfs [] [] [] [] []))
    as (st & ->).
  - unfold unvisited. cbn [GraphModel.visited].
    assert (H := filter_length_le (fun k => negb (JsSet.has k []))
                   (JsMap.keys adjacency)).
    unfold JsMap.keys in *. rewrite length_map in H. lia.
  - now eexists.
Qed.
End DetectCycles.

Lemma adjacency_covers_edges_witness :
  exists m g',
    GraphModel.new edge_only_document = Some (m, g')
    /\ Graph.nodes edge_only_document = []
    /\ JsMap.keys (GraphModel.adjacency m) = ["X"; "Y"]
    /\ GraphModel.successors m "X" = ["Y"]
    /\ GraphModel.successors m "Z" = []
    /\ NoDup (JsMap.keys (GraphModel.adjacency m)).
Proof.
  destruct (GraphModel.new edge_only_document) as [[m g'] |] eqn:E;
    [| vm_compute in E; discriminate E].
  exists m, g'. split; [reflexivity |].
  destruct (adjacency_covers_edges edge_only_document g' m E)
    as (_ & _ & Hk & _ & Hz).
  vm_compute in E. injection E as <- <-.
  repeat split; try reflexivity. exact Hk.
Defined.

(** ** The constructor of the graph model *)

Lemma existsb_message (message : string) (warnings : list Warning.t) :
  existsb (fun warning => String.eqb (Warning.message warning) message) warnings = true
  <-> In message (map Warning.message warnings).
Proof.
  rewrite existsb_exists, in_map_iff. split.
  - intros (w & Hin & Heq). apply String.eqb_eq in Heq. now exists w.
  - intros (w & Heq & Hin). exists w. split; [exact Hin |].
    now apply String.eqb_eq.
Qed.

(** What the loop over the cycles leaves in [meta.warnings]. *)
Lemma addCycleWarnings (cycles : list (list string)) : forall warnings,
  exists added,
    fold_left GraphModel.addCycleWarning cycles warnings = (warnings ++ added)%list
    /\ (forall w, In w added ->
                  exists cycle, In cycle cycles /\ w = cycleWarning cycle
                                /\ ~ In (Warning.message w)
                                        (map Warning.message warnings))
    /\ NoDup (map Warning.message added)
    /\ (forall cycle, In cycle cycles ->
                      In (Warning.message (cycleWarning cycle))
                         (map Warning.message (warnings ++ added))).
Proof.
  induction cycles as [| c cycles IH]; intros warnings.
  - exists []. simpl. rewrite app_nil_r. repeat split; try tauto. constructor.
  - simpl. unfold GraphModel.addCycleWarning at 2.
    fold (cycleWarning c).
    change ("Cycle detected: " ++ Js.join " -> " c)
      with (Warning.message (cycleWarning c)).
    destruct (existsb _ warnings) eqn:E; cbn [negb].
    + apply existsb_message in E.
      destruct (IH warnings) as (added & Hfold & Hnew & Hnd & Hall).
      exists added. repeat split; try assumption.
      * intros w Hin. destruct (Hnew w Hin) as (cycle & Hc & Hw & Hfresh).
        exists cycle. repeat split; [now right | assumption | assumption].
      * intros cycle [<- | Hin]; [| now apply Hall].
        rewrite map_app, in_app_iff. now left.
    + assert (Hfresh : ~ In (Warning.message (cycleWarning c))
                           (map Warning.message warnings)).
      { intros H. apply existsb_message in H. congruence. }
      destruct (IH (warnings ++ [cycleWarning c])%list)
        as (added & Hfold & Hnew & Hnd & Hall).
      exists (cycleWarning c :: added). repeat split.
      * rewrite Hfold, <- app_assoc. reflexivity.
      * intros w [<- | Hin].
        -- exists c. repeat split; [now left | exact Hfresh].
        -- destruct (Hnew w Hin) as (cycle & Hc & Hw & Hf).
           exists cycle. repeat split; [now right | assumption |].
           intros H. apply Hf. rewrite map_app, in_app_iff. now left.
      * simpl. constructor; [| exact Hnd].
        intros H. apply in_map_iff in H. destruct H as (w & Heq & Hin).
        destruct (Hnew w Hin) as (_ & _ & _ & Hf). apply Hf.
        rewrite Heq, map_app, in_app_iff. right. now left.
      * intros cycle [<- | Hin].
        -- rewrite map_app, in_app_iff. right. now left.
        -- specialize (Hall cycle Hin). rewrite <- app_assoc in Hall. exact Hall.
Qed.

(** C9: the constructor of the graph model returns, and leaves the [nodes],
    the [edges] and every field of [meta] but [warnings] as they were; to
    [warnings] it appends: what is appended are warnings of detected
    cycles, none with the message of a warning already there, no two with
    the same message, and every detected cycle has its message among the
    warnings afterwards. [toJSON] is the document so changed, with the
    [nodes] and [edges] of the input. *)
Theorem construction_appends_cycle_warnings (g : Graph.t) :
  exists m g',
    GraphModel.new g = Some (m, g')
    /\ Graph.nodes g' = Graph.nodes g
    /\ Graph.edges g' = Graph.edges g
    /\ Meta.with_warnings (Meta.warnings (Graph.meta g)) (Graph.meta g')
       = Graph.meta g
    /\ (exists added,
           Meta.warnings (Graph.meta g')
           = (Meta.warnings (Graph.meta g) ++ added)%list
           /\ (forall w, In w added ->
                  exists cycle,
                    In cycle (GraphModel.cycles m) /\ w = cycleWarning cycle
                    /\ ~ In (Warning.message w)
                            (map Warning.message (Meta.warnings (Graph.meta g))))
           /\ NoDup (map Warning.message added)
           /\ (forall cycle, In cycle (GraphModel.cycles m) ->
                  In (Warning.message (cycleWarning cycle))
                     (map Warning.message (Meta.warnings (Graph.meta g')))))
    /\ GraphModel.toJSON m = g'
    /\ Graph.nodes (GraphModel.toJSON m) = Graph.nodes g
    /\ Graph.edges (GraphModel.toJSON m) = Graph.edges g.
Proof.
  unfold GraphModel.new.
  destruct (detectCycles_returns
              (GraphModel.buildAdjacency (Graph.nodes g) (Graph.edges g)))
    as (cycles & ->).
  eexists. eexists. split; [reflexivity |].
  cbn [Graph.nodes Graph.edges Graph.meta GraphModel.cycles GraphModel.toJSON
       GraphModel.nodes GraphModel.edges GraphModel.meta].
  split; [reflexivity |]. split; [reflexivity |].
  split; [destruct cycles; destruct (Graph.meta g); reflexivity |].
  split; [| repeat split; reflexivity].
  destruct cycles as [| c cycles].
  - exists []. rewrite app_nil_r. split; [reflexivity |].
    split; [intros w [] |]. split; [constructor | intros cycle []].
  - destruct (addCycleWarnings (c :: cycles) (Meta.warnings (Graph.meta g)))
      as (added & Hfold & Hnew & Hnd & Hall).
    exists added. cbn [Meta.warnings Meta.with_warnings].
    rewrite Hfold. repeat split; assumption.
Qed.

(** C4: the graph model of the document parsed from the text of the cycle
    A, B, C detects the one cycle A, B, C, A and appends the one warning
    "Cycle detected: A -> B -> C -> A" to [meta.warnings], which the parser
    left empty; a model built from any document parsed from the same text
    again has exactly that warning; and so has a model built once more from
    the document the first one wrote to. *)
Theorem cycle_example :
  exists g m g',
    FlowMDParser.parse FlowMDParser.default (JsString cycle_text) = Ok g
    /\ Meta.warnings (Graph.meta g) = []
    /\ GraphModel.new g = Some (m, g')
    /\ GraphModel.cycles m = [["A"; "B"; "C"; "A"]]
    /\ Meta.warnings (GraphModel.meta m)
       = [Warning.mk "Cycle detected: A -> B -> C -> A" None
                     (Some ["A"; "B"; "C"; "A"])]
    /\ Meta.warnings (Graph.meta g') = Meta.warnings (GraphModel.meta m)
    /\ (forall g2,
           FlowMDParser.parse FlowMDParser.default (JsString cycle_text) = Ok g2 ->
           exists m2 g2',
             GraphModel.new g2 = Some (m2, g2')
             /\ GraphModel.cycles m2 = [["A"; "B"; "C"; "A"]]
             /\ Meta.warnings (GraphModel.meta m2)
                = [Warning.mk "Cycle detected: A -> B -> C -> A" None
                              (Some ["A"; "B"; "C"; "A"])])
    /\ (exists m3 g3',
           GraphModel.new g' = Some (m3, g3')
           /\ GraphModel.cycles m3 = [["A"; "B"; "C"; "A"]]
           /\ Meta.warnings (GraphModel.meta m3)
              = [Warning.mk "Cycle detected: A -> B -> C -> A" None
                            (Some ["A"; "B"; "C"; "A"])]).
Proof.
  assert (P : exists g,
             FlowMDParser.parse FlowMDParser.default (JsString cycle_text) = Ok g
             /\ Meta.warnings (Graph.meta g) = []
             /\ exists m g',
                 GraphModel.new g = Some (m, g')
                 /\ GraphModel.cycles m = [["A"; "B"; "C"; "A"]]
                 /\ Meta.warnings (GraphModel.meta m)
                    = [Warning.mk "Cycle detected: A -> B -> C -> A" None
                                  (Some ["A"; "B"; "C"; "A"])]
                 /\ Meta.warnings (Graph.meta g') = Meta.warnings (GraphModel.meta m)
                 /\ exists m3 g3',
                     GraphModel.new g' = Some (m3, g3')
                     /\ GraphModel.cycles m3 = [["A"; "B"; "C"; "A"]]
                     /\ Meta.warnings (GraphModel.meta m3)
                        = [Warning.mk "Cycle detected: A -> B -> C -> A" None
                                      (Some ["A"; "B"; "C"; "A"])]).
  { eexists. split; [vm_compute; reflexivity |]. split; [reflexivity |].
    eexists. eexists. split; [vm_compute; reflexivity |].
    split; [reflexivity |]. split; [reflexivity |]. split; [reflexivity |].
    eexists. eexists. split; [vm_compute; reflexivity |].
    split; reflexivity. }
  destruct P as (g & Hparse & Hw & m & g' & Hnew & Hc & Hm & Hg' & Hagain).
  exists g, m, g'. repeat (split; [assumption |]). split; [| exact Hagain].
  intros g2 H2. rewrite Hparse in H2. injection H2 as <-.
  exists m, g'. repeat (split; [assumption |]). exact Hm.
Qed.

(** ** Downstream highlighting *)

Section Downstream.
Variable model : GraphModel.t.

Let adjacency := GraphModel.adjacency model.

Lemma pending_add_le (adj : GraphModel.Adjacency) (visited : JsSet.t) (n : string) :
  pending adj (JsSet.add n visited) <= pending adj visited.
Proof.
  induction adj as [| [k successors] adj IH]; simpl; [lia |].
  rewrite set_has_add.
  destruct (String.eqb k n); destruct (JsSet.has k visited); simpl; lia.
Qed.

(** Visiting a node takes what its entry counted off the measure. *)
Lemma pending_add (adj : GraphModel.Adjacency) (visited : JsSet.t) (n : string) :
  ~ In n visited ->
  pending adj (JsSet.add n visited)
  + List.length (match JsMap.get n adj with Some s => s | None => [] end)
  <= pending adj visited.
Proof.
  intros Hnew. induction adj as [| [k successors] adj IH]; simpl; [lia |].
  rewrite set_has_add. destruct (string_dec n k) as [<- | Hne].
  - rewrite String.eqb_refl. apply set_has_false in Hnew. rewrite Hnew.
    pose proof (pending_add_le adj visited n). simpl. lia.
  - assert (E1 : String.eqb n k = false) by now apply String.eqb_neq.
    assert (E2 : String.eqb k n = false) by (apply String.eqb_neq; congruence).
    rewrite E1, E2. simpl. lia.
Qed.

Lemma pending_nil (adj : GraphModel.Adjacency) :
  pending adj [] = fold_right (fun entry n => 1 + List.length (snd entry) + n) 0 adj.
Proof.
  induction adj as [| [k successors] adj IH]; simpl; [reflexivity |].
  now rewrite IH.
Qed.

(** What the loop over the successors of [n] does to the state. *)
Lemma visitSuccessors (n : string) (l : list string) :
  forall st,
    let st' := fold_left (HighlightEngine.visitSuccessor n) l st in
    HighlightEngine.visited st' = HighlightEngine.visited st
    /\ (forall x, In x (HighlightEngine.queue st')
                  <-> In x (HighlightEngine.queue st)
                      \/ (In x l /\ ~ In x (HighlightEngine.visited st)))
    /\ List.length (HighlightEngine.queue st')
       <= List.length (HighlightEngine.queue st) + List.length l
    /\ (forall e, In e (HighlightEngine.edgeIds st')
                  <-> In e (HighlightEngine.edgeIds st)
                      \/ exists s, In s l /\ e = edgeKey n s)
    /\ (NoDup (HighlightEngine.edgeIds st) -> NoDup (HighlightEngine.edgeIds st')).
Proof.
  induction l as [| s l IH]; intros st; cbn zeta.
  - simpl. repeat split; try tauto; try lia.
    intros [H | (s & [] & _)]; exact H.
  - simpl fold_left.
    specialize (IH (HighlightEngine.visitSuccessor n st s)). cbn zeta in IH.
    destruct IH as (Hv & Hq & Hlen & He & Hnd).
    set (st' := fold_left (HighlightEngine.visitSuccessor n) l
                          (HighlightEngine.visitSuccessor n st s)) in *.
    assert (Hv1 : HighlightEngine.visited (HighlightEngine.visitSuccessor n st s)
                  = HighlightEngine.visited st) by reflexivity.
    assert (Hq1 : forall x,
               In x (HighlightEngine.queue (HighlightEngine.visitSuccessor n st s))
               <-> In x (HighlightEngine.queue st)
                   \/ (x = s /\ ~ In x (HighlightEngine.visited st))).
    { intros x. unfold HighlightEngine.visitSuccessor. cbn [HighlightEngine.queue].
      destruct (JsSet.has s (HighlightEngine.visited st)) eqn:E; cbn [negb].
      - apply set_has_true in E. split; [now left | intros [H | [-> H]]; tauto].
      - apply set_has_false in E. rewrite in_app_iff. simpl.
        split; [intros [H | [<- | []]]; tauto | intros [H | [-> H]]; tauto]. }
    assert (Hlen1 : List.length
                      (HighlightEngine.queue (HighlightEngine.visitSuccessor n st s))
                    <= S (List.length (HighlightEngine.queue st))).
    { unfold HighlightEngine.visitSuccessor. cbn [HighlightEngine.queue].
      destruct (negb _); [rewrite length_app; simpl; lia | lia]. }
    assert (He1 : forall e,
               In e (HighlightEngine.edgeIds (HighlightEngine.visitSuccessor n st s))
               <-> In e (HighlightEngine.edgeIds st) \/ e = edgeKey n s).
    { intros e. unfold HighlightEngine.visitSuccessor.
      cbn [HighlightEngine.edgeIds]. apply set_add_in. }
    split; [congruence |]. split; [| split; [| split]].
    + intros x. rewrite Hq, Hq1, Hv1. simpl. split.
      * intros [[H | [-> H]] | [H1 H2]]; auto.
      * intros [H | [[<- | H1] H2]]; auto.
    + simpl. lia.
    + intros e. rewrite He, He1. simpl. split.
      * intros [[H | ->] | (s0 & H1 & ->)]; eauto.
      * intros [H | (s0 & [<- | H1] & ->)]; eauto.
    + intros H. apply Hnd. unfold HighlightEngine.visitSuccessor.
      cbn [HighlightEngine.edgeIds]. now apply set_add_nodup.
Qed.

(** The loop returns with an empty queue when the fuel is above the
    measure. *)
Lemma loop_returns (fuel : nat) : forall st,
  List.length (HighlightEngine.queue st)
  + pending adjacency (HighlightEngine.visited st) < fuel ->
  exists st', HighlightEngine.loop fuel model st = Some st'
              /\ HighlightEngine.queue st' = [].
Proof.
  induction fuel as [| fuel IH]; intros [visited edgeIds queue];
    cbn [HighlightEngine.queue HighlightEngine.visited]; intros Hfuel.
  - destruct queue as [| n queue]; [| simpl in Hfuel; lia].
    eexists. split; reflexivity.
  - destruct queue as [| n queue]; [eexists; split; reflexivity |].
    cbn [HighlightEngine.loop HighlightEngine.queue HighlightEngine.visited
         HighlightEngine.edgeIds].
    destruct (JsSet.has n visited) eqn:E.
    + apply IH. cbn. simpl in Hfuel. lia.
    + apply IH. apply set_has_false in E.
      destruct (visitSuccessors n (GraphModel.successors model n)
                  (HighlightEngine.mk_state (JsSet.add n visited) edgeIds queue))
        as (Hv & _ & Hlen & _).
      rewrite Hv. cbn [HighlightEngine.queue HighlightEngine.visited] in *.
      pose proof (pending_add adjacency visited n E
                  : pending adjacency (JsSet.add n visited)
                    + List.length (GraphModel.successors model n)
                    <= pending adjacency visited) as Hp.
      simpl in Hfuel. lia.
Qed.

Variable start : string.

Lemma inv_skip visited edgeIds n queue :
  In n visited ->
  bfs_inv model start (HighlightEngine.mk_state visited edgeIds (n :: queue)) ->
  bfs_inv model start (HighlightEngine.mk_state visited edgeIds queue).
Proof.
  intros Hn [Hr Hs Hc He Hnn Hne]. cbn in *. constructor; cbn; auto.
  - intros x [H | H]; apply Hr; auto.
  - destruct Hs as [H | [<- | H]]; auto.
  - intros x s Hx Hsucc. destruct (Hc x s Hx Hsucc) as [[H | [<- | H]] Hk]; auto.
Qed.

Lemma inv_visit visited edgeIds n queue :
  ~ In n visited ->
  bfs_inv model start (HighlightEngine.mk_state visited edgeIds (n :: queue)) ->
  bfs_inv model start
    (fold_left (HighlightEngine.visitSuccessor n) (GraphModel.successors model n)
               (HighlightEngine.mk_state (JsSet.add n visited) edgeIds queue)).
Proof.
  intros Hn [Hr Hs Hc He Hnn Hne]. cbn in *.
  destruct (visitSuccessors n (GraphModel.successors model n)
              (HighlightEngine.mk_state (JsSet.add n visited) edgeIds queue))
    as (Hv & Hq & _ & Hedges & Hnd).
  cbn [HighlightEngine.queue HighlightEngine.visited HighlightEngine.edgeIds] in *.
  assert (Hrn : reach model start n) by (apply Hr; right; now left).
  constructor.
  - intros x. rewrite Hv, Hq, set_add_in. intros [[H | ->] | [H | [H _]]]; auto.
    eapply reach_step; eassumption.
  - rewrite Hv, Hq, set_add_in. destruct Hs as [H | [<- | H]]; auto.
  - intros x s. rewrite Hv, Hq, Hedges, !set_add_in. intros [Hx | ->] Hsucc.
    + destruct (Hc x s Hx Hsucc) as [[H | [<- | H]] Hk]; auto.
    + split; [| right; eauto].
      destruct (in_dec string_dec s visited) as [Hin | Hout]; [auto |].
      destruct (string_dec s n) as [-> | Hne']; [auto |].
      right. right. split; [assumption | tauto].
  - intros e. rewrite Hv, Hedges. intros [H | (s & Hsucc & ->)].
    + destruct (He e H) as (x & s & Hx & Hsucc & ->).
      exists x, s. rewrite set_add_in. auto.
    + exists n, s. rewrite set_add_in. auto.
  - rewrite Hv. now apply set_add_nodup.
  - now apply Hnd.
Qed.

Lemma loop_inv (fuel : nat) : forall st st',
  HighlightEngine.loop fuel model st = Some st' ->
  bfs_inv model start st ->
  bfs_inv model start st' /\ HighlightEngine.queue st' = [].
Proof.
  induction fuel as [| fuel IH]; intros [visited edgeIds queue] st';
    destruct queue as [| n queue];
    cbn [HighlightEngine.loop HighlightEngine.queue HighlightEngine.visited
         HighlightEngine.edgeIds];
    try discriminate; try (intros [= <-] H; now split).
  destruct (JsSet.has n visited) eqn:E; intros Hloop Hinv.
  - apply set_has_true in E. eapply IH; [exact Hloop |].
    eapply inv_skip; eassumption.
  - apply set_has_false in E. eapply IH; [exact Hloop |].
    now apply inv_visit.
Qed.

(** With the queue empty, what is visited is closed under the
    successors: everything [start] reaches is visited. *)
Lemma inv_complete (st : HighlightEngine.State) :
  bfs_inv model start st -> HighlightEngine.queue st = [] ->
  forall x, reach model start x -> In x (HighlightEngine.visited st).
Proof.
  intros [Hr Hs Hc He Hnn Hne] Hq x Hx. rewrite Hq in *.
  induction Hx as [| n s Hn IH Hsucc].
  - destruct Hs as [H | []]. exact H.
  - destruct (Hc n s IH Hsucc) as [[H | []] _]. exact H.
Qed.
End Downstream.

(** C3: on the model of the document parsed from the text of the edges
    A to B, A to C and B to D, [downstream("A")] returns the nodes A, B, C,
    D and the edge keys A->B, A->C, B->D; on the model of the cycle A, B, C
    it returns from B with the three nodes and the three edges; and on
    every model and for every start id that is not empty it returns, with
    exactly the nodes the start id reaches by the successors and exactly
    the keys of the edges leaving those nodes, each once. *)
Theorem downstream_reachable :
  (exists g m g',
      FlowMDParser.parse FlowMDParser.default (JsString dag_text) = Ok g
      /\ GraphModel.new g = Some (m, g')
      /\ HighlightEngine.downstream m (Some "A")
         = Some (HighlightEngine.mk_result ["A"; "B"; "C"; "D"]
                                           ["A->B"; "A->C"; "B->D"]))
  /\ (exists g m g',
         FlowMDParser.parse FlowMDParser.default (JsString cycle_text) = Ok g
         /\ GraphModel.new g = Some (m, g')
         /\ HighlightEngine.downstream m (Some "B")
            = Some (HighlightEngine.mk_result ["B"; "C"; "A"]
                                              ["B->C"; "C->A"; "A->B"]))
  /\ (forall model c s,
         let startId := String c s in
         exists r,
           HighlightEngine.downstream model (Some startId) = Some r
           /\ (forall n, In n (HighlightEngine.nodes r) <-> reach model startId n)
           /\ (forall e, In e (HighlightEngine.edges r)
                         <-> exists n s', reach model startId n
                                          /\ In s' (GraphModel.successors model n)
                                          /\ e = edgeKey n s')
           /\ NoDup (HighlightEngine.nodes r)
           /\ NoDup (HighlightEngine.edges r)).
Proof.
  split; [| split].
  - eexists. eexists. eexists. split; [vm_compute; reflexivity |].
    split; vm_compute; reflexivity.
  - eexists. eexists. eexists. split; [vm_compute; reflexivity |].
    split; vm_compute; reflexivity.
  - intros model c s startId. subst startId. unfold HighlightEngine.downstream.
    set (startId := String c s).
    set (st0 := HighlightEngine.mk_state [] [] [startId]).
    destruct (loop_returns model (HighlightEngine.fuelFor model) st0)
      as (st & Hloop & Hq).
    { unfold HighlightEngine.fuelFor, st0.
      cbn [HighlightEngine.queue HighlightEngine.visited List.length].
      rewrite pending_nil. lia. }
    rewrite Hloop.
    assert (H0 : bfs_inv model startId st0).
    { constructor; cbn.
      - intros x [[] | [<- | []]]. constructor.
      - right. now left.
      - intros x s0 [].
      - intros e [].
      - constructor.
      - constructor. }
    destruct (loop_inv model startId _ st0 st Hloop H0) as [Hinv _].
    eexists. split; [reflexivity |].
    cbn [HighlightEngine.nodes HighlightEngine.edges].
    pose proof (inv_complete model startId st Hinv Hq) as Hcomplete.
    destruct Hinv as [Hr Hs Hc He Hnn Hne].
    split; [| split; [| split]]; try assumption.
    + intros n. split; [intros H; apply Hr; now left | apply Hcomplete].
    + intros e. split.
      * intros H. destruct (He e H) as (x & s' & Hx & Hsucc & ->).
        exists x, s'. repeat split; [apply Hr; now left | assumption].
      * intros (x & s' & Hx & Hsucc & ->). eapply Hc; [apply Hcomplete |]; eassumption.
Qed.

(** ** The header line *)

Lemma with_line_twice (a b : nat) (ctx : Ctx.t) :
  Ctx.with_line a (Ctx.with_line b ctx) = Ctx.with_line a ctx.
Proof. destruct ctx. reflexivity. Qed.

Lemma parseLine_with_line (index k : nat) (rawLine : string) (ctx : Ctx.t) :
  FlowMDParser.parseLine index rawLine (Ctx.with_line k ctx)
  = FlowMDParser.parseLine index rawLine ctx.
Proof.
  unfold FlowMDParser.parseLine. rewrite with_line_twice. reflexivity.
Qed.

Lemma parseLine_skipped (index : nat) (rawLine : string) (ctx : Ctx.t) :
  isSkipped rawLine = true ->
  FlowMDParser.parseLine index rawLine ctx = Ok (Ctx.with_line (index + 1) ctx).
Proof.
  unfold isSkipped, FlowMDParser.parseLine. intros ->. reflexivity.
Qed.

(** The lines passed over leave the scan where it was, but for the line
    counter, which the next line sets anew. *)
Lemma scan_skipped (pre : list string) : forall index ctx rawLine post,
  Forall (fun l => isSkipped l = true) pre ->
  FlowMDParser.scan index (pre ++ rawLine :: post) ctx
  = FlowMDParser.scan (index + List.length pre) (rawLine :: post) ctx.
Proof.
  induction pre as [| l pre IH]; intros index ctx rawLine post Hpre.
  - simpl. now rewrite Nat.add_0_r.
  - inversion Hpre as [| ? ? Hl Hrest]; subst.
    cbn [app FlowMDParser.scan]. rewrite (parseLine_skipped index l ctx Hl).
    rewrite IH by assumption.
    replace (index + List.length (l :: pre)) with (S index + List.length pre)
      by (simpl; lia).
    cbn [FlowMDParser.scan]. now rewrite parseLine_with_line.
Qed.

Lemma same_header_refl (ctx : Ctx.t) : same_header ctx ctx.
Proof. split; reflexivity. Qed.

Lemma same_header_trans (a b c : Ctx.t) :
  same_header a b -> same_header b c -> same_header a c.
Proof. intros [H1 H2] [K1 K2]. split; congruence. Qed.

Lemma ensureNode_header (id : string) (ctx : Ctx.t) (extra : Extra.t) :
  same_header ctx (snd (FlowMDParser.ensureNode id ctx extra)).
Proof.
  unfold FlowMDParser.ensureNode.
  destruct (JsMap.get id (Ctx.nodes ctx)) as [node |].
  - destruct (Extra.shape extra) as [[| c s] |]; try apply same_header_refl.
    destruct (2 <? String.length (String c s)); split; reflexivity.
  - split; reflexivity.
Qed.

Lemma parseEdge_header (line : string) (ctx : Ctx.t) :
  same_header ctx (snd (FlowMDParser.parseEdge line ctx)).
Proof.
  unfold FlowMDParser.parseEdge.
  destruct (Regex.exec EDGE_PATTERN line) as [m |]; [| apply same_header_refl].
  destruct (Regex.group "lhs" m) as [lhs |]; [| apply same_header_refl].
  destruct (Regex.group "rhs" m) as [rhs |]; [| apply same_header_refl].
  pose proof (ensureNode_header lhs ctx (Extra.mk (Some (Ctx.line ctx)) None)) as H1.
  destruct (FlowMDParser.ensureNode lhs ctx _) as [source ctx1]. cbn [snd] in H1.
  pose proof (ensureNode_header rhs ctx1 (Extra.mk (Some (Ctx.line ctx1)) None)) as H2.
  destruct (FlowMDParser.ensureNode rhs ctx1 _) as [target ctx2]. cbn [snd] in *.
  eapply same_header_trans; [exact H1 |]. eapply same_header_trans; [exact H2 |].
  split; reflexivity.
Qed.

Lemma parseNode_header (line : string) (ctx : Ctx.t) :
  same_header ctx (snd (FlowMDParser.parseNode line ctx)).
Proof.
  unfold FlowMDParser.parseNode.
  destruct (Regex.exec NODE_PATTERN line) as [m |]; [| apply same_header_refl].
  destruct (Regex.group "id" m) as [id |]; [| apply same_header_refl].
  pose proof (ensureNode_header id ctx
                (Extra.mk (Some (Ctx.line ctx)) (Regex.group "shape" m))) as H1.
  destruct (FlowMDParser.ensureNode id ctx _) as [node ctx1]. cbn [snd] in H1.
  destruct (Ctx.currentGroup ctx1) as [[| c s] |]; try exact H1.
  destruct (JsMap.get (String c s) (Ctx.groups ctx1)); exact H1.
Qed.

Lemma parseSubgraph_header (line : string) (ctx : Ctx.t) :
  same_header ctx (snd (FlowMDParser.parseSubgraph line ctx)).
Proof.
  unfold FlowMDParser.parseSubgraph.
  destruct (nth_error (Js.split_ws line 2) 1) as [raw |]; [| split; reflexivity].
  destruct (Js.trim raw) as [| c s]; [split; reflexivity |].
  destruct (negb _); split; reflexivity.
Qed.

(** Once the header is read, no line changes the orientation. *)
Lemma parseLine_header (index : nat) (rawLine : string) (ctx ctx' : Ctx.t) :
  Ctx.orientationParsed ctx = true ->
  FlowMDParser.parseLine index rawLine ctx = Ok ctx' ->
  same_header ctx ctx'.
Proof.
  intros Hparsed. unfold FlowMDParser.parseLine.
  set (ctx0 := Ctx.with_line (index + 1) ctx).
  assert (H0 : same_header ctx ctx0) by (split; reflexivity).
  destruct (negb (Js.truthy (Js.trim rawLine)) || Js.startsWith (Js.trim rawLine) "%%").
  { intros [= <-]. exact H0. }
  replace (Ctx.orientationParsed ctx0) with true by (symmetry; exact Hparsed).
  cbn [negb].
  destruct (Regex.test SUBGRAPH_PATTERN (Js.trim rawLine)).
  { pose proof (parseSubgraph_header (Js.trim rawLine) ctx0) as H1.
    destruct (FlowMDParser.parseSubgraph (Js.trim rawLine) ctx0) as [g ctx1].
    intros [= <-]. eapply same_header_trans; [exact H0 |]. exact H1. }
  destruct (Regex.test END_PATTERN (Js.trim rawLine)).
  { intros [= <-]. exact H0. }
  pose proof (parseEdge_header (Js.trim rawLine) ctx0) as H1.
  destruct (FlowMDParser.parseEdge (Js.trim rawLine) ctx0) as [isEdge ctx1].
  cbn [snd] in H1.
  destruct isEdge.
  { intros [= <-]. eapply same_header_trans; [exact H0 | exact H1]. }
  pose proof (parseNode_header (Js.trim rawLine) ctx1) as H2.
  destruct (FlowMDParser.parseNode (Js.trim rawLine) ctx1) as [isNode ctx2].
  cbn [snd] in H2.
  destruct isNode; intros [= <-];
    (eapply same_header_trans; [exact H0 |]);
    (eapply same_header_trans; [exact H1 |]); exact H2.
Qed.

Lemma scan_header (lines : list string) : forall index ctx ctx',
  Ctx.orientationParsed ctx = true ->
  FlowMDParser.scan index lines ctx = Ok ctx' ->
  same_header ctx ctx'.
Proof.
  induction lines as [| rawLine lines IH]; intros index ctx ctx' Hparsed; simpl.
  - intros [= <-]. apply same_header_refl.
  - destruct (FlowMDParser.parseLine index rawLine ctx) as [ctx1 | e] eqn:E;
      [| discriminate].
    intros H. pose proof (parseLine_header index rawLine ctx ctx1 Hparsed E) as H1.
    eapply same_header_trans; [exact H1 |].
    eapply IH; [| exact H]. destruct H1 as [_ ->]. exact Hparsed.
Qed.

(** The header rule of [parse]: the first line that is neither blank nor a
    comment is matched against the orientation pattern. When it does not
    match, [parse] throws the error of a missing header with the number of
    that line; when it matches, the orientation of every document [parse]
    returns is the matched direction in upper case, or TB when the match
    has no direction. *)
Theorem header_line_decides
        (self : FlowMDParser.t) (source : string)
        (pre : list string) (rawLine : string) (post : list string) :
  Js.split_lines source = (pre ++ rawLine :: post)%list ->
  Forall (fun l => isSkipped l = true) pre ->
  isSkipped rawLine = false ->
  match Regex.exec ORIENTATION_PATTERN (Js.trim rawLine) with
  | None =>
      FlowMDParser.parse self (JsString source)
      = Throw (FlowMDError.mk "FlowMDError"
                 ("FlowMD must start with graph/flowchart declaration (line "
                  ++ Js.show_nat (S (List.length pre)) ++ ")")
                 (Some (S (List.length pre))))
  | Some m =>
      forall g,
        FlowMDParser.parse self (JsString source) = Ok g ->
        Meta.orientation (Graph.meta g)
        = Js.toUpperCase (match Regex.group "2" m with
                          | Some (String c s) => String c s
                          | _ => "TB"
                          end)
  end.
Proof.
  intros Hlines Hpre Hline.
  unfold FlowMDParser.parse. rewrite Hlines, scan_skipped by assumption.
  cbn [FlowMDParser.scan plus]. unfold FlowMDParser.parseLine.
  unfold isSkipped in Hline. rewrite Hline.
  cbn [Ctx.orientationParsed Ctx.with_line Ctx.initial negb].
  unfold FlowMDParser.parseHeader.
  destruct (Regex.exec ORIENTATION_PATTERN (Js.trim rawLine)) as [m |].
  - intros g.
    match goal with
    | |- context [FlowMDParser.scan ?i post ?c] =>
        destruct (FlowMDParser.scan i post c) as [ctx' | e] eqn:E
    end; [| discriminate].
    apply scan_header in E; [| reflexivity]. destruct E as [Ho _].
    unfold FlowMDParser.finish. destruct (Meta.overflow _); [discriminate |].
    intros [= <-]. cbn [Graph.meta Meta.orientation]. rewrite Ho. reflexivity.
  - cbn [Ctx.line]. replace (List.length pre + 1) with (S (List.length pre)) by lia.
    reflexivity.
Qed.

Lemma header_line_decides_witness :
  FlowMDParser.parse FlowMDParser.default
    (JsString (text_of [""; "%% a comment"; "A-->B"]))
  = Throw (FlowMDError.mk "FlowMDError"
             "FlowMD must start with graph/flowchart declaration (line 3)"
             (Some 3)).
Proof.
  pose proof (header_line_decides FlowMDParser.default
                (text_of [""; "%% a comment"; "A-->B"])
                [""; "%% a comment"] "A-->B" [] eq_refl) as H.
  assert (Hpre : Forall (fun l => isSkipped l = true) [""; "%% a comment"])
    by (repeat constructor).
  specialize (H Hpre eq_refl). exact H.
Defined.

(** ** Downstream of nothing and of a sink *)

(** [downstream] of [null], of [undefined] or of the empty string returns
    two empty sets, whatever the model; from a node without successors it
    returns that node alone and no edge. *)
Theorem downstream_edge_cases (model : GraphModel.t) (startId : string) :
  GraphModel.successors model startId = [] ->
  HighlightEngine.downstream model None = Some (HighlightEngine.mk_result [] [])
  /\ HighlightEngine.downstream model (Some "")
     = Some (HighlightEngine.mk_result [] [])
  /\ (startId <> "" ->
      HighlightEngine.downstream model (Some startId)
      = Some (HighlightEngine.mk_result [startId] [])).
Proof.
  intros Hsink. split; [reflexivity |]. split; [reflexivity |].
  destruct startId as [| c s]; [congruence |]. intros _.
  unfold HighlightEngine.downstream, HighlightEngine.fuelFor.
  cbn [plus HighlightEngine.loop HighlightEngine.queue HighlightEngine.visited
       HighlightEngine.edgeIds JsSet.has existsb].
  rewrite Hsink. reflexivity.
Qed.

Lemma downstream_edge_cases_witness :
  exists g m g',
    FlowMDParser.parse FlowMDParser.default (JsString dag_text) = Ok g
    /\ GraphModel.new g = Some (m, g')
    /\ GraphModel.successors m "D" = []
    /\ HighlightEngine.downstream m (Some "D")
       = Some (HighlightEngine.mk_result ["D"] []).
Proof.
  destruct (FlowMDParser.parse FlowMDParser.default (JsString dag_text))
    as [g | e] eqn:E; [| vm_compute in E; discriminate E].
  destruct (GraphModel.new g) as [[m g'] |] eqn:N;
    [| vm_compute in E; injection E as <-; vm_compute in N; discriminate N].
  assert (Hsink : GraphModel.successors m "D" = []).
  { vm_compute in E. injection E as <-. vm_compute in N. injection N as <- _.
    reflexivity. }
  exists g, m, g'. repeat split; try assumption.
  apply (downstream_edge_cases m "D" Hsink). discriminate.
Defined.

(** ** The detected cycles are deduplicated by key *)

Section CycleKeys.
Variable adjacency : GraphModel.Adjacency.

Lemma recordCycle_keys (s : string) (st : GraphModel.DfsState) :
  keys_seen st -> keys_seen (GraphModel.recordCycle s st).
Proof.
  intros [Hseen Hnd]. unfold GraphModel.recordCycle.
  destruct (JsSet.has s (GraphModel.stack st)); [| now split].
  destruct (GraphModel.indexOf s (GraphModel.path st)) as [index |]; [| now split].
  fold (cycleKey (skipn index (GraphModel.path st) ++ [s])).
  set (cycle := (skipn index (GraphModel.path st) ++ [s])%list).
  destruct (JsSet.has (cycleKey cycle) (GraphModel.seen st)) eqn:E; cbn [negb];
    [now split |].
  apply set_has_false in E. split; cbn [GraphModel.found GraphModel.seen].
  - intros c Hin. apply in_app_iff in Hin. apply set_add_in.
    destruct Hin as [Hin | [<- | []]]; [left; now apply Hseen | now right].
  - rewrite map_app. apply NoDup_app; [exact Hnd | repeat constructor; simpl; tauto |].
    intros k Hk [<- | []]. apply E.
    apply in_map_iff in Hk. destruct Hk as (c & <- & Hc). now apply Hseen.
Qed.

Lemma forEachSuccessor_keys
      (call : string -> GraphModel.DfsState -> option GraphModel.DfsState) :
  (forall n st st', call n st = Some st' -> keys_seen st -> keys_seen st') ->
  forall successors st st',
    GraphModel.forEachSuccessor call successors st = Some st' ->
    keys_seen st -> keys_seen st'.
Proof.
  intros Hcall. induction successors as [| s successors IH]; intros st st'; simpl.
  - now intros [= <-].
  - destruct (JsSet.has s (GraphModel.visited st)); cbn [negb].
    + intros H K. eapply IH; [exact H |]. now apply recordCycle_keys.
    + destruct (call s st) as [st1 |] eqn:E; [| discriminate].
      intros H K. eapply IH; [exact H |]. eapply Hcall; eassumption.
Qed.

Lemma dfs_keys (fuel : nat) : forall n st st',
  GraphModel.dfs fuel adjacency n st = Some st' -> keys_seen st -> keys_seen st'.
Proof.
  induction fuel as [| fuel IH]; intros n st st'; [discriminate |].
  cbn [GraphModel.dfs].
  destruct (GraphModel.forEachSuccessor _ _ _) as [st1 |] eqn:E; [| discriminate].
  intros [= <-] K.
  apply (forEachSuccessor_keys (GraphModel.dfs fuel adjacency) IH) in E.
  - exact E.
  - exact K.
Qed.

Lemma forEachKey_keys (fuel : nat) (keys : list string) : forall st st',
  GraphModel.forEachKey fuel adjacency keys st = Some st' ->
  keys_seen st -> keys_seen st'.
Proof.
  induction keys as [| k keys IH]; intros st st'; simpl.
  - now intros [= <-].
  - destruct (JsSet.has k (GraphModel.visited st)); cbn [negb]; [apply IH |].
    destruct (GraphModel.dfs fuel adjacency k st) as [st1 |] eqn:E; [| discriminate].
    intros H K. eapply IH; [exact H |]. eapply dfs_keys; eassumption.
Qed.
End CycleKeys.

(** The cycles of a graph model have pairwise different keys, hence are
    pairwise different. *)
Theorem cycles_deduplicated (g g' : Graph.t) (m : GraphModel.t) :
  GraphModel.new g = Some (m, g') ->
  NoDup (map cycleKey (GraphModel.cycles m)) /\ NoDup (GraphModel.cycles m).
Proof.
  unfold GraphModel.new, GraphModel.detectCycles.
  destruct (GraphModel.forEachKey _ _ _ _) as [st |] eqn:E; [| discriminate].
  intros [= <- _]. cbn [GraphModel.cycles].
  apply forEachKey_keys in E.
  - destruct E as [_ Hnd]. split; [exact Hnd |]. eapply NoDup_map_inv, Hnd.
  - split; [intros c [] | constructor].
Qed.

Lemma cycles_deduplicated_witness :
  exists g m g',
    FlowMDParser.parse FlowMDParser.default
      (JsString (text_of ["graph TB"; "A-->B"; "B-->A"; "B-->C"; "C-->A"; "C-->C"]))
    = Ok g
    /\ GraphModel.new g = Some (m, g')
    /\ GraphModel.cycles m = [["A"; "B"; "A"]; ["A"; "B"; "C"; "A"]; ["C"; "C"]]
    /\ NoDup (GraphModel.cycles m).
Proof.
  destruct (FlowMDParser.parse FlowMDParser.default
              (JsString (text_of ["graph TB"; "A-->B"; "B-->A"; "B-->C"; "C-->A";
                                  "C-->C"])))
    as [g | e] eqn:E; [| vm_compute in E; discriminate E].
  destruct (GraphModel.new g) as [[m g'] |] eqn:N;
    [| vm_compute in E; injection E as <-; vm_compute in N; discriminate N].
  exists g, m, g'. split; [reflexivity |]. split; [exact N |].
  split; [| apply (cycles_deduplicated g g' m N)].
  vm_compute in E. injection E as <-. vm_compute in N. injection N as <- _.
  reflexivity.
Defined.

(** ** Cycle detection finds a cycle exactly when there is one *)

Section CycleDetection.
Variable adjacency : GraphModel.Adjacency.

Lemma chain_suffix (pre l : list string) :
  chain adjacency (pre ++ l) -> chain adjacency l.
Proof.
  induction pre as [| x pre IH]; [simpl; trivial |].
  destruct pre as [| y pre]; simpl.
  - destruct l; [trivial | intros [_ H]; exact H].
  - intros [_ H]. apply IH. exact H.
Qed.

Lemma chain_prefix (l : list string) (x : string) :
  chain adjacency (l ++ [x]) -> chain adjacency l.
Proof.
  induction l as [| a l IH]; [simpl; trivial |].
  destruct l as [| b l]; [simpl; trivial |].
  simpl. intros [H1 H2]. split; [exact H1 | apply IH; exact H2].
Qed.

Lemma chain_extend (p : list string) (n s : string) :
  chain adjacency (p ++ [n]) -> In s (succ_of adjacency n) ->
  chain adjacency ((p ++ [n]) ++ [s]).
Proof.
  induction p as [| a p IH]; simpl.
  - intros _ H. split; [exact H | trivial].
  - destruct p as [| b p]; simpl in *.
    + intros [H1 _] H. repeat split; assumption.
    + intros [H1 H2] H. split; [exact H1 | apply IH; assumption].
Qed.

Lemma chain_walk (mid : list string) : forall x y,
  chain adjacency (x :: mid ++ [y]) -> walk adjacency x y.
Proof.
  induction mid as [| z mid IH]; intros x y; simpl.
  - intros [H _]. now apply walk_one.
  - intros [H1 H2]. eapply walk_more; [exact H1 |]. apply IH. exact H2.
Qed.

Lemma indexOf_split (x : string) (l : list string) :
  In x l ->
  exists index post, GraphModel.indexOf x l = Some index
                     /\ skipn index l = x :: post.
Proof.
  induction l as [| y l IH]; [intros [] |]. intros Hin. simpl.
  destruct (String.eqb x y) eqn:E.
  - apply String.eqb_eq in E. subst y. exists 0, l. split; reflexivity.
  - apply String.eqb_neq in E. destruct Hin as [-> | Hin]; [congruence |].
    destruct (IH Hin) as (index & post & -> & Hskip).
    exists (S index), post. split; [reflexivity | exact Hskip].
Qed.

Lemma skipn_suffix (index : nat) : forall l : list string,
  exists pre, l = (pre ++ skipn index l)%list.
Proof.
  induction index as [| index IH]; intros l.
  - now exists [].
  - destruct l as [| x l]; [now exists [] |].
    destruct (IH l) as (pre & H). exists (x :: pre). simpl. now rewrite <- H.
Qed.

Lemma finish_order_successors (order : list string) (x s : string) :
  finish_order adjacency order -> In x order ->
  In s (succ_of adjacency x) -> In s order.
Proof.
  induction order as [| a order IH]; [intros _ [] |].
  intros [Ha Hrest] [-> | Hin] Hs.
  - right. now apply Ha.
  - right. now apply IH.
Qed.

Lemma finish_order_closed (order : list string) (x y : string) :
  finish_order adjacency order -> walk adjacency x y -> In x order -> In y order.
Proof.
  intros Ho Hw. induction Hw as [x y H | x z y H Hw IH]; intros Hin.
  - eapply finish_order_successors; eassumption.
  - apply IH. eapply finish_order_successors; eassumption.
Qed.

Lemma finish_order_below (a : string) (earlier : list string) (y : string) :
  finish_order adjacency (a :: earlier) -> walk adjacency a y -> In y earlier.
Proof.
  intros [Ha Hrest] Hw. inversion Hw as [x y' H | x z y' H Hw']; subst.
  - now apply Ha.
  - eapply finish_order_closed; [exact Hrest | exact Hw' | now apply Ha].
Qed.

Lemma finish_order_acyclic (order : list string) (x : string) :
  finish_order adjacency order -> In x order -> ~ walk adjacency x x.
Proof.
  induction order as [| a order IH]; [intros _ [] |].
  intros Ho [-> | Hin] Hw.
  - apply (IH (proj2 Ho)); [| exact Hw].
    eapply finish_order_below; eassumption.
  - now apply (IH (proj2 Ho) Hin).
Qed.

(** The branch for a visited successor [s] of the node on top of the
    path. *)
Lemma recordCycle_inv (s : string) (st : GraphModel.DfsState) :
  dfs_inv adjacency st ->
  chain adjacency (GraphModel.path st ++ [s]) ->
  In s (GraphModel.visited st) ->
  let st' := GraphModel.recordCycle s st in
  dfs_inv adjacency st'
  /\ GraphModel.path st' = GraphModel.path st
  /\ GraphModel.visited st' = GraphModel.visited st
  /\ (exists extra, GraphModel.found st' = (GraphModel.found st ++ extra)%list)
  /\ (GraphModel.found st' = [] -> ~ In s (GraphModel.path st)).
Proof.
  intros Inv Hchain Hvis. cbn zeta. unfold GraphModel.recordCycle.
  destruct Inv as [Hsp Hnd Hpv Hpc Hfc Hsf Hfin].
  assert (Inv : dfs_inv adjacency st) by (constructor; assumption).
  destruct (JsSet.has s (GraphModel.stack st)) eqn:E.
  2:{ apply set_has_false in E. rewrite Hsp in E.
      split; [exact Inv |]. split; [reflexivity |]. split; [reflexivity |].
      split; [exists []; now rewrite app_nil_r | intros _; exact E]. }
  apply set_has_true in E. rewrite Hsp in E.
  destruct (indexOf_split s (GraphModel.path st) E) as (index & post & -> & Hskip).
  cbv zeta. rewrite Hskip. cbn [app].
  change (Js.join "->" (s :: post ++ [s])) with (cycleKey (s :: post ++ [s])).
  assert (Hclosed : closed_walk adjacency (s :: post ++ [s])).
  { destruct (skipn_suffix index (GraphModel.path st)) as (pre & Hpre).
    rewrite Hskip in Hpre. split.
    - rewrite Hpre in Hchain.
      rewrite <- app_assoc in Hchain. apply chain_suffix in Hchain. exact Hchain.
    - exists s, post. split; [reflexivity |].
      rewrite Hpre in Hnd. eapply NoDup_app_remove_l, Hnd. }
  destruct (JsSet.has (cycleKey (s :: post ++ [s])) (GraphModel.seen st)) eqn:K;
    cbn [negb].
  - apply set_has_true in K. destruct (Hsf _ K) as (c & Hc & _).
    split; [exact Inv |]. split; [reflexivity |]. split; [reflexivity |].
    split; [exists []; now rewrite app_nil_r |].
    intros Hnil. rewrite Hnil in Hc. destruct Hc.
  - split; [| split; [reflexivity | split; [reflexivity | split]]].
    + constructor; cbn [GraphModel.stack GraphModel.path GraphModel.visited
                        GraphModel.found GraphModel.seen]; try assumption.
      * intros c Hc. apply in_app_iff in Hc.
        destruct Hc as [Hc | [<- | []]]; [now apply Hfc | exact Hclosed].
      * intros k Hk. apply set_add_in in Hk. destruct Hk as [Hk | ->].
        -- destruct (Hsf k Hk) as (c & Hc & Hkey). exists c.
           split; [apply in_app_iff; now left | exact Hkey].
        -- exists (s :: post ++ [s]). split; [| reflexivity].
           apply in_app_iff. right. now left.
      * intros Hnil. apply app_eq_nil in Hnil. destruct Hnil as [_ Hnil].
        discriminate Hnil.
    + cbn [GraphModel.found]. now eexists.
    + cbn [GraphModel.found]. intros Hnil. apply app_eq_nil in Hnil.
      destruct Hnil as [_ Hnil]. discriminate Hnil.
Qed.

Lemma forEachSuccessor_inv
      (call : string -> GraphModel.DfsState -> option GraphModel.DfsState)
      (p : list string) (n : string) :
  dfs_call_spec adjacency call ->
  forall successors st st',
    GraphModel.forEachSuccessor call successors st = Some st' ->
    dfs_inv adjacency st ->
    GraphModel.path st = (p ++ [n])%list ->
    incl successors (succ_of adjacency n) ->
    dfs_inv adjacency st'
    /\ GraphModel.path st' = (p ++ [n])%list
    /\ incl (GraphModel.visited st) (GraphModel.visited st')
    /\ (exists extra, GraphModel.found st' = (GraphModel.found st ++ extra)%list)
    /\ (GraphModel.found st' = [] ->
        forall s, In s successors ->
                  In s (GraphModel.visited st') /\ ~ In s (p ++ [n])).
Proof.
  intros Hcall. induction successors as [| s successors IH]; intros st st'.
  - simpl. intros [= <-] Inv Hpath _.
    split; [exact Inv |]. split; [exact Hpath |]. split; [apply incl_refl |].
    split; [exists []; now rewrite app_nil_r | intros _ s0 []].
  - cbn [GraphModel.forEachSuccessor]. intros Hloop Inv Hpath Hincl.
    assert (Hs : In s (succ_of adjacency n)) by (apply Hincl; now left).
    assert (Hrest : incl successors (succ_of adjacency n)).
    { intros x Hx. apply Hincl. now right. }
    assert (Hchain : chain adjacency (GraphModel.path st ++ [s])).
    { rewrite Hpath. apply chain_extend; [| exact Hs].
      rewrite <- Hpath. apply Inv. }
    destruct (JsSet.has s (GraphModel.visited st)) eqn:E; cbn [negb] in Hloop.
    + apply set_has_true in E.
      destruct (recordCycle_inv s st Inv Hchain E)
        as (Inv1 & Hpath1 & Hvis1 & (extra1 & Hfound1) & Hblack1).
      destruct (IH _ _ Hloop Inv1) as (Inv' & Hpath' & Hvis' & (extra & Hfound') & Hblack');
        [congruence | exact Hrest |].
      split; [exact Inv' |]. split; [exact Hpath' |].
      split; [now rewrite Hvis1 in Hvis' |].
      split; [exists (extra1 ++ extra)%list; rewrite Hfound', Hfound1;
              now rewrite app_assoc |].
      intros Hnil s0 [<- | Hin]; [| now apply Hblack'].
      split; [apply Hvis'; now rewrite Hvis1 |].
      rewrite <- Hpath. apply Hblack1.
      rewrite Hfound' in Hnil. apply app_eq_nil in Hnil. apply Hnil.
    + apply set_has_false in E.
      destruct (call s st) as [st1 |] eqn:C; [| discriminate].
      destruct (Hcall s st st1 C Inv E Hchain)
        as (Inv1 & Hpath1 & Hvis1 & Hs1 & (extra1 & Hfound1)).
      destruct (IH _ _ Hloop Inv1) as (Inv' & Hpath' & Hvis' & (extra & Hfound') & Hblack');
        [congruence | exact Hrest |].
      split; [exact Inv' |]. split; [exact Hpath' |].
      split; [eapply incl_tran; eassumption |].
      split; [exists (extra1 ++ extra)%list; rewrite Hfound', Hfound1;
              now rewrite app_assoc |].
      intros Hnil s0 [<- | Hin]; [| now apply Hblack'].
      split; [now apply Hvis' |].
      rewrite <- Hpath. intros Hp. apply E. now apply Inv.
Qed.

Lemma delete_last (n : string) (p : list string) :
  ~ In n p -> JsSet.delete n (p ++ [n])%list = p.
Proof.
  intros Hn. unfold JsSet.delete. rewrite filter_app. simpl.
  rewrite String.eqb_refl. simpl. rewrite app_nil_r.
  induction p as [| x p IH]; [reflexivity |]. simpl.
  destruct (String.eqb n x) eqn:E.
  - apply String.eqb_eq in E. subst. exfalso. apply Hn. now left.
  - simpl. f_equal. apply IH. intros H. apply Hn. now right.
Qed.

Lemma dfs_inv_holds (fuel : nat) :
  dfs_call_spec adjacency (GraphModel.dfs fuel adjacency).
Proof.
  induction fuel as [| fuel IH]; intros n st st'; [discriminate |].
  cbn [GraphModel.dfs]. fold (succ_of adjacency n).
  intros Hdfs Inv Hnew Hchain.
  destruct Inv as [Hsp Hnd Hpv Hpc Hfc Hsf Hfin].
  assert (Hnp : ~ In n (GraphModel.path st)) by (intros H; apply Hnew, Hpv, H).
  assert (Hadd : JsSet.add n (GraphModel.visited st)
                 = (GraphModel.visited st ++ [n])%list).
  { unfold JsSet.add. apply set_has_false in Hnew. now rewrite Hnew. }
  assert (Hadds : JsSet.add n (GraphModel.stack st)
                  = (GraphModel.path st ++ [n])%list).
  { unfold JsSet.add. rewrite Hsp. apply set_has_false in Hnp. now rewrite Hnp. }
  set (st1 := GraphModel.mk_dfs (JsSet.add n (GraphModel.visited st))
                                (JsSet.add n (GraphModel.stack st))
                                (GraphModel.path st ++ [n])%list
                                (GraphModel.seen st) (GraphModel.found st)) in *.
  assert (Inv1 : dfs_inv adjacency st1).
  { constructor; cbn [st1 GraphModel.stack GraphModel.path GraphModel.visited
                      GraphModel.found GraphModel.seen]; try assumption.
    - apply NoDup_app; [assumption | repeat constructor; simpl; tauto |].
      intros x Hx [<- | []]. contradiction.
    - rewrite Hadd. intros x Hx. apply in_app_iff in Hx. apply in_app_iff.
      destruct Hx as [Hx | Hx]; [left; now apply Hpv | now right].
    - intros Hnil. destruct (Hfin Hnil) as (order & Hmem & Hord).
      exists order. split; [| exact Hord]. intros x. rewrite Hmem, Hadd, !in_app_iff.
      simpl. split.
      + intros [Hv Hp]. split; [now left |]. intros [H | [<- | []]]; contradiction.
      + intros [[Hv | [<- | []]] Hp]; [split; tauto |]. exfalso. apply Hp.
        right. now left. }
  destruct (GraphModel.forEachSuccessor _ _ _) as [st2 |] eqn:L; [| discriminate].
  injection Hdfs as <-.
  destruct (forEachSuccessor_inv (GraphModel.dfs fuel adjacency)
              (GraphModel.path st) n IH (succ_of adjacency n) st1 st2 L Inv1
              eq_refl (incl_refl _))
    as ([Hsp2 Hnd2 Hpv2 Hpc2 Hfc2 Hsf2 Hfin2] & Hpath2 & Hvis2 & Hfound2 & Hblack2).
  assert (Hn2 : In n (GraphModel.visited st2)).
  { apply Hvis2. cbn [st1 GraphModel.visited]. rewrite Hadd.
    apply in_app_iff. right. now left. }
  split; [| split; [| split; [| split]]].
  - constructor; cbn [GraphModel.stack GraphModel.path GraphModel.visited
                      GraphModel.found GraphModel.seen]; try assumption.
    + rewrite Hsp2, Hpath2, removelast_last. now apply delete_last.
    + rewrite Hpath2, removelast_last. exact Hnd.
    + rewrite Hpath2, removelast_last. intros x Hx. apply Hpv2. rewrite Hpath2.
      apply in_app_iff. now left.
    + rewrite Hpath2, removelast_last. exact Hpc.
    + intros Hnil. destruct (Hfin2 Hnil) as (order & Hmem & Hord).
      exists (n :: order). split.
      * intros x. rewrite Hpath2, removelast_last. simpl. rewrite Hmem, Hpath2.
        rewrite in_app_iff. simpl. split.
        -- intros [<- | [Hv Hp]]; [split; assumption | split; tauto].
        -- intros [Hv Hp]. destruct (string_dec n x) as [-> | Hne]; [now left |].
           right. split; [exact Hv |]. intros [H | [H | []]]; contradiction.
      * split; [| exact Hord]. intros s Hs. apply Hmem.
        destruct (Hblack2 Hnil s Hs) as [Hv Hp]. split; [exact Hv |].
        now rewrite Hpath2.
  - cbn [GraphModel.path]. now rewrite Hpath2, removelast_last.
  - cbn [GraphModel.visited]. intros x Hx. apply Hvis2.
    cbn [st1 GraphModel.visited]. rewrite Hadd. apply in_app_iff. now left.
  - exact Hn2.
  - exact Hfound2.
Qed.

Lemma forEachKey_inv (fuel : nat) (keys : list string) : forall st st',
  GraphModel.forEachKey fuel adjacency keys st = Some st' ->
  dfs_inv adjacency st -> GraphModel.path st = [] ->
  dfs_inv adjacency st' /\ GraphModel.path st' = []
  /\ incl (GraphModel.visited st) (GraphModel.visited st')
  /\ (forall k, In k keys -> In k (GraphModel.visited st')).
Proof.
  induction keys as [| k keys IH]; intros st st'; simpl.
  - intros [= <-] Inv Hp.
    split; [exact Inv |]. split; [exact Hp |]. split; [apply incl_refl |].
    intros k [].
  - destruct (JsSet.has k (GraphModel.visited st)) eqn:E; cbn [negb].
    + apply set_has_true in E. intros H Inv Hp.
      destruct (IH _ _ H Inv Hp) as (Inv' & Hp' & Hv' & Hk').
      split; [exact Inv' |]. split; [exact Hp' |]. split; [exact Hv' |].
      intros k0 [<- | Hin]; [now apply Hv' | now apply Hk'].
    + apply set_has_false in E.
      destruct (GraphModel.dfs fuel adjacency k st) as [st1 |] eqn:D; [| discriminate].
      intros H Inv Hp.
      destruct (dfs_inv_holds fuel k st st1 D Inv E) as (Inv1 & Hp1 & Hv1 & Hk1 & _).
      { rewrite Hp. simpl. trivial. }
      destruct (IH _ _ H Inv1) as (Inv' & Hp' & Hv' & Hk'); [congruence |].
      split; [exact Inv' |]. split; [exact Hp' |].
      split; [eapply incl_tran; eassumption |].
      intros k0 [<- | Hin]; [now apply Hv' | now apply Hk'].
Qed.

Lemma walk_from_key (x y : string) :
  walk adjacency x y -> In x (JsMap.keys adjacency).
Proof.
  intros Hw.
  assert (H : exists s, In s (succ_of adjacency x)).
  { destruct Hw as [x y H | x z y H _]; eauto. }
  destruct H as (s & Hs). unfold succ_of in Hs.
  destruct (JsMap.get x adjacency) as [l |] eqn:G; [| destruct Hs].
  apply map_get_in in G. apply (in_map fst) in G. exact G.
Qed.

Lemma detectCycles_exact (cycles : list (list string)) :
  GraphModel.detectCycles adjacency = Some cycles ->
  (forall c, In c cycles -> closed_walk adjacency c)
  /\ (cycles = [] <-> acyclic adjacency).
Proof.
  unfold GraphModel.detectCycles.
  destruct (GraphModel.forEachKey _ _ _ _) as [st |] eqn:E; [| discriminate].
  intros [= <-].
  assert (Inv0 : dfs_inv adjacency (GraphModel.mk_dfs [] [] [] [] [])).
  { constructor; cbn; try tauto; try constructor.
    - intros x [].
    - intros _. exists []. split; [| exact I]. intros x. simpl. tauto. }
  destruct (forEachKey_inv _ _ _ _ E Inv0 eq_refl) as (Inv & Hp & _ & Hkeys).
  destruct Inv as [Hsp Hnd Hpv Hpc Hfc Hsf Hfin].
  split; [exact Hfc |]. split.
  - intros Hnil x Hw. destruct (Hfin Hnil) as (order & Hmem & Hord).
    apply (finish_order_acyclic order x Hord); [| exact Hw].
    apply Hmem. rewrite Hp. split; [| intros []].
    apply Hkeys. eapply walk_from_key, Hw.
  - intros Hacyclic. destruct (GraphModel.found st) as [| c found] eqn:F; [reflexivity |].
    exfalso. destruct (Hfc c (or_introl eq_refl)) as (Hchain & s & mid & -> & _).
    apply (Hacyclic s). eapply chain_walk, Hchain.
Qed.
End CycleDetection.

(** Every cycle a graph model records is a closed walk along the edges of
    its adjacency that passes no id twice but the one it starts and ends
    with, and the model records no cycle exactly when the adjacency has
    none; the constructor then returns the document as it was.
    [succ_of (adjacency m) n] is [successors m n]. *)
Theorem cycles_exact (g g' : Graph.t) (m : GraphModel.t) :
  GraphModel.new g = Some (m, g') ->
  (forall n, succ_of (GraphModel.adjacency m) n = GraphModel.successors m n)
  /\ (forall c, In c (GraphModel.cycles m) ->
                closed_walk (GraphModel.adjacency m) c)
  /\ (GraphModel.cycles m = [] <-> acyclic (GraphModel.adjacency m))
  /\ (acyclic (GraphModel.adjacency m) -> g' = g).
Proof.
  unfold GraphModel.new.
  destruct (GraphModel.detectCycles _) as [cycles |] eqn:E; [| discriminate].
  intros [= <- <-]. cbn [GraphModel.adjacency GraphModel.cycles].
  destruct (detectCycles_exact _ cycles E) as [Hclosed Hexact].
  split; [reflexivity |]. split; [exact Hclosed |]. split; [exact Hexact |].
  intros Hacyclic. apply Hexact in Hacyclic. subst cycles.
  destruct g. reflexivity.
Qed.

Lemma cycles_exact_witness :
  exists g m g',
    FlowMDParser.parse FlowMDParser.default (JsString dag_text) = Ok g
    /\ GraphModel.new g = Some (m, g')
    /\ GraphModel.cycles m = []
    /\ acyclic (GraphModel.adjacency m)
    /\ g' = g.
Proof.
  destruct (FlowMDParser.parse FlowMDParser.default (JsString dag_text))
    as [g | e] eqn:E; [| vm_compute in E; discriminate E].
  destruct (GraphModel.new g) as [[m g'] |] eqn:N;
    [| vm_compute in E; injection E as <-; vm_compute in N; discriminate N].
  assert (Hnil : GraphModel.cycles m = []).
  { vm_compute in E. injection E as <-. vm_compute in N. injection N as <- _.
    reflexivity. }
  destruct (cycles_exact g g' m N) as (_ & _ & Hexact & Hsame).
  exists g, m, g'. split; [reflexivity |]. split; [exact N |].
  split; [exact Hnil |]. split; [now apply Hexact |]. apply Hsame. now apply Hexact.
Defined.

(** ** The matcher captures what the groups match *)

Lemma append_nil_r (s : string) : s ++ EmptyString = s.
Proof. induction s as [| c s IH]; simpl; [reflexivity | now rewrite IH]. Qed.

Lemma append_assoc (a b c : string) : (a ++ b) ++ c = a ++ (b ++ c).
Proof. induction a as [| x a IH]; simpl; [reflexivity | now rewrite IH]. Qed.

Lemma length_append (a b : string) :
  String.length (a ++ b) = String.length a + String.length b.
Proof. induction a as [| x a IH]; simpl; [reflexivity | now rewrite IH]. Qed.

Lemma substring_prefix (w post : string) :
  substring 0 (String.length w) (w ++ post) = w.
Proof.
  induction w as [| c w IH]; simpl.
  - destruct post; reflexivity.
  - now rewrite IH.
Qed.

Lemma substring_mid (pre w post : string) :
  substring (String.length pre) (String.length w) (pre ++ w ++ post) = w.
Proof.
  induction pre as [| c pre IH]; simpl; [apply substring_prefix | exact IH].
Qed.

Section MatcherSound.
Variable Q : string -> string -> Prop.

(** What a successful run of a matcher says of the state its continuation
    succeeded from. *)
Let run_spec (r : Regex.t) (st : Regex.state)
    (k : Regex.state -> option Regex.state) (m : Regex.state) : Prop :=
  exists st' w,
    k st' = Some m
    /\ Regex.input st' = Regex.input st
    /\ Regex.rest st = w ++ Regex.rest st'
    /\ Regex.pos st' = Regex.pos st + String.length w
    /\ matches r w
    /\ (captures_ok Q (Regex.captures st) -> captures_ok Q (Regex.captures st')).

Lemma state_wf_step (st st' : Regex.state) (w : string) :
  state_wf st ->
  Regex.input st' = Regex.input st ->
  Regex.rest st = w ++ Regex.rest st' ->
  Regex.pos st' = Regex.pos st + String.length w ->
  state_wf st'.
Proof.
  intros (pre & Hin & Hlen) Hinput Hrest Hpos. exists (pre ++ w). split.
  - rewrite Hinput, Hin, Hrest. now rewrite append_assoc.
  - rewrite length_append. lia.
Qed.

Lemma run_sound (r : Regex.t) : forall st k m,
  groups_ok Q r -> state_wf st ->
  Regex.run r st k = Some m -> run_spec r st k m.
Proof.
  unfold run_spec.
  induction r as [| p | r1 IH1 r2 IH2 | r1 IH1 r2 IH2 | r1 IH1 | name r1 IH1 | |];
    intros st k m Hg Hwf; cbn [Regex.run].
  - intros H. exists st, EmptyString. repeat split; auto. constructor.
  - destruct (Regex.rest st) as [| c s'] eqn:R; [discriminate |].
    destruct (p c) eqn:P; [| discriminate]. intros H.
    eexists. exists (String c EmptyString). split; [exact H |].
    cbn. repeat split; auto; [lia | now constructor].
  - intros H. destruct Hg as [Hg1 Hg2].
    destruct (IH1 _ _ _ Hg1 Hwf H) as (st1 & w1 & H1 & In1 & R1 & P1 & M1 & C1).
    assert (Hwf1 : state_wf st1) by (eapply state_wf_step; eassumption).
    destruct (IH2 _ _ _ Hg2 Hwf1 H1) as (st2 & w2 & H2 & In2 & R2 & P2 & M2 & C2).
    exists st2, (w1 ++ w2). split; [exact H2 |]. split; [congruence |].
    split; [rewrite R1, R2; now rewrite append_assoc |].
    split; [rewrite length_append; lia |].
    split; [now constructor | auto].
  - destruct Hg as [Hg1 Hg2].
    destruct (Regex.run r1 st k) as [m1 |] eqn:E.
    + intros [= <-].
      destruct (IH1 _ _ _ Hg1 Hwf E) as (st1 & w1 & H1 & In1 & R1 & P1 & M1 & C1).
      exists st1, w1. repeat split; auto. now apply matches_or_l.
    + intros H.
      destruct (IH2 _ _ _ Hg2 Hwf H) as (st1 & w1 & H1 & In1 & R1 & P1 & M1 & C1).
      exists st1, w1. repeat split; auto. now apply matches_or_r.
  - cbn in Hg. generalize (String.length (Regex.rest st)). intros n.
    revert st Hwf. induction n as [| n IHn]; intros st Hwf.
    + intros H. exists st, EmptyString. repeat split; auto. constructor.
    + destruct (Regex.run r1 st _) as [m1 |] eqn:E.
      * intros [= <-].
        destruct (IH1 _ _ _ Hg Hwf E) as (st1 & w1 & H1 & In1 & R1 & P1 & M1 & C1).
        destruct (Regex.pos st1 =? Regex.pos st); [discriminate |].
        assert (Hwf1 : state_wf st1) by (eapply state_wf_step; eassumption).
        destruct (IHn st1 Hwf1 H1) as (st2 & w2 & H2 & In2 & R2 & P2 & M2 & C2).
        exists st2, (w1 ++ w2). split; [exact H2 |]. split; [congruence |].
        split; [rewrite R1, R2; now rewrite append_assoc |].
        split; [rewrite length_append; lia |].
        split; [now constructor | auto].
      * intros H. exists st, EmptyString. repeat split; auto. constructor.
  - intros H. destruct Hg as [Hq Hg1].
    destruct (IH1 _ _ _ Hg1 Hwf H) as (st1 & w & H1 & In1 & R1 & P1 & M1 & C1).
    eexists. exists w. split; [exact H1 |].
    cbn [Regex.set_capture Regex.input Regex.rest Regex.pos Regex.captures].
    split; [exact In1 |]. split; [exact R1 |]. split; [exact P1 |].
    split; [now constructor |].
    intros Hc name0 value [[= <- <-] | Hin].
    + destruct Hwf as (pre & Hin & Hlen).
      replace (Regex.pos st1 - Regex.pos st) with (String.length w) by lia.
      rewrite Hin, R1, <- Hlen, substring_mid. now apply Hq.
    + apply filter_In in Hin. destruct Hin as [Hin _]. now apply C1.
  - destruct (Regex.pos st =? 0); [| discriminate].
    intros H. exists st, EmptyString. repeat split; auto. constructor.
  - destruct (Regex.rest st) eqn:R; [| discriminate].
    intros H. exists st, EmptyString. rewrite R. repeat split; auto. constructor.
Qed.

Lemma exec_from_sound (r : Regex.t) (s : string) (m : Regex.state) :
  groups_ok Q r ->
  forall suffix i,
    (exists pre, s = pre ++ suffix /\ String.length pre = i) ->
    Regex.exec_from r s i suffix = Some m ->
    captures_ok Q (Regex.captures m).
Proof.
  intros Hg. induction suffix as [| c suffix IH]; intros i Hpre; cbn [Regex.exec_from].
  - destruct (Regex.run r _ _) as [m1 |] eqn:E; [| discriminate].
    intros [= <-].
    destruct (run_sound r (Regex.mk_state s i EmptyString []) _ _ Hg Hpre E)
      as (st' & w & [= <-] & _ & _ & _ & _ & C).
    apply C. intros name value [].
  - destruct (Regex.run r _ _) as [m1 |] eqn:E.
    + intros [= <-].
      destruct (run_sound r (Regex.mk_state s i (String c suffix) []) _ _ Hg Hpre E)
        as (st' & w & [= <-] & _ & _ & _ & _ & C).
      apply C. intros name value [].
    + apply IH. destruct Hpre as (pre & -> & <-).
      exists (pre ++ String c EmptyString). split.
      * now rewrite append_assoc.
      * rewrite length_append. simpl. lia.
Qed.

(** A group of a match found by [exec] holds a string its pattern
    matches. *)
Lemma exec_group (r : Regex.t) (s : string) (m : Regex.state)
      (name value : string) :
  groups_ok Q r ->
  Regex.exec r s = Some m ->
  Regex.group name m = Some value ->
  Q name value.
Proof.
  intros Hg Hexec Hgroup. unfold Regex.exec in Hexec.
  apply (exec_from_sound r s m Hg) in Hexec; [| now exists EmptyString].
  unfold Regex.group in Hgroup.
  destruct (find _ (Regex.captures m)) as [[k v] |] eqn:F; [| discriminate].
  injection Hgroup as <-. apply find_some in F. destruct F as [Hin Heq].
  cbn in Heq. apply String.eqb_eq in Heq. subst k. now apply Hexec.
Qed.
End MatcherSound.

(** ** What the groups of the parser's patterns capture *)

Ltac invert_matches H := inversion H; subst; clear H.

Lemma matches_star_chars (p : ascii -> bool) (w : string) :
  matches (Star (Char p)) w -> all_chars p w = true.
Proof.
  intros H. remember (Star (Char p)) as r eqn:Hr.
  induction H as [| | | | | r0 | r0 w1 w2 H1 _ H2 IH2 | | |]; try discriminate.
  - reflexivity.
  - injection Hr as ->. invert_matches H1. simpl.
    match goal with P : p _ = true |- _ => rewrite P end.
    now apply IH2.
Qed.

Lemma matches_plus_chars (p : ascii -> bool) (w : string) :
  matches (Plus (Char p)) w -> Js.truthy w = true /\ all_chars p w = true.
Proof.
  unfold Plus. intros H. invert_matches H.
  match goal with H1 : matches (Char p) _ |- _ => invert_matches H1 end.
  match goal with H2 : matches (Star (Char p)) _ |- _ =>
    apply matches_star_chars in H2 end.
  simpl. split; [reflexivity |].
  match goal with P : p _ = true |- _ => rewrite P end. assumption.
Qed.

Lemma matches_lit (c : ascii) (w : string) :
  matches (lit c) w -> w = String c EmptyString.
Proof.
  unfold lit. intros H. invert_matches H.
  match goal with P : Ascii.eqb _ _ = true |- _ => apply Ascii.eqb_eq in P; now subst end.
Qed.

Lemma matches_lit_i (c : ascii) (w : string) :
  matches (lit_i c) w -> Js.toUpperCase w = String (Js.upper c) EmptyString.
Proof.
  unfold lit_i. intros H. invert_matches H.
  match goal with P : Ascii.eqb _ _ = true |- _ => apply Ascii.eqb_eq in P end.
  simpl. congruence.
Qed.

Lemma toUpperCase_append (a b : string) :
  Js.toUpperCase (a ++ b) = Js.toUpperCase a ++ Js.toUpperCase b.
Proof. induction a as [| c a IH]; simpl; [reflexivity | now rewrite IH]. Qed.

Lemma matches_pair_i (a b : ascii) (w : string) :
  matches (Cat (lit_i a) (lit_i b)) w ->
  Js.toUpperCase w = String (Js.upper a) (String (Js.upper b) EmptyString).
Proof.
  intros H. invert_matches H.
  repeat match goal with H1 : matches (lit_i _) _ |- _ => apply matches_lit_i in H1 end.
  rewrite toUpperCase_append.
  repeat match goal with H1 : Js.toUpperCase _ = _ |- _ => rewrite H1; clear H1 end.
  reflexivity.
Qed.

Lemma matches_delimited (c d e : ascii) (w : string) :
  matches (Cat (lit c) (Cat (Star (none_of d)) (lit e))) w ->
  exists rest, w = String c rest /\ rest <> EmptyString.
Proof.
  intros H. invert_matches H.
  match goal with H2 : matches (Cat _ _) _ |- _ => invert_matches H2 end.
  repeat match goal with H1 : matches (lit _) _ |- _ => apply matches_lit in H1 end.
  subst. eexists. split; [reflexivity |].
  match goal with |- ?a ++ _ <> _ => destruct a end; discriminate.
Qed.

Lemma edge_pattern_groups : groups_ok edge_groups EDGE_PATTERN.
Proof.
  unfold EDGE_PATTERN, edge_groups.
  cbn [seq alt groups_ok Plus Opt str lit id_char space dot none_of].
  repeat match goal with
         | |- _ /\ _ => split
         | |- True => exact I
         end;
    intros w H [E | E]; try discriminate E; now apply matches_plus_chars.
Qed.

Lemma node_pattern_groups : groups_ok node_groups NODE_PATTERN.
Proof.
  unfold NODE_PATTERN, node_groups.
  cbn [seq alt groups_ok Plus Opt str lit id_char space dot none_of].
  repeat match goal with
         | |- _ /\ _ => split
         | |- True => exact I
         end;
    try (intros w H; split; intros E; try discriminate E).
  - now apply matches_plus_chars.
  - assert (D : exists c rest,
               In (String c EmptyString) ["["; "("; "{"; ">"]
               /\ w = String c rest /\ rest <> EmptyString).
    { invert_matches H;
        [| match goal with H2 : matches (Or _ _) _ |- _ => invert_matches H2 end;
           [| match goal with H3 : matches (Or _ _) _ |- _ => invert_matches H3 end]];
        match goal with H4 : matches (Cat _ _) _ |- _ =>
          apply matches_delimited in H4; destruct H4 as (rest & -> & Hne) end;
        eexists; exists rest; (split; [| split; [reflexivity | exact Hne]]);
        simpl; tauto. }
    destruct D as (c & rest & Hc & -> & Hne). exists c, rest. auto.
Qed.

Lemma orientation_pattern_groups : groups_ok orientation_groups ORIENTATION_PATTERN.
Proof.
  unfold ORIENTATION_PATTERN, orientation_groups.
  cbn [seq alt groups_ok Plus Opt str_i lit_i space].
  repeat match goal with
         | |- _ /\ _ => split
         | |- True => exact I
         end;
    intros w H E; try discriminate E.
  repeat match goal with
         | H1 : matches (Or _ _) _ |- _ => invert_matches H1
         end;
    match goal with H2 : matches (Cat _ _) _ |- _ =>
      apply matches_pair_i in H2; rewrite H2 end;
    simpl; tauto.
Qed.

(** ** What the scan keeps true *)

Lemma node_ok_line (line line' : nat) (id : string) (node : Node.t) :
  line <= line' -> node_ok line id node -> node_ok line' id node.
Proof.
  unfold node_ok. intros Hle (H1 & H2 & H3 & H4).
  split; [exact H1 |]. split; [exact H2 |]. split; [exact H3 | lia].
Qed.

Lemma edge_ok_line (nodes : JsMap.t Node.t) (line line' : nat) (edge : Edge.t) :
  line <= line' -> edge_ok nodes line edge -> edge_ok nodes line' edge.
Proof.
  unfold edge_ok. intros Hle (H1 & H2 & H3 & H4).
  split; [exact H1 |]. split; [exact H2 |]. split; [exact H3 | lia].
Qed.

Lemma warning_ok_line (line line' : nat) (warning : Warning.t) :
  line <= line' -> warning_ok line warning -> warning_ok line' warning.
Proof.
  unfold warning_ok. intros Hle (H1 & (l & H2 & H3) & H4).
  split; [exact H1 |]. split; [exists l; split; [exact H2 | lia] | exact H4].
Qed.

Lemma parse_inv_with_line (ctx : Ctx.t) (line : nat) :
  Ctx.line ctx <= line -> parse_inv ctx -> parse_inv (Ctx.with_line line ctx).
Proof.
  intros Hle [K N E W O GK G C NG]. constructor; cbn; try assumption.
  - intros id node H. eapply node_ok_line; [exact Hle | now apply N].
  - intros edge H. eapply edge_ok_line; [exact Hle | now apply E].
  - intros warning H. eapply warning_ok_line; [exact Hle | now apply W].
Qed.

(** An edge stays what it is when the nodes are relabelled or joined by
    new ones. *)
Lemma edge_ok_extends (ctx ctx' : Ctx.t) (line : nat) (edge : Edge.t) :
  extends ctx ctx' -> edge_ok (Ctx.nodes ctx) line edge ->
  edge_ok (Ctx.nodes ctx') line edge.
Proof.
  intros (N & _ & _) ((n1 & G1 & L1) & (n2 & G2 & L2) & Hid & Hline).
  destruct (N _ _ G1) as (n1' & G1' & (_ & _ & Hl1 & _)).
  destruct (N _ _ G2) as (n2' & G2' & (_ & _ & Hl2 & _)).
  split; [exists n1'; split; [exact G1' | lia] |].
  split; [exists n2'; split; [exact G2' | lia] |].
  split; assumption.
Qed.

Lemma has_extends (ctx ctx' : Ctx.t) (id : string) :
  extends ctx ctx' ->
  JsMap.has id (Ctx.nodes ctx) = true -> JsMap.has id (Ctx.nodes ctx') = true.
Proof.
  intros (N & _ & _). unfold JsMap.has.
  destruct (JsMap.get id (Ctx.nodes ctx)) as [node |] eqn:G; [| discriminate].
  destruct (N _ _ G) as (node' & -> & _). reflexivity.
Qed.

(** [ensureNode] on a well-formed id, at the current line. *)
Lemma ensureNode_inv (id : string) (ctx : Ctx.t) (shape : option string) :
  parse_inv ctx -> id_ok id -> 1 <= Ctx.line ctx ->
  (forall s, shape = Some s -> decorator_ok s) ->
  let extra := Extra.mk (Some (Ctx.line ctx)) shape in
  let node := fst (FlowMDParser.ensureNode id ctx extra) in
  let ctx' := snd (FlowMDParser.ensureNode id ctx extra) in
  parse_inv ctx'
  /\ JsMap.get id (Ctx.nodes ctx') = Some node
  /\ Node.id node = id
  /\ Node.line node <= Ctx.line ctx
  /\ ctx' = Ctx.with_nodes (Ctx.nodes ctx') ctx.
Proof.
  intros Inv Hid Hline Hshape extra node ctx'.
  pose proof (ensureNode_extends id ctx extra) as Hext. fold ctx' in Hext.
  destruct Inv as [K N E W O GK G C NG].
  assert (Hcase :
            JsMap.get id (Ctx.nodes ctx') = Some node
            /\ Node.id node = id
            /\ node_ok (Ctx.line ctx) id node
            /\ (forall g, Node.group node = Some g ->
                          JsMap.has g (Ctx.groups ctx) = true)
            /\ (ctx' = ctx \/
                ctx' = Ctx.with_nodes (JsMap.set id node (Ctx.nodes ctx)) ctx)).
  { subst node ctx' extra. unfold FlowMDParser.ensureNode. cbn [Extra.shape Extra.line].
    destruct (JsMap.get id (Ctx.nodes ctx)) as [old |] eqn:Get.
    - pose proof (map_get_in _ _ _ _ Get) as Hin.
      pose proof (N _ _ Hin) as (Ho1 & Ho2 & Ho3 & Ho4).
      assert (Hkey : Node.id old = id) by (apply K; exact Hin).
      assert (Hsame : JsMap.get id (Ctx.nodes ctx) = Some old
                      /\ Node.id old = id
                      /\ node_ok (Ctx.line ctx) id old
                      /\ (forall g, Node.group old = Some g ->
                                    JsMap.has g (Ctx.groups ctx) = true)
                      /\ (ctx = ctx \/
                          ctx = Ctx.with_nodes (JsMap.set id old (Ctx.nodes ctx)) ctx)).
      { split; [exact Get |]. split; [exact Hkey |].
        split; [exact (conj Ho1 (conj Ho2 (conj Ho3 Ho4))) |].
        split; [intros g Hg; eapply NG; eassumption | now left]. }
      destruct shape as [[| c s] |]; cbn [fst snd]; try exact Hsame.
      destruct (2 <? String.length (String c s)); cbn [fst snd]; [| exact Hsame].
      cbn [Ctx.nodes Ctx.with_nodes]. rewrite map_get_set_same.
      split; [reflexivity |]. split; [exact Hkey |].
      split; [| split; [intros g Hg; eapply NG; eassumption | now right]].
      split; [exact Ho1 |]. split; [| split; assumption].
      cbn [Node.label Node.with_label].
      destruct (Js.truthy (Js.trim (Js.slice_1_m1 (String c s)))) eqn:T; assumption.
    - cbn [fst snd Ctx.nodes Ctx.with_nodes]. rewrite map_get_set_same.
      split; [reflexivity |]. split; [reflexivity |].
      split; [| split; [intros g Hg; now apply C | now right]].
      split; [exact Hid |]. cbn [Node.label Node.shape Node.line].
      split; [| split; [| lia]].
      + match goal with |- Js.truthy (if Js.truthy ?l then _ else _) = true =>
          destruct (Js.truthy l) eqn:T end; [exact T | apply Hid].
      + destruct shape as [[| c s] |]; try (simpl; tauto).
        destruct (Hshape _ eq_refl) as (c0 & rest & [= <- <-] & Hc & _).
        simpl in Hc |- *. tauto. }
  destruct Hcase as (Hget & Hnid & Hnode & Hgroup & Hctx).
  assert (Hfields : ctx' = Ctx.with_nodes (Ctx.nodes ctx') ctx).
  { destruct Hctx as [-> | ->]; [destruct ctx |]; reflexivity. }
  split; [| split; [exact Hget | split; [exact Hnid | split; [apply Hnode | exact Hfields]]]].
  assert (Hin' : forall id0 node0,
             In (id0, node0) (Ctx.nodes ctx') ->
             (id0, node0) = (id, node) \/ In (id0, node0) (Ctx.nodes ctx)).
  { destruct Hctx as [-> | ->]; [now right |].
    cbn [Ctx.nodes Ctx.with_nodes]. apply map_set_in. }
  rewrite Hfields. constructor; cbn.
  - apply Hext. exact K.
  - intros id0 node0 H. destruct (Hin' _ _ H) as [[= -> ->] | H0];
      [exact Hnode | now apply N].
  - intros edge H. eapply edge_ok_extends; [exact Hext | now apply E].
  - exact W.
  - exact O.
  - exact GK.
  - intros g members H. destruct (G _ _ H) as (H1 & H2 & H3).
    split; [exact H1 |]. split; [exact H2 |].
    intros id0 Hid0. eapply has_extends; [exact Hext | now apply H3].
  - exact C.
  - intros id0 node0 g H Hg. destruct (Hin' _ _ H) as [[= -> ->] | H0];
      [now apply Hgroup | eapply NG; eassumption].
Qed.

Lemma with_nodes_fields (nodes : JsMap.t Node.t) (ctx ctx' : Ctx.t) :
  ctx' = Ctx.with_nodes nodes ctx ->
  Ctx.line ctx' = Ctx.line ctx
  /\ Ctx.edges ctx' = Ctx.edges ctx
  /\ Ctx.groups ctx' = Ctx.groups ctx
  /\ Ctx.currentGroup ctx' = Ctx.currentGroup ctx.
Proof. intros ->. repeat split. Qed.

Lemma has_set_kept (V : Type) (m : JsMap.t V) (k k' : string) (v : V) :
  JsMap.has k' m = true -> JsMap.has k' (JsMap.set k v m) = true.
Proof.
  rewrite !map_has_true, map_keys_set_in. tauto.
Qed.

Lemma get_has (V : Type) (m : JsMap.t V) (k : string) (v : V) :
  JsMap.get k m = Some v -> JsMap.has k m = true.
Proof. unfold JsMap.has. now intros ->. Qed.

Lemma parseEdge_inv (line : string) (ctx : Ctx.t) :
  parse_inv ctx -> 1 <= Ctx.line ctx ->
  parse_inv (snd (FlowMDParser.parseEdge line ctx))
  /\ Ctx.line (snd (FlowMDParser.parseEdge line ctx)) = Ctx.line ctx.
Proof.
  intros Inv Hline. unfold FlowMDParser.parseEdge.
  destruct (Regex.exec EDGE_PATTERN line) as [m |] eqn:X; [| now split].
  destruct (Regex.group "lhs" m) as [lhs |] eqn:L; [| now split].
  destruct (Regex.group "rhs" m) as [rhs |] eqn:R; [| now split].
  assert (Hlhs : id_ok lhs).
  { apply (exec_group edge_groups EDGE_PATTERN line m "lhs" lhs
             edge_pattern_groups X L). now left. }
  assert (Hrhs : id_ok rhs).
  { apply (exec_group edge_groups EDGE_PATTERN line m "rhs" rhs
             edge_pattern_groups X R). now right. }
  assert (Hnone : forall s, @None string = Some s -> decorator_ok s) by discriminate.
  pose proof (ensureNode_inv lhs ctx None Inv Hlhs Hline Hnone) as H1.
  cbv zeta in H1.
  destruct (FlowMDParser.ensureNode lhs ctx _) as [source ctx1]. cbn [fst snd] in H1.
  destruct H1 as (Inv1 & Get1 & Id1 & Line1 & Eq1).
  destruct (with_nodes_fields _ _ _ Eq1) as (Hl1 & _).
  pose proof (ensureNode_inv rhs ctx1 None Inv1 Hrhs) as H2.
  pose proof (ensureNode_extends rhs ctx1 (Extra.mk (Some (Ctx.line ctx1)) None))
    as Hext.
  cbv zeta in H2.
  destruct (FlowMDParser.ensureNode rhs ctx1 _) as [target ctx2]. cbn [fst snd] in *.
  destruct H2 as (Inv2 & Get2 & Id2 & Line2 & Eq2); [lia | exact Hnone |].
  destruct (with_nodes_fields _ _ _ Eq2) as (Hl2 & _).
  split; [| cbn; lia].
  destruct Inv2 as [K N E W O GK G C NG]. constructor; cbn; try assumption.
  intros edge Hin. apply in_app_iff in Hin. destruct Hin as [Hin | [<- | []]].
  - now apply E.
  - unfold edge_ok. cbn. rewrite Id1, Id2.
    destruct Hext as (Hn & _ & _).
    destruct (Hn _ _ Get1) as (source' & Get1' & (_ & _ & Hsl & _)).
    split; [exists source'; split; [exact Get1' | lia] |].
    split; [exists target; split; [exact Get2 | lia] |].
    split; [reflexivity | lia].
Qed.

Lemma parseNode_inv (line : string) (ctx : Ctx.t) :
  parse_inv ctx -> 1 <= Ctx.line ctx ->
  parse_inv (snd (FlowMDParser.parseNode line ctx))
  /\ Ctx.line (snd (FlowMDParser.parseNode line ctx)) = Ctx.line ctx.
Proof.
  intros Inv Hline. unfold FlowMDParser.parseNode.
  destruct (Regex.exec NODE_PATTERN line) as [m |] eqn:X; [| now split].
  destruct (Regex.group "id" m) as [id |] eqn:L; [| now split].
  assert (Hid : id_ok id).
  { now apply (exec_group node_groups NODE_PATTERN line m "id" id
                 node_pattern_groups X L). }
  assert (Hshape : forall s, Regex.group "shape" m = Some s -> decorator_ok s).
  { intros s Hs.
    now apply (exec_group node_groups NODE_PATTERN line m "shape" s
                 node_pattern_groups X Hs). }
  pose proof (ensureNode_inv id ctx (Regex.group "shape" m) Inv Hid Hline Hshape)
    as H1.
  cbv zeta in H1.
  destruct (FlowMDParser.ensureNode id ctx _) as [node ctx1]. cbn [fst snd] in H1.
  destruct H1 as (Inv1 & Get1 & Id1 & Line1 & Eq1).
  destruct (with_nodes_fields _ _ _ Eq1) as (Hl1 & _).
  destruct (Ctx.currentGroup ctx1) as [[| c s] |]; try (split; assumption).
  destruct (JsMap.get (String c s) (Ctx.groups ctx1)) as [members |] eqn:Gg;
    [| split; assumption].
  cbn [snd]. split; [| exact Hl1].
  destruct Inv1 as [K N E W O GK G C NG]. constructor; cbn; try assumption.
  - now apply map_keys_set_nodup.
  - intros g members0 Hin. apply map_set_in in Hin.
    destruct Hin as [[= -> ->] | Hin]; [| now apply G].
    destruct (G _ _ (map_get_in _ _ _ _ Gg)) as (_ & Hnd & Hmem).
    split; [discriminate |]. split; [now apply set_add_nodup |].
    intros id0 Hin0. apply set_add_in in Hin0. destruct Hin0 as [Hin0 | ->].
    + now apply Hmem.
    + rewrite Id1. eapply get_has, Get1.
  - intros g Hg. apply has_set_kept. now apply C.
  - intros id0 node0 g Hin Hg. apply has_set_kept. eapply NG; eassumption.
Qed.

(** ** The subgraph line

    A trimmed line that [SUBGRAPH_PATTERN] accepts has a second piece that
    is not empty: [parseSubgraph] never meets an empty name. *)

Lemma trimEnd_no_trailing : forall (x p u : string),
  Js.trimEnd x = p ++ u -> all_chars Js.is_space u = true -> u = EmptyString.
Proof.
  induction x as [| c x IH]; intros p u; cbn [Js.trimEnd].
  - destruct p; cbn [append]; [intros <- _; reflexivity | discriminate].
  - destruct (Js.trimEnd x) as [| d t] eqn:E.
    + destruct (Js.is_space c) eqn:S.
      * destruct p; cbn [append]; [intros <- _; reflexivity | discriminate].
      * destruct p as [| c' p]; cbn [append].
        -- intros <-. cbn [all_chars]. rewrite S. discriminate.
        -- intros [= _ H] _. destruct p; cbn [append] in H; [now subst u | discriminate H].
    + destruct p as [| c' p]; cbn [append].
      * intros <-. cbn [all_chars]. intros H.
        apply andb_true_iff in H. destruct H as [_ H].
        specialize (IH EmptyString (String d t) eq_refl H). discriminate IH.
      * intros [= _ H]. now apply (IH p u).
Qed.

Lemma split_ws_spaces (sp r cur : string) :
  all_chars Js.is_space sp = true ->
  Js.split_ws_aux (sp ++ r) cur true = Js.split_ws_aux r cur true.
Proof.
  induction sp as [| c sp IH]; cbn [append all_chars Js.split_ws_aux];
    [reflexivity |].
  intros H. apply andb_true_iff in H. destruct H as [-> H]. now apply IH.
Qed.

Lemma split_ws_word : forall (kw r cur : string),
  all_chars (fun c => negb (Js.is_space c)) kw = true ->
  Js.split_ws_aux (kw ++ r) cur false = Js.split_ws_aux r (cur ++ kw) false.
Proof.
  induction kw as [| c kw IH]; intros r cur; cbn [append all_chars Js.split_ws_aux].
  - now rewrite append_nil_r.
  - intros H. apply andb_true_iff in H. destruct H as [Hc H].
    apply negb_true_iff in Hc. rewrite Hc. rewrite (IH r _ H).
    now rewrite append_assoc.
Qed.

Lemma split_ws_token : forall (s cur : string),
  exists more rest tl,
    s = more ++ rest
    /\ all_chars (fun c => negb (Js.is_space c)) more = true
    /\ (rest = EmptyString \/ exists c r, rest = String c r /\ Js.is_space c = true)
    /\ Js.split_ws_aux s cur false = (cur ++ more) :: tl.
Proof.
  induction s as [| d s IH]; intros cur; cbn [Js.split_ws_aux].
  - exists EmptyString, EmptyString, []. rewrite (append_nil_r cur).
    split; [reflexivity |]. split; [reflexivity |]. split; [now left | reflexivity].
  - destruct (Js.is_space d) eqn:D.
    + exists EmptyString, (String d s), (Js.split_ws_aux s EmptyString true).
      rewrite (append_nil_r cur).
      split; [reflexivity |]. split; [reflexivity |].
      split; [right; now exists d, s | reflexivity].
    + destruct (IH (cur ++ String d EmptyString)) as (more & rest & tl & -> & Hm & Hr & ->).
      exists (String d more), rest, tl. cbn [append all_chars]. rewrite D.
      split; [reflexivity |]. split; [exact Hm |]. split; [exact Hr |].
      now rewrite append_assoc.
Qed.

Lemma trim_word (t : string) :
  all_chars (fun c => negb (Js.is_space c)) t = true -> Js.trim t = t.
Proof.
  intros H. unfold Js.trim.
  assert (Hstart : Js.trimStart t = t).
  { destruct t as [| c t]; [reflexivity |]. cbn [all_chars Js.trimStart] in *.
    apply andb_true_iff in H. destruct H as [Hc _].
    apply negb_true_iff in Hc. now rewrite Hc. }
  rewrite Hstart. induction t as [| c t IH]; [reflexivity |].
  cbn [all_chars] in H. apply andb_true_iff in H. destruct H as [Hc H].
  apply negb_true_iff in Hc. cbn [Js.trimEnd].
  rewrite IH; [| exact H |].
  - destruct t; [now rewrite Hc | reflexivity].
  - destruct t as [| d t]; [reflexivity |]. cbn [all_chars Js.trimStart] in *.
    apply andb_true_iff in H. destruct H as [Hd _].
    apply negb_true_iff in Hd. now rewrite Hd.
Qed.

Lemma all_chars_append (p : ascii -> bool) (a b : string) :
  all_chars p (a ++ b) = all_chars p a && all_chars p b.
Proof.
  induction a as [| c a IH]; cbn [append all_chars]; [reflexivity |].
  now rewrite IH, andb_assoc.
Qed.

Lemma first_not_space : forall (s : string),
  all_chars Js.is_space s = false ->
  exists sp c r, s = sp ++ String c r
                 /\ all_chars Js.is_space sp = true /\ Js.is_space c = false.
Proof.
  induction s as [| c s IH]; cbn [all_chars]; [discriminate |].
  destruct (Js.is_space c) eqn:S; cbn [andb].
  - intros H. destruct (IH H) as (sp & c' & r & -> & Hsp & Hc).
    exists (String c sp), c', r. cbn [append all_chars]. rewrite S. now split.
  - intros _. exists EmptyString, c, s. now split.
Qed.

Lemma upper_space (c : ascii) : Js.is_space (Js.upper c) = Js.is_space c.
Proof. destruct c as [[] [] [] [] [] [] [] []]; reflexivity. Qed.

Lemma toUpperCase_spaces (w : string) :
  all_chars (fun c => negb (Js.is_space c)) (Js.toUpperCase w)
  = all_chars (fun c => negb (Js.is_space c)) w.
Proof.
  induction w as [| c w IH]; cbn [Js.toUpperCase all_chars]; [reflexivity |].
  now rewrite upper_space, IH.
Qed.

Lemma matches_cat_inv (r1 r2 : Regex.t) (w : string) :
  matches (Cat r1 r2) w ->
  exists a b, w = a ++ b /\ matches r1 a /\ matches r2 b.
Proof. intros H. inversion H; subst. eauto. Qed.

Lemma matches_str_i : forall (s w : string),
  matches (str_i s) w -> Js.toUpperCase w = Js.toUpperCase s.
Proof.
  induction s as [| c s IH]; intros w.
  - cbn [str_i]. intros H. invert_matches H. reflexivity.
  - destruct s as [| d s].
    + cbn [str_i]. intros H. apply matches_lit_i in H. exact H.
    + change (str_i (String c (String d s)))
        with (Cat (lit_i c) (str_i (String d s))).
      intros H. invert_matches H.
      match goal with
      | H1 : matches (lit_i _) ?a, H2 : matches _ ?b
        |- Js.toUpperCase (?a ++ ?b) = _ =>
          apply matches_lit_i in H1; apply IH in H2;
          rewrite toUpperCase_append, H1, H2
      end.
      reflexivity.
Qed.

(** A pattern that starts with [^] matches at the index 0 only. *)
Lemma exec_from_bol (r : Regex.t) (s : string) : forall suffix i,
  i <> 0 -> Regex.exec_from (Cat Bol r) s i suffix = None.
Proof.
  induction suffix as [| c suffix IH]; intros i Hi; cbn [Regex.exec_from Regex.run];
    cbn [Regex.pos]; destruct (Nat.eqb_spec i 0) as [-> | _]; try contradiction.
  - reflexivity.
  - now apply IH.
Qed.

Lemma exec_bol (r : Regex.t) (s : string) (m : Regex.state) :
  Regex.exec (Cat Bol r) s = Some m ->
  Regex.run r (Regex.mk_state s 0 s []) (fun st => Some st) = Some m.
Proof.
  unfold Regex.exec.
  destruct s as [| c s]; cbn [Regex.exec_from Regex.run]; cbn [Regex.pos Nat.eqb].
  - now destruct (Regex.run r _ _).
  - destruct (Regex.run r _ _) as [m1 |]; [trivial |].
    now rewrite exec_from_bol.
Qed.

Lemma subgraph_line_shape (line : string) :
  Regex.test SUBGRAPH_PATTERN line = true ->
  exists kw ws rest,
    line = kw ++ ws ++ rest
    /\ all_chars (fun c => negb (Js.is_space c)) kw = true
    /\ Js.toUpperCase kw = "SUBGRAPH"
    /\ Js.truthy ws = true /\ all_chars Js.is_space ws = true.
Proof.
  unfold Regex.test.
  destruct (Regex.exec SUBGRAPH_PATTERN line) as [m |] eqn:E; [intros _ | discriminate].
  apply exec_bol in E.
  pose proof (run_sound (fun _ _ => True)
                        (Cat (str_i "subgraph") (Plus space))
                        (Regex.mk_state line 0 line []) (fun st => Some st) m) as H.
  cbv zeta in H.
  destruct H as (st' & w & _ & _ & Hrest & _ & Hm & _);
    [cbn; tauto | now exists EmptyString | exact E |].
  cbn [Regex.rest] in Hrest.
  apply matches_cat_inv in Hm. destruct Hm as (kw & ws & -> & Hkw & Hws).
  apply matches_str_i in Hkw. apply matches_plus_chars in Hws.
  destruct Hws as [Hws1 Hws2].
  exists kw, ws, (Regex.rest st'). split; [now rewrite append_assoc in Hrest |].
  split; [rewrite <- toUpperCase_spaces, Hkw; reflexivity |].
  split; [exact Hkw |]. now split.
Qed.

(** The name [parseSubgraph] reads from a trimmed line that the subgraph
    pattern accepts: the characters after the first run of white space, up
    to the next white space. *)
Lemma subgraph_name (rawLine : string) :
  Regex.test SUBGRAPH_PATTERN (Js.trim rawLine) = true ->
  exists kw ws name rest,
    Js.trim rawLine = kw ++ ws ++ name ++ rest
    /\ Js.toUpperCase kw = "SUBGRAPH"
    /\ Js.truthy ws = true /\ all_chars Js.is_space ws = true
    /\ Js.truthy name = true
    /\ all_chars (fun c => negb (Js.is_space c)) name = true
    /\ (rest = EmptyString \/ exists c r, rest = String c r /\ Js.is_space c = true)
    /\ nth_error (Js.split_ws (Js.trim rawLine) 2) 1 = Some name
    /\ Js.trim name = name.
Proof.
  intros Htest.
  destruct (subgraph_line_shape _ Htest)
    as (kw & ws & rest & Hline & Hkw & Hkw' & Hws1 & Hws2).
  assert (Hrest : all_chars Js.is_space rest = false).
  { destruct (all_chars Js.is_space rest) eqn:R; [| reflexivity].
    assert (Hu : all_chars Js.is_space (ws ++ rest) = true).
    { rewrite all_chars_append, Hws2, R. reflexivity. }
    pose proof (trimEnd_no_trailing _ kw (ws ++ rest) Hline Hu) as Hnil.
    destruct ws; [discriminate Hws1 | discriminate Hnil]. }
  destruct (first_not_space rest Hrest) as (sp & c & r & -> & Hsp & Hc).
  destruct ws as [| s0 ws]; [discriminate Hws1 |].
  cbn [all_chars] in Hws2. apply andb_true_iff in Hws2. destruct Hws2 as [Hs0 Hws2].
  destruct (split_ws_token r (String c EmptyString))
    as (more & rest & tl & -> & Hmore & Hr & Htok).
  cbn [append] in Htok.
  assert (Hname : all_chars (fun c => negb (Js.is_space c)) (String c more) = true).
  { cbn [all_chars]. now rewrite Hc, Hmore. }
  exists kw, (String s0 (ws ++ sp)), (String c more), rest.
  split.
  { rewrite Hline. cbn [append]. now rewrite append_assoc. }
  split; [exact Hkw' |]. split; [reflexivity |].
  split; [cbn [all_chars]; now rewrite Hs0, all_chars_append, Hws2, Hsp |].
  split; [reflexivity |]. split; [exact Hname |]. split; [exact Hr |].
  split; [| now apply trim_word].
  assert (Hsplit : Js.split_ws_aux (Js.trim rawLine) EmptyString false
                   = kw :: String c more :: tl).
  { rewrite Hline, (split_ws_word kw _ EmptyString Hkw).
    cbn [append Js.split_ws_aux]. rewrite Hs0.
    rewrite (split_ws_spaces ws _ EmptyString Hws2).
    rewrite (split_ws_spaces sp _ EmptyString Hsp).
    cbn [Js.split_ws_aux]. rewrite Hc. cbn [append]. now rewrite Htok. }
  unfold Js.split_ws. rewrite Hsplit. reflexivity.
Qed.

Lemma parseSubgraph_inv (rawLine : string) (ctx : Ctx.t) :
  Regex.test SUBGRAPH_PATTERN (Js.trim rawLine) = true ->
  parse_inv ctx -> 1 <= Ctx.line ctx ->
  parse_inv (snd (FlowMDParser.parseSubgraph (Js.trim rawLine) ctx))
  /\ Ctx.line (snd (FlowMDParser.parseSubgraph (Js.trim rawLine) ctx)) = Ctx.line ctx
  /\ (forall g, fst (FlowMDParser.parseSubgraph (Js.trim rawLine) ctx) = Some g ->
                JsMap.has g
                  (Ctx.groups (snd (FlowMDParser.parseSubgraph (Js.trim rawLine) ctx)))
                = true).
Proof.
  intros Htest Inv Hline. unfold FlowMDParser.parseSubgraph.
  destruct (subgraph_name rawLine Htest)
    as (_ & _ & name & _ & _ & _ & _ & _ & Hname & _ & _ & -> & ->).
  destruct name as [| c s]; [discriminate Hname |].
  destruct (JsMap.has (String c s) (Ctx.groups ctx)) eqn:Has; cbn [negb fst snd].
  - split; [exact Inv |]. split; [reflexivity |]. now intros g [= <-].
  - split; [| split; [reflexivity |]].
    + destruct Inv as [K N E W O GK G C NG]. constructor; cbn; try assumption.
      * now apply map_keys_set_nodup.
      * intros g members Hin. apply map_set_in in Hin.
        destruct Hin as [[= -> ->] | Hin]; [| now apply G].
        split; [discriminate |]. split; [constructor | intros id []].
      * intros g Hg. apply has_set_kept. now apply C.
      * intros id node g Hin Hg. apply has_set_kept. eapply NG; eassumption.
    + intros g [= <-]. cbn. eapply get_has, map_get_set_same.
Qed.

Lemma parseHeader_inv (line : string) (ctx ctx' : Ctx.t) :
  parse_inv ctx ->
  FlowMDParser.parseHeader line ctx = Ok ctx' ->
  parse_inv ctx' /\ Ctx.line ctx' = Ctx.line ctx.
Proof.
  intros Inv. unfold FlowMDParser.parseHeader.
  destruct (Regex.exec ORIENTATION_PATTERN line) as [m |] eqn:X; [| discriminate].
  intros [= <-]. split; [| reflexivity].
  destruct Inv as [K N E W O GK G C NG]. constructor; cbn; try assumption.
  destruct (Regex.group "2" m) as [[| c s] |] eqn:D; try (simpl; tauto).
  now apply (exec_group orientation_groups ORIENTATION_PATTERN line m "2"
               (String c s) orientation_pattern_groups X D).
Qed.

Lemma parseLine_inv (index : nat) (rawLine : string) (ctx ctx' : Ctx.t) :
  parse_inv ctx -> Ctx.line ctx <= index ->
  FlowMDParser.parseLine index rawLine ctx = Ok ctx' ->
  parse_inv ctx' /\ Ctx.line ctx' = index + 1.
Proof.
  intros Inv Hle. unfold FlowMDParser.parseLine.
  set (ctx0 := Ctx.with_line (index + 1) ctx).
  assert (Inv0 : parse_inv ctx0) by (apply parse_inv_with_line; [lia | exact Inv]).
  assert (Hl0 : Ctx.line ctx0 = index + 1) by reflexivity.
  assert (H1 : 1 <= Ctx.line ctx0) by (rewrite Hl0; lia).
  destruct (negb (Js.truthy (Js.trim rawLine)) || Js.startsWith (Js.trim rawLine) "%%").
  { intros [= <-]. now split. }
  destruct (negb (Ctx.orientationParsed ctx0)).
  { intros H. destruct (parseHeader_inv _ _ _ Inv0 H) as [Hi Hl]. split; [exact Hi | lia]. }
  destruct (Regex.test SUBGRAPH_PATTERN (Js.trim rawLine)) eqn:Hsub.
  { pose proof (parseSubgraph_inv rawLine ctx0 Hsub Inv0 H1) as (Hi & Hl & Hg).
    destruct (FlowMDParser.parseSubgraph (Js.trim rawLine) ctx0) as [g ctx1].
    cbn [fst snd] in *. intros [= <-]. split; [| cbn; lia].
    destruct Hi as [K N E W O GK G C NG]. constructor; cbn; assumption. }
  destruct (Regex.test END_PATTERN (Js.trim rawLine)).
  { intros [= <-]. split; [| reflexivity].
    destruct Inv0 as [K N E W O GK G C NG]. constructor; cbn; try assumption.
    discriminate. }
  pose proof (parseEdge_inv (Js.trim rawLine) ctx0 Inv0 H1) as (Hi1 & Hl1).
  destruct (FlowMDParser.parseEdge (Js.trim rawLine) ctx0) as [isEdge ctx1].
  cbn [snd] in *. destruct isEdge.
  { intros [= <-]. split; [exact Hi1 | lia]. }
  pose proof (parseNode_inv (Js.trim rawLine) ctx1 Hi1) as H2.
  destruct (FlowMDParser.parseNode (Js.trim rawLine) ctx1) as [isNode ctx2].
  cbn [snd] in *. destruct H2 as (Hi2 & Hl2); [lia |].
  destruct isNode; intros [= <-]; [split; [exact Hi2 | lia] |].
  split; [| cbn; lia].
  destruct Hi2 as [K N E W O GK G C NG]. constructor; cbn; try assumption.
  intros warning Hin. apply in_app_iff in Hin.
  destruct Hin as [Hin | [<- | []]]; [now apply W |].
  unfold warning_ok. cbn. split; [reflexivity |].
  split; [exists (Ctx.line ctx2); split; [reflexivity | lia] | reflexivity].
Qed.

Lemma scan_inv (lines : list string) : forall index ctx ctx',
  parse_inv ctx -> Ctx.line ctx <= index ->
  FlowMDParser.scan index lines ctx = Ok ctx' ->
  parse_inv ctx' /\ Ctx.line ctx' <= index + List.length lines.
Proof.
  induction lines as [| rawLine lines IH]; intros index ctx ctx' Inv Hle; simpl.
  - intros [= <-]. split; [exact Inv | lia].
  - destruct (FlowMDParser.parseLine index rawLine ctx) as [ctx1 | e] eqn:E;
      [| discriminate].
    destruct (parseLine_inv _ _ _ _ Inv Hle E) as [Inv1 Hl1].
    assert (Hle1 : Ctx.line ctx1 <= S index) by lia.
    intros H. destruct (IH _ _ _ Inv1 Hle1 H) as [Inv' Hl']. split; [exact Inv' | lia].
Qed.

Lemma initial_inv : parse_inv Ctx.initial.
Proof.
  constructor; cbn; try (intros; contradiction); try discriminate.
  - split; [constructor | intros k node []].
  - tauto.
  - constructor.
Qed.

(** The context a successful parse finishes from. *)
Lemma parse_scanned (self : FlowMDParser.t) (source : string) (g : Graph.t) :
  FlowMDParser.parse self (JsString source) = Ok g ->
  exists ctx,
    parse_inv ctx
    /\ Ctx.line ctx <= List.length (Js.split_lines source)
    /\ Graph.nodes g = JsMap.values (Ctx.nodes ctx)
    /\ Graph.edges g = Ctx.edges ctx
    /\ Meta.warnings (Graph.meta g) = Ctx.warnings ctx
    /\ Meta.orientation (Graph.meta g) = Ctx.orientation ctx
    /\ Meta.groups (Graph.meta g) = FlowMDParser.groupsObject (Ctx.groups ctx).
Proof.
  unfold FlowMDParser.parse.
  destruct (FlowMDParser.scan 0 (Js.split_lines source) Ctx.initial)
    as [ctx | e] eqn:E; [| discriminate].
  unfold FlowMDParser.finish. destruct (Meta.overflow _); [discriminate |].
  intros [= <-]. exists ctx.
  destruct (scan_inv _ _ _ _ initial_inv (Nat.le_refl 0) E) as [Inv Hl].
  split; [exact Inv |]. split; [exact Hl |]. repeat split.
Qed.

(** ** The documents [parse] returns *)

Lemma values_in (V : Type) (m : JsMap.t V) (v : V) :
  In v (JsMap.values m) <-> exists k, In (k, v) m.
Proof.
  unfold JsMap.values. rewrite in_map_iff. split.
  - intros ([k v0] & <- & Hin). now exists k.
  - intros (k & Hin). now exists (k, v).
Qed.

(** Every record of a parsed document has an id of one character of
    [[A-Za-z0-9_\-]] or more, a label that is not empty, a shape that is
    the default [[]] or one of the four opening delimiters, and the number
    of a line of the text. *)
Theorem parsed_nodes_wellformed
        (self : FlowMDParser.t) (source : string) (g : Graph.t) (node : Node.t) :
  FlowMDParser.parse self (JsString source) = Ok g ->
  In node (Graph.nodes g) ->
  id_ok (Node.id node)
  /\ Node.label node <> EmptyString
  /\ In (Node.shape node) ["[]"; "["; "("; "{"; ">"]
  /\ 1 <= Node.line node <= List.length (Js.split_lines source).
Proof.
  intros Hparse Hin.
  destruct (parse_scanned self source g Hparse) as (ctx & Inv & Hl & Hn & _).
  rewrite Hn in Hin. apply values_in in Hin. destruct Hin as (id & Hin).
  destruct Inv as [K N E W O GK G C NG].
  destruct (N _ _ Hin) as (H1 & H2 & H3 & H4).
  assert (Hid : Node.id node = id) by (apply K; exact Hin).
  rewrite Hid. split; [exact H1 |]. split; [| split; [exact H3 | lia]].
  intros Hempty. rewrite Hempty in H2. discriminate H2.
Qed.

Lemma parsed_nodes_wellformed_witness :
  exists g node,
    FlowMDParser.parse FlowMDParser.default
      (JsString (text_of ["graph LR"; "svc-1(  Service one  )"; "svc-1-->db_2"])) = Ok g
    /\ In node (Graph.nodes g)
    /\ Node.id node = "svc-1" /\ Node.label node = "Service one"
    /\ Node.shape node = "("
    /\ id_ok (Node.id node).
Proof.
  destruct (FlowMDParser.parse FlowMDParser.default
              (JsString (text_of ["graph LR"; "svc-1(  Service one  )"; "svc-1-->db_2"])))
    as [g | e] eqn:E; [| vm_compute in E; discriminate E].
  exists g, (Node.mk "svc-1" "Service one" "(" 2 None).
  assert (Hin : In (Node.mk "svc-1" "Service one" "(" 2 None) (Graph.nodes g)).
  { vm_compute in E. injection E as <-. now left. }
  split; [reflexivity |]. split; [exact Hin |].
  split; [reflexivity |]. split; [reflexivity |]. split; [reflexivity |].
  apply (parsed_nodes_wellformed FlowMDParser.default _ g _ E Hin).
Defined.

(** Every edge of a parsed document joins two records of the document,
    each made at the line of the edge or before; its id is the source, the
    arrow and the target; its line is a line of the text. *)
Theorem parsed_edges_declared
        (self : FlowMDParser.t) (source : string) (g : Graph.t) (edge : Edge.t) :
  FlowMDParser.parse self (JsString source) = Ok g ->
  In edge (Graph.edges g) ->
  (exists from, In from (Graph.nodes g) /\ Node.id from = Edge.source edge
                /\ Node.line from <= Edge.line edge)
  /\ (exists to, In to (Graph.nodes g) /\ Node.id to = Edge.target edge
                 /\ Node.line to <= Edge.line edge)
  /\ Edge.id edge = Edge.source edge ++ "->" ++ Edge.target edge
  /\ 1 <= Edge.line edge <= List.length (Js.split_lines source).
Proof.
  intros Hparse Hin.
  destruct (parse_scanned self source g Hparse) as (ctx & Inv & Hl & Hn & He & _).
  rewrite He in Hin. destruct Inv as [K N E W O GK G C NG].
  destruct (E _ Hin) as ((n1 & G1 & L1) & (n2 & G2 & L2) & Hid & Hline).
  apply map_get_in in G1, G2. rewrite Hn.
  split; [exists n1; split; [apply values_in; eauto | split; [now apply K | exact L1]] |].
  split; [exists n2; split; [apply values_in; eauto | split; [now apply K | exact L2]] |].
  split; [exact Hid | lia].
Qed.

Lemma parsed_edges_declared_witness :
  exists g edge,
    FlowMDParser.parse FlowMDParser.default (JsString cycle_text) = Ok g
    /\ In edge (Graph.edges g)
    /\ Edge.id edge = "C->A"
    /\ (exists from, In from (Graph.nodes g) /\ Node.id from = Edge.source edge
                     /\ Node.line from <= Edge.line edge).
Proof.
  destruct (FlowMDParser.parse FlowMDParser.default (JsString cycle_text))
    as [g | e] eqn:E; [| vm_compute in E; discriminate E].
  exists g, (Edge.mk "C->A" "C" "A" "" 4).
  assert (Hin : In (Edge.mk "C->A" "C" "A" "" 4) (Graph.edges g)).
  { vm_compute in E. injection E as <-. right. right. now left. }
  split; [reflexivity |]. split; [exact Hin |]. split; [reflexivity |].
  apply (parsed_edges_declared FlowMDParser.default _ g _ E Hin).
Defined.

(** The orientation of a parsed document is one of TB, TD, BT, RL and LR,
    whatever the case the header is written in. *)
Theorem parsed_orientation (self : FlowMDParser.t) (source : string) (g : Graph.t) :
  FlowMDParser.parse self (JsString source) = Ok g ->
  In (Meta.orientation (Graph.meta g)) ["TB"; "TD"; "BT"; "RL"; "LR"].
Proof.
  intros Hparse.
  destruct (parse_scanned self source g Hparse)
    as (ctx & Inv & _ & _ & _ & _ & Ho & _).
  rewrite Ho. apply Inv.
Qed.

Lemma parsed_orientation_witness :
  exists g,
    FlowMDParser.parse FlowMDParser.default (JsString (text_of ["FlowChart rl"]))
    = Ok g
    /\ Meta.orientation (Graph.meta g) = "RL"
    /\ In (Meta.orientation (Graph.meta g)) ["TB"; "TD"; "BT"; "RL"; "LR"].
Proof.
  destruct (FlowMDParser.parse FlowMDParser.default
              (JsString (text_of ["FlowChart rl"])))
    as [g | e] eqn:E; [| vm_compute in E; discriminate E].
  exists g. split; [reflexivity |].
  split; [vm_compute in E; injection E as <-; reflexivity |].
  apply (parsed_orientation FlowMDParser.default _ g E).
Defined.

(** Every warning of a parsed document is an unrecognised statement, with
    the number of a line of the text and without nodes: the warning of an
    empty subgraph name is never given. *)
Theorem parsed_warnings
        (self : FlowMDParser.t) (source : string) (g : Graph.t)
        (warning : Warning.t) :
  FlowMDParser.parse self (JsString source) = Ok g ->
  In warning (Meta.warnings (Graph.meta g)) ->
  Warning.message warning = "Unrecognised statement"
  /\ (exists l, Warning.line warning = Some l
                /\ 1 <= l <= List.length (Js.split_lines source))
  /\ Warning.nodes warning = None.
Proof.
  intros Hparse Hin.
  destruct (parse_scanned self source g Hparse)
    as (ctx & Inv & Hl & _ & _ & Hw & _).
  rewrite Hw in Hin. destruct Inv as [K N E W O GK G C NG].
  destruct (W _ Hin) as (H1 & (l & H2 & H3) & H4).
  split; [exact H1 |]. split; [exists l; split; [exact H2 | lia] | exact H4].
Qed.

Lemma parsed_warnings_witness :
  exists g warning,
    FlowMDParser.parse FlowMDParser.default
      (JsString (text_of ["graph TB"; "A --> B"; "A -> B"])) = Ok g
    /\ In warning (Meta.warnings (Graph.meta g))
    /\ warning = Warning.mk "Unrecognised statement" (Some 3) None
    /\ Warning.nodes warning = None.
Proof.
  destruct (FlowMDParser.parse FlowMDParser.default
              (JsString (text_of ["graph TB"; "A --> B"; "A -> B"])))
    as [g | e] eqn:E; [| vm_compute in E; discriminate E].
  exists g, (Warning.mk "Unrecognised statement" (Some 3) None).
  assert (Hin : In (Warning.mk "Unrecognised statement" (Some 3) None)
                   (Meta.warnings (Graph.meta g))).
  { vm_compute in E. injection E as <-. now left. }
  split; [reflexivity |]. split; [exact Hin |]. split; [reflexivity |].
  apply (parsed_warnings FlowMDParser.default _ g _ E Hin).
Defined.

(** ** The groups of a parsed document *)

Lemma map_set_new (V : Type) (m : JsMap.t V) (k : string) (v : V) :
  JsMap.has k m = false -> JsMap.set k v m = (m ++ [(k, v)])%list.
Proof.
  unfold JsMap.has. induction m as [| [k' v'] m IH]; simpl; [reflexivity |].
  destruct (String.eqb k k'); [discriminate |].
  intros H. now rewrite IH.
Qed.

(** The object [groups] has the entries of the map of the groups, in
    their order, but for a group named [__proto__]. *)
Lemma groupsObject_entries (groups : JsMap.t JsSet.t) :
  NoDup (JsMap.keys groups) ->
  FlowMDParser.groupsObject groups
  = filter (fun entry => negb (String.eqb (fst entry) "__proto__")) groups.
Proof.
  unfold FlowMDParser.groupsObject.
  assert (H : forall (acc : JsMap.t (list string)),
             NoDup (JsMap.keys groups) ->
             (forall k, In k (JsMap.keys acc) -> ~ In k (JsMap.keys groups)) ->
             fold_left (fun obj entry =>
                          FlowMDParser.object_set (fst entry) (snd entry) obj)
                       groups acc
             = (acc ++ filter (fun entry => negb (String.eqb (fst entry) "__proto__"))
                              groups)%list).
  { induction groups as [| [k v] groups IH]; intros acc Hnd Hdis; simpl.
    - now rewrite app_nil_r.
    - inversion Hnd as [| ? ? Hk Hrest]; subst.
      unfold FlowMDParser.object_set at 2. cbn [fst snd].
      destruct (String.eqb k "__proto__"); cbn [negb].
      + apply IH; [exact Hrest |]. intros k0 H0 H1. apply (Hdis k0 H0). now right.
      + rewrite map_set_new.
        * rewrite IH; [now rewrite <- app_assoc | exact Hrest |].
          intros k0 H0 H1. unfold JsMap.keys in H0. rewrite map_app in H0.
          apply in_app_iff in H0. destruct H0 as [H0 | [<- | []]].
          -- apply (Hdis k0 H0). now right.
          -- contradiction.
        * destruct (JsMap.has k acc) eqn:E; [| reflexivity].
          apply map_has_true in E. exfalso. apply (Hdis k E). now left. }
  intros Hnd. rewrite (H [] Hnd); [reflexivity | intros k []].
Qed.

(** The groups of a parsed document have names that are not empty, each
    once, and list ids of records of the document, each once; the group of
    a record is a group of the document, unless the group is named
    [__proto__], which the document does not keep. *)
Theorem parsed_groups (self : FlowMDParser.t) (source : string) (g : Graph.t) :
  FlowMDParser.parse self (JsString source) = Ok g ->
  NoDup (JsMap.keys (Meta.groups (Graph.meta g)))
  /\ (forall name members,
         In (name, members) (Meta.groups (Graph.meta g)) ->
         name <> EmptyString /\ name <> "__proto__" /\ NoDup members
         /\ forall id, In id members ->
                       exists node, In node (Graph.nodes g) /\ Node.id node = id)
  /\ (forall node name,
         In node (Graph.nodes g) -> Node.group node = Some name ->
         name = "__proto__"
         \/ JsMap.has name (Meta.groups (Graph.meta g)) = true).
Proof.
  intros Hparse.
  destruct (parse_scanned self source g Hparse)
    as (ctx & Inv & _ & Hn & _ & _ & _ & Hg).
  destruct Inv as [K N E W O GK G C NG].
  rewrite Hg, Hn, (groupsObject_entries _ GK).
  split; [| split].
  - unfold JsMap.keys in *. clear - GK.
    induction (Ctx.groups ctx) as [| [k v] l IH]; simpl; [constructor |].
    inversion GK as [| ? ? Hk Hrest]; subst.
    destruct (String.eqb k "__proto__"); simpl; [now apply IH |].
    constructor; [| now apply IH].
    intros Hin. apply Hk. apply in_map_iff in Hin.
    destruct Hin as (e & <- & He). apply filter_In in He.
    apply in_map. apply He.
  - intros name members Hin. apply filter_In in Hin. destruct Hin as [Hin Hp].
    cbn in Hp. destruct (G _ _ Hin) as (H1 & H2 & H3).
    split; [exact H1 |]. split; [| split; [exact H2 |]].
    + intros ->. discriminate Hp.
    + intros id Hid. specialize (H3 id Hid). unfold JsMap.has in H3.
      destruct (JsMap.get id (Ctx.nodes ctx)) as [node |] eqn:Get; [| discriminate].
      apply map_get_in in Get. exists node.
      split; [apply values_in; eauto | now apply K].
  - intros node name Hin Hgroup. apply values_in in Hin. destruct Hin as (id & Hin).
    pose proof (NG _ _ _ Hin Hgroup) as Hhas.
    destruct (String.eqb name "__proto__") eqn:P;
      [left; now apply String.eqb_eq | right].
    apply map_has_true in Hhas. apply map_has_true.
    unfold JsMap.keys in *. apply in_map_iff in Hhas.
    destruct Hhas as ([k v] & <- & He). cbn in P |- *.
    apply (in_map fst _ (k, v)). apply filter_In. split; [exact He |].
    cbn. now rewrite P.
Qed.

Lemma parsed_groups_witness :
  exists g,
    FlowMDParser.parse FlowMDParser.default
      (JsString (text_of ["graph TB"; "subgraph __proto__"; "A"; "end";
                          "subgraph Core"; "B"; "A"; "end"])) = Ok g
    /\ map Node.group (Graph.nodes g) = [Some "__proto__"; Some "Core"]
    /\ Meta.groups (Graph.meta g) = [("Core", ["B"; "A"])]
    /\ NoDup (JsMap.keys (Meta.groups (Graph.meta g))).
Proof.
  destruct (FlowMDParser.parse FlowMDParser.default
              (JsString (text_of ["graph TB"; "subgraph __proto__"; "A"; "end";
                                  "subgraph Core"; "B"; "A"; "end"])))
    as [g | e] eqn:E; [| vm_compute in E; discriminate E].
  exists g. split; [reflexivity |].
  split; [vm_compute in E; injection E as <-; reflexivity |].
  split; [vm_compute in E; injection E as <-; reflexivity |].
  apply (parsed_groups FlowMDParser.default _ g E).
Defined.

(** ** The graph model of a parsed document *)

Lemma seed_keys_exact (nodes : list Node.t) : forall map : GraphModel.Adjacency,
  NoDup (JsMap.keys map ++ List.map Node.id nodes) ->
  JsMap.keys (fold_left (fun map node => JsMap.set (Node.id node) [] map) nodes map)
  = (JsMap.keys map ++ List.map Node.id nodes)%list.
Proof.
  induction nodes as [| node nodes IH]; intros map Hnd; simpl.
  - now rewrite app_nil_r.
  - assert (Hnew : JsMap.has (Node.id node) map = false).
    { destruct (JsMap.has (Node.id node) map) eqn:E; [| reflexivity].
      apply map_has_true in E. apply NoDup_remove_2 in Hnd.
      exfalso. apply Hnd. apply in_app_iff. now left. }
    assert (Hk : JsMap.keys (JsMap.set (Node.id node) [] map)
                 = (JsMap.keys map ++ [Node.id node])%list).
    { rewrite map_keys_set. unfold JsSet.t in *. now rewrite Hnew. }
    etransitivity; [apply IH |].
    + unfold JsSet.t in *. rewrite Hk, <- app_assoc. exact Hnd.
    + unfold JsSet.t in *. rewrite Hk, <- app_assoc. reflexivity.
Qed.

Lemma addEdge_keys_kept (map : GraphModel.Adjacency) (edge : Edge.t) :
  JsMap.has (Edge.source edge) map = true ->
  JsMap.has (Edge.target edge) map = true ->
  JsMap.keys (GraphModel.addEdge map edge) = JsMap.keys map.
Proof.
  intros Hs Ht. unfold GraphModel.addEdge. unfold JsSet.t in *.
  rewrite Hs. cbv beta iota zeta delta [negb].
  rewrite Ht. cbv beta iota zeta delta [negb].
  match goal with |- context [match ?x with Some _ => _ | None => _ end] =>
    destruct x end; [| reflexivity].
  now rewrite map_keys_set, Hs.
Qed.

Lemma addEdges_keys_kept (edges : list Edge.t) : forall map : GraphModel.Adjacency,
  (forall edge, In edge edges ->
                In (Edge.source edge) (JsMap.keys map)
                /\ In (Edge.target edge) (JsMap.keys map)) ->
  JsMap.keys (fold_left GraphModel.addEdge edges map) = JsMap.keys map.
Proof.
  induction edges as [| edge edges IH]; intros map H; simpl; [reflexivity |].
  destruct (H edge (or_introl eq_refl)) as [Hs Ht].
  assert (Hk : JsMap.keys (GraphModel.addEdge map edge) = JsMap.keys map).
  { apply addEdge_keys_kept; now apply map_has_true. }
  rewrite IH; [exact Hk |]. intros e He. rewrite Hk. apply H. now right.
Qed.

Lemma find_unique (nodes : list Node.t) (node : Node.t) :
  NoDup (map Node.id nodes) -> In node nodes ->
  find (fun n => String.eqb (Node.id n) (Node.id node)) nodes = Some node.
Proof.
  induction nodes as [| n nodes IH]; [intros _ [] |].
  simpl. intros Hnd Hin. inversion Hnd as [| ? ? Hn Hrest]; subst.
  destruct Hin as [-> | Hin]; [now rewrite String.eqb_refl |].
  destruct (String.eqb (Node.id n) (Node.id node)) eqn:E; [| now apply IH].
  apply String.eqb_eq in E. exfalso. apply Hn. rewrite E. now apply in_map.
Qed.

Lemma targets_keyed_set (map : GraphModel.Adjacency) (k : string) (vs : JsSet.t) :
  (forall k0 vs0 t, In (k0, vs0) map -> In t vs0 -> In t (JsMap.keys map)) ->
  (forall t, In t vs -> In t (JsMap.keys map) \/ t = k) ->
  forall k0 vs0 t, In (k0, vs0) (JsMap.set k vs map) -> In t vs0 ->
                   In t (JsMap.keys (JsMap.set k vs map)).
Proof.
  intros Hmap Hvs k0 vs0 t Hin Ht. apply map_keys_set_in.
  apply map_set_in in Hin. destruct Hin as [[= -> ->] | Hin].
  - now apply Hvs.
  - left. eapply Hmap; eassumption.
Qed.

Lemma addEdge_targets (map : GraphModel.Adjacency) (edge : Edge.t) :
  (forall k vs t, In (k, vs) map -> In t vs -> In t (JsMap.keys map)) ->
  forall k vs t, In (k, vs) (GraphModel.addEdge map edge) -> In t vs ->
                 In t (JsMap.keys (GraphModel.addEdge map edge)).
Proof.
  intros Hmap. unfold GraphModel.addEdge.
  set (map1 := if negb (JsMap.has (Edge.source edge) map)
               then JsMap.set (Edge.source edge) [] map else map).
  set (map2 := if negb (JsMap.has (Edge.target edge) map1)
               then JsMap.set (Edge.target edge) [] map1 else map1).
  assert (H1 : forall k vs t, In (k, vs) map1 -> In t vs -> In t (JsMap.keys map1)).
  { subst map1. destruct (negb (JsMap.has (Edge.source edge) map)); [| exact Hmap].
    apply targets_keyed_set; [exact Hmap | intros t []]. }
  assert (H2 : forall k vs t, In (k, vs) map2 -> In t vs -> In t (JsMap.keys map2)).
  { subst map2. destruct (negb (JsMap.has (Edge.target edge) map1)); [| exact H1].
    apply targets_keyed_set; [exact H1 | intros t []]. }
  assert (Ht : In (Edge.target edge) (JsMap.keys map2)).
  { subst map2. destruct (JsMap.has (Edge.target edge) map1) eqn:E; cbn [negb].
    - now apply map_has_true.
    - apply map_keys_set_in. now right. }
  destruct (JsMap.get (Edge.source edge) map2) as [successors |] eqn:G; [| exact H2].
  apply targets_keyed_set; [exact H2 |].
  intros t Hin. apply set_add_in in Hin. destruct Hin as [Hin | ->].
  - left. eapply H2; [eapply map_get_in, G | exact Hin].
  - now left.
Qed.

(** Every successor the adjacency lists is a key of the adjacency. *)
Lemma buildAdjacency_successors (nodes : list Node.t) (edges : list Edge.t)
      (k s : string) :
  In s (succ_of (GraphModel.buildAdjacency nodes edges) k) ->
  In s (JsMap.keys (GraphModel.buildAdjacency nodes edges)).
Proof.
  assert (H : forall k vs t,
             In (k, vs) (GraphModel.buildAdjacency nodes edges) -> In t vs ->
             In t (JsMap.keys (GraphModel.buildAdjacency nodes edges))).
  { unfold GraphModel.buildAdjacency.
    assert (Hseed : forall (map : GraphModel.Adjacency),
               (forall k vs t, In (k, vs) map -> In t vs -> In t (JsMap.keys map)) ->
               forall k vs t,
                 In (k, vs) (fold_left (fun map node => JsMap.set (Node.id node) [] map)
                                       nodes map) ->
                 In t vs ->
                 In t (JsMap.keys
                         (fold_left (fun map node => JsMap.set (Node.id node) [] map)
                                    nodes map))).
    { induction nodes as [| node nodes IH]; intros map Hmap; simpl; [exact Hmap |].
      apply IH. apply targets_keyed_set; [exact Hmap | intros t []]. }
    assert (Hedges : forall (map : GraphModel.Adjacency),
               (forall k vs t, In (k, vs) map -> In t vs -> In t (JsMap.keys map)) ->
               forall k vs t,
                 In (k, vs) (fold_left GraphModel.addEdge edges map) -> In t vs ->
                 In t (JsMap.keys (fold_left GraphModel.addEdge edges map))).
    { induction edges as [| edge edges IH]; intros map Hmap; simpl; [exact Hmap |].
      apply IH. now apply addEdge_targets. }
    apply Hedges, Hseed. intros k0 vs t []. }
  unfold succ_of.
  destruct (JsMap.get k (GraphModel.buildAdjacency nodes edges)) as [vs |] eqn:G;
    [| intros []].
  intros Hin. eapply H; [eapply map_get_in, G | exact Hin].
Qed.

(** In the graph model of a parsed document the keys of the adjacency are
    the ids of the records, in their order: no end of an edge is without a
    record, and [findNode] finds the record of every key and of every
    successor. *)
Theorem model_of_parsed
        (self : FlowMDParser.t) (source : string) (g g' : Graph.t)
        (m : GraphModel.t) :
  FlowMDParser.parse self (JsString source) = Ok g ->
  GraphModel.new g = Some (m, g') ->
  JsMap.keys (GraphModel.adjacency m) = map Node.id (GraphModel.nodes m)
  /\ (forall node, In node (GraphModel.nodes m) ->
                   GraphModel.findNode m (Node.id node) = Some node)
  /\ (forall id s, In s (GraphModel.successors m id) ->
                   exists node, GraphModel.findNode m s = Some node
                                /\ Node.id node = s).
Proof.
  intros Hparse Hnew.
  destruct (parse_scanned self source g Hparse)
    as (ctx & Inv & _ & Hn & He & _).
  destruct Inv as [K N E W O GK G C NG].
  assert (Hids : map Node.id (Graph.nodes g) = JsMap.keys (Ctx.nodes ctx)).
  { rewrite Hn. now apply nodes_keyed_ids. }
  assert (Hnd : NoDup (map Node.id (Graph.nodes g))).
  { rewrite Hids. apply K. }
  pose proof (new_adjacency g g' m Hnew) as Hadj.
  assert (Hnodes : GraphModel.nodes m = Graph.nodes g).
  { unfold GraphModel.new in Hnew.
    destruct (GraphModel.detectCycles _); [| discriminate].
    now injection Hnew as <- _. }
  assert (Hkeys : JsMap.keys (GraphModel.adjacency m) = map Node.id (Graph.nodes g)).
  { rewrite Hadj. unfold GraphModel.buildAdjacency.
    pose proof (seed_keys_exact (Graph.nodes g) [] Hnd) as Hseed.
    etransitivity; [apply addEdges_keys_kept | exact Hseed].
    intros edge Hin. rewrite He in Hin.
    destruct (E _ Hin) as ((n1 & G1 & _) & (n2 & G2 & _) & _).
    assert (H1 : In (Edge.source edge) (map Node.id (Graph.nodes g))).
    { rewrite Hids. apply map_has_true. eapply get_has. exact G1. }
    assert (H2 : In (Edge.target edge) (map Node.id (Graph.nodes g))).
    { rewrite Hids. apply map_has_true. eapply get_has. exact G2. }
    split.
    - exact (eq_ind_r (fun l => In (Edge.source edge) l) H1 Hseed).
    - exact (eq_ind_r (fun l => In (Edge.target edge) l) H2 Hseed). }
  rewrite Hnodes. split; [exact Hkeys |]. split.
  - intros node Hin. unfold GraphModel.findNode. rewrite Hnodes.
    now apply find_unique.
  - intros id s Hs.
    assert (Hkey : In s (JsMap.keys (GraphModel.adjacency m))).
    { rewrite Hadj. apply buildAdjacency_successors with (k := id).
      unfold GraphModel.successors in Hs. rewrite Hadj in Hs. exact Hs. }
    rewrite Hkeys in Hkey. apply in_map_iff in Hkey.
    destruct Hkey as (node & <- & Hin). exists node. split; [| reflexivity].
    unfold GraphModel.findNode. rewrite Hnodes. now apply find_unique.
Qed.

Lemma model_of_parsed_witness :
  exists g m g',
    FlowMDParser.parse FlowMDParser.default (JsString dag_text) = Ok g
    /\ GraphModel.new g = Some (m, g')
    /\ JsMap.keys (GraphModel.adjacency m) = ["A"; "B"; "C"; "D"]
    /\ JsMap.keys (GraphModel.adjacency m) = map Node.id (GraphModel.nodes m).
Proof.
  destruct (FlowMDParser.parse FlowMDParser.default (JsString dag_text))
    as [g | e] eqn:E; [| vm_compute in E; discriminate E].
  destruct (GraphModel.new g) as [[m g'] |] eqn:N;
    [| vm_compute in E; injection E as <-; vm_compute in N; discriminate N].
  exists g, m, g'. split; [reflexivity |]. split; [exact N |].
  split; [| apply (model_of_parsed FlowMDParser.default dag_text g g' m E N)].
  vm_compute in E. injection E as <-. vm_compute in N. injection N as <- _.
  reflexivity.
Defined.


(** ** Where the successors of the adjacency come from *)

Lemma origin_set (P : string -> string -> Prop)
      (map : GraphModel.Adjacency) (k : string) (vs : JsSet.t) :
  (forall k0 vs0 t, In (k0, vs0) map -> In t vs0 -> P k0 t) ->
  (forall t, In t vs -> P k t) ->
  forall k0 vs0 t, In (k0, vs0) (JsMap.set k vs map) -> In t vs0 -> P k0 t.
Proof.
  intros Hmap Hvs k0 vs0 t Hin Ht.
  apply map_set_in in Hin. destruct Hin as [[= -> ->] | Hin].
  - now apply Hvs.
  - eapply Hmap; eassumption.
Qed.

Lemma addEdge_origin (P : string -> string -> Prop)
      (map : GraphModel.Adjacency) (edge : Edge.t) :
  (forall k vs t, In (k, vs) map -> In t vs -> P k t) ->
  P (Edge.source edge) (Edge.target edge) ->
  forall k vs t, In (k, vs) (GraphModel.addEdge map edge) -> In t vs -> P k t.
Proof.
  intros Hmap Hedge. unfold GraphModel.addEdge.
  set (map1 := if negb (JsMap.has (Edge.source edge) map)
               then JsMap.set (Edge.source edge) [] map else map).
  set (map2 := if negb (JsMap.has (Edge.target edge) map1)
               then JsMap.set (Edge.target edge) [] map1 else map1).
  assert (H1 : forall k vs t, In (k, vs) map1 -> In t vs -> P k t).
  { subst map1. destruct (negb (JsMap.has (Edge.source edge) map)); [| exact Hmap].
    apply origin_set; [exact Hmap | intros t []]. }
  assert (H2 : forall k vs t, In (k, vs) map2 -> In t vs -> P k t).
  { subst map2. destruct (negb (JsMap.has (Edge.target edge) map1)); [| exact H1].
    apply origin_set; [exact H1 | intros t []]. }
  destruct (JsMap.get (Edge.source edge) map2) as [successors |] eqn:G; [| exact H2].
  apply origin_set; [exact H2 |].
  intros t Hin. apply set_add_in in Hin. destruct Hin as [Hin | ->].
  - eapply H2; [eapply map_get_in, G | exact Hin].
  - exact Hedge.
Qed.

(** Every successor the adjacency lists was put there by an edge. *)
Lemma buildAdjacency_edges (nodes : list Node.t) (edges : list Edge.t)
      (k s : string) :
  In s (succ_of (GraphModel.buildAdjacency nodes edges) k) ->
  exists edge, In edge edges /\ Edge.source edge = k /\ Edge.target edge = s.
Proof.
  set (P := fun k t => exists edge,
                 In edge edges /\ Edge.source edge = k /\ Edge.target edge = t).
  assert (H : forall k vs t,
             In (k, vs) (GraphModel.buildAdjacency nodes edges) -> In t vs -> P k t).
  { unfold GraphModel.buildAdjacency.
    assert (Hseed : forall (map : GraphModel.Adjacency),
               (forall k vs t, In (k, vs) map -> In t vs -> P k t) ->
               forall k vs t,
                 In (k, vs) (fold_left (fun map node => JsMap.set (Node.id node) [] map)
                                       nodes map) ->
                 In t vs -> P k t).
    { induction nodes as [| node nodes IH]; intros map Hmap; simpl; [exact Hmap |].
      apply IH. apply origin_set; [exact Hmap | intros t []]. }
    assert (Hedges : forall es (map : GraphModel.Adjacency),
               incl es edges ->
               (forall k vs t, In (k, vs) map -> In t vs -> P k t) ->
               forall k vs t,
                 In (k, vs) (fold_left GraphModel.addEdge es map) -> In t vs -> P k t).
    { induction es as [| edge es IH]; intros map Hincl Hmap; simpl; [exact Hmap |].
      apply IH; [intros e He; apply Hincl; now right |].
      apply addEdge_origin; [exact Hmap |].
      exists edge. split; [apply Hincl; now left | now split]. }
    apply (Hedges edges); [apply incl_refl |]. apply Hseed. intros k0 vs t []. }
  unfold succ_of.
  destruct (JsMap.get k (GraphModel.buildAdjacency nodes edges)) as [vs |] eqn:G;
    [| intros []].
  intros Hin. eapply H; [eapply map_get_in, G | exact Hin].
Qed.

(** ** Downstream sets *)

(** What [downstream] returns from a start id that is not empty. *)
Lemma downstream_spec (model : GraphModel.t) (c : ascii) (s : string) :
  exists r,
    HighlightEngine.downstream model (Some (String c s)) = Some r
    /\ (forall n, In n (HighlightEngine.nodes r) <-> reach model (String c s) n)
    /\ (forall e, In e (HighlightEngine.edges r)
                  <-> exists n s', reach model (String c s) n
                                   /\ In s' (GraphModel.successors model n)
                                   /\ e = edgeKey n s')
    /\ NoDup (HighlightEngine.nodes r)
    /\ NoDup (HighlightEngine.edges r).
Proof.
  unfold HighlightEngine.downstream.
  set (startId := String c s).
  set (st0 := HighlightEngine.mk_state [] [] [startId]).
  destruct (loop_returns model (HighlightEngine.fuelFor model) st0)
    as (st & Hloop & Hq).
  { unfold HighlightEngine.fuelFor, st0.
    cbn [HighlightEngine.queue HighlightEngine.visited List.length].
    rewrite pending_nil. lia. }
  rewrite Hloop.
  assert (H0 : bfs_inv model startId st0).
  { constructor; cbn.
    - intros x [[] | [<- | []]]. constructor.
    - right. now left.
    - intros x s0 [].
    - intros e [].
    - constructor.
    - constructor. }
  destruct (loop_inv model startId _ st0 st Hloop H0) as [Hinv _].
  eexists. split; [reflexivity |].
  cbn [HighlightEngine.nodes HighlightEngine.edges].
  pose proof (inv_complete model startId st Hinv Hq) as Hcomplete.
  destruct Hinv as [Hr Hs Hc He Hnn Hne].
  split; [| split; [| split]]; try assumption.
  - intros n. split; [intros H; apply Hr; now left | apply Hcomplete].
  - intros e. split.
    + intros H. destruct (He e H) as (x & s' & Hx & Hsucc & ->).
      exists x, s'. split; [apply Hr; now left | now split].
    + intros (x & s' & Hx & Hsucc & ->). eapply Hc; [apply Hcomplete |]; eassumption.
Qed.

Lemma reach_trans (model : GraphModel.t) (a b n : string) :
  reach model a b -> reach model b n -> reach model a n.
Proof.
  intros Hab Hbn. induction Hbn as [| x s Hx IH Hs]; [exact Hab |].
  eapply reach_step; eassumption.
Qed.

(** The downstream sets nest: from a node of the downstream set of [a],
    [downstream] returns nodes and edges of the downstream set of [a]
    only. *)
Theorem downstream_nested
        (model : GraphModel.t) (a b : string)
        (ra rb : HighlightEngine.Result) :
  HighlightEngine.downstream model (Some a) = Some ra ->
  HighlightEngine.downstream model (Some b) = Some rb ->
  In b (HighlightEngine.nodes ra) ->
  incl (HighlightEngine.nodes rb) (HighlightEngine.nodes ra)
  /\ incl (HighlightEngine.edges rb) (HighlightEngine.edges ra).
Proof.
  intros Ha Hb Hin.
  destruct a as [| ca sa]; [injection Ha as <-; destruct Hin |].
  destruct b as [| cb sb].
  { injection Hb as <-. split; intros x []. }
  destruct (downstream_spec model ca sa) as (ra' & Ha' & Hna & Hea & _).
  destruct (downstream_spec model cb sb) as (rb' & Hb' & Hnb & Heb & _).
  rewrite Ha in Ha'. injection Ha' as <-. rewrite Hb in Hb'. injection Hb' as <-.
  apply Hna in Hin. split.
  - intros n Hn. apply Hna. eapply reach_trans; [exact Hin | now apply Hnb].
  - intros e He. apply Hea. apply Heb in He.
    destruct He as (n & s' & Hn & Hs & ->). exists n, s'.
    split; [eapply reach_trans; eassumption | now split].
Qed.

Lemma downstream_nested_witness :
  exists g m g' ra rb,
    FlowMDParser.parse FlowMDParser.default (JsString dag_text) = Ok g
    /\ GraphModel.new g = Some (m, g')
    /\ HighlightEngine.downstream m (Some "A") = Some ra
    /\ HighlightEngine.downstream m (Some "B") = Some rb
    /\ HighlightEngine.nodes rb = ["B"; "D"]
    /\ incl (HighlightEngine.nodes rb) (HighlightEngine.nodes ra).
Proof.
  destruct (FlowMDParser.parse FlowMDParser.default (JsString dag_text))
    as [g | e] eqn:E; [| vm_compute in E; discriminate E].
  destruct (GraphModel.new g) as [[m g'] |] eqn:N;
    [| vm_compute in E; injection E as <-; vm_compute in N; discriminate N].
  destruct (HighlightEngine.downstream m (Some "A")) as [ra |] eqn:A.
  2:{ vm_compute in E. injection E as <-. vm_compute in N. injection N as <- _.
      vm_compute in A. discriminate A. }
  destruct (HighlightEngine.downstream m (Some "B")) as [rb |] eqn:B.
  2:{ vm_compute in E. injection E as <-. vm_compute in N. injection N as <- _.
      vm_compute in B. discriminate B. }
  assert (Hb : HighlightEngine.nodes rb = ["B"; "D"]
               /\ In "B" (HighlightEngine.nodes ra)).
  { vm_compute in E. injection E as <-. vm_compute in N.
    injection N as <- _. vm_compute in A, B. injection A as <-. injection B as <-.
    split; [reflexivity | right; now left]. }
  exists g, m, g', ra, rb. split; [reflexivity |]. split; [exact N |].
  split; [exact A |]. split; [exact B |]. split; [apply Hb |].
  apply (downstream_nested m "A" "B" ra rb A B). apply Hb.
Defined.

(** From a node of a parsed document, [downstream] returns ids of records
    of the document only: [findNode] finds every node of the result, and
    every edge key of the result is the id of an edge of the document. *)
Theorem downstream_of_parsed
        (self : FlowMDParser.t) (source : string) (g g' : Graph.t)
        (m : GraphModel.t) (start : Node.t) (r : HighlightEngine.Result) :
  FlowMDParser.parse self (JsString source) = Ok g ->
  GraphModel.new g = Some (m, g') ->
  In start (Graph.nodes g) ->
  HighlightEngine.downstream m (Some (Node.id start)) = Some r ->
  In (Node.id start) (HighlightEngine.nodes r)
  /\ (forall n, In n (HighlightEngine.nodes r) ->
                exists node, GraphModel.findNode m n = Some node
                             /\ Node.id node = n)
  /\ (forall e, In e (HighlightEngine.edges r) ->
                exists edge, In edge (Graph.edges g) /\ Edge.id edge = e).
Proof.
  intros Hparse Hnew Hstart Hdown.
  destruct (parse_scanned self source g Hparse)
    as (ctx & Inv & _ & Hn & He & _).
  destruct Inv as [K N E W O GK G C NG].
  assert (Hids : map Node.id (Graph.nodes g) = JsMap.keys (Ctx.nodes ctx)).
  { rewrite Hn. now apply nodes_keyed_ids. }
  assert (Hnd : NoDup (map Node.id (Graph.nodes g))) by (rewrite Hids; apply K).
  assert (Hnodes : GraphModel.nodes m = Graph.nodes g).
  { unfold GraphModel.new in Hnew.
    destruct (GraphModel.detectCycles _); [| discriminate].
    now injection Hnew as <- _. }
  pose proof (new_adjacency g g' m Hnew) as Hadj.
  assert (Hstartid : id_ok (Node.id start)).
  { rewrite Hn in Hstart. apply values_in in Hstart. destruct Hstart as (k & Hin).
    replace (Node.id start) with k by (symmetry; now apply K). apply (N _ _ Hin). }
  destruct (Node.id start) as [| c s] eqn:Eid; [destruct Hstartid; discriminate |].
  destruct (downstream_spec m c s) as (r' & Hr' & Hnr & Her & _).
  rewrite Hdown in Hr'. injection Hr' as <-.
  assert (Hfind : forall node, In node (Graph.nodes g) ->
                               GraphModel.findNode m (Node.id node) = Some node).
  { intros node Hin. unfold GraphModel.findNode. rewrite Hnodes.
    now apply find_unique. }
  (* an edge of the adjacency is an edge of the document *)
  assert (Hedge : forall n s', In s' (GraphModel.successors m n) ->
                               exists edge, In edge (Graph.edges g)
                                            /\ Edge.source edge = n
                                            /\ Edge.target edge = s').
  { intros n s' Hs. unfold GraphModel.successors in Hs. rewrite Hadj in Hs.
    exact (buildAdjacency_edges (Graph.nodes g) (Graph.edges g) n s' Hs). }
  split; [apply Hnr; constructor |]. split.
  - intros n Hin. apply Hnr in Hin.
    assert (Hnode : exists node, In node (Graph.nodes g) /\ Node.id node = n).
    { destruct Hin as [| x s' Hx Hs].
      - exists start. split; [exact Hstart | exact Eid].
      - destruct (Hedge _ _ Hs) as (edge & Hin & _ & <-).
        rewrite He in Hin. destruct (E _ Hin) as (_ & (n2 & G2 & _) & _).
        apply map_get_in in G2. exists n2.
        split; [rewrite Hn; apply values_in; eauto | now apply K]. }
    destruct Hnode as (node & Hin' & <-). exists node. now split; [apply Hfind |].
  - intros e Hin. apply Her in Hin. destruct Hin as (n & s' & _ & Hs & ->).
    destruct (Hedge _ _ Hs) as (edge & Hin & <- & <-). exists edge.
    split; [exact Hin |]. rewrite He in Hin. apply (E _ Hin).
Qed.


Lemma downstream_of_parsed_witness :
  exists g m g' start r,
    FlowMDParser.parse FlowMDParser.default (JsString dag_text) = Ok g
    /\ GraphModel.new g = Some (m, g')
    /\ In start (Graph.nodes g)
    /\ Node.id start = "B"
    /\ HighlightEngine.downstream m (Some (Node.id start)) = Some r
    /\ (forall n, In n (HighlightEngine.nodes r) ->
                  exists node, GraphModel.findNode m n = Some node
                               /\ Node.id node = n).
Proof.
  destruct (FlowMDParser.parse FlowMDParser.default (JsString dag_text))
    as [g | e] eqn:E; [| vm_compute in E; discriminate E].
  destruct (GraphModel.new g) as [[m g'] |] eqn:N;
    [| vm_compute in E; injection E as <-; vm_compute in N; discriminate N].
  assert (Hstart : exists start, In start (Graph.nodes g) /\ Node.id start = "B").
  { vm_compute in E. injection E as <-. eexists.
    split; [right; left; reflexivity | reflexivity]. }
  destruct Hstart as (start & Hin & Hid).
  destruct (HighlightEngine.downstream m (Some (Node.id start))) as [r |] eqn:D.
  2:{ rewrite Hid in D. vm_compute in E. injection E as <-. vm_compute in N.
      injection N as <- _. vm_compute in D. discriminate D. }
  exists g, m, g', start, r. split; [reflexivity |]. split; [exact N |].
  split; [exact Hin |]. split; [exact Hid |]. split; [exact D |].
  apply (downstream_of_parsed FlowMDParser.default dag_text g g' m start r E N Hin D).
Defined.


(** ** The name of a subgraph *)

(** On a trimmed line that the subgraph pattern accepts, [parseSubgraph]
    always finds a name: the characters that follow the first run of white
    space, up to the next white space or the end of the line. The name is
    a group of the context afterwards, and no warning is given. *)
Theorem subgraph_line_names_group (rawLine : string) (ctx : Ctx.t) :
  Regex.test SUBGRAPH_PATTERN (Js.trim rawLine) = true ->
  exists kw ws name rest,
    Js.trim rawLine = kw ++ ws ++ name ++ rest
    /\ Js.toUpperCase kw = "SUBGRAPH"
    /\ Js.truthy ws = true /\ all_chars Js.is_space ws = true
    /\ Js.truthy name = true
    /\ all_chars (fun c => negb (Js.is_space c)) name = true
    /\ (rest = EmptyString \/ exists c r, rest = String c r /\ Js.is_space c = true)
    /\ fst (FlowMDParser.parseSubgraph (Js.trim rawLine) ctx) = Some name
    /\ Ctx.warnings (snd (FlowMDParser.parseSubgraph (Js.trim rawLine) ctx))
       = Ctx.warnings ctx
    /\ JsMap.has name
         (Ctx.groups (snd (FlowMDParser.parseSubgraph (Js.trim rawLine) ctx))) = true.
Proof.
  intros Htest.
  destruct (subgraph_name rawLine Htest)
    as (kw & ws & name & rest & Hline & Hkw & Hws1 & Hws2 & Hn1 & Hn2 & Hrest
        & Hnth & Htrim).
  exists kw, ws, name, rest.
  split; [exact Hline |]. split; [exact Hkw |]. split; [exact Hws1 |].
  split; [exact Hws2 |]. split; [exact Hn1 |]. split; [exact Hn2 |].
  split; [exact Hrest |].
  unfold FlowMDParser.parseSubgraph. rewrite Hnth, Htrim.
  destruct name as [| c s]; [discriminate Hn1 |].
  destruct (JsMap.has (String c s) (Ctx.groups ctx)) eqn:Has; cbn [negb fst snd].
  - split; [reflexivity |]. split; [reflexivity | exact Has].
  - split; [reflexivity |]. split; [reflexivity |].
    cbn. eapply get_has, map_get_set_same.
Qed.

Lemma subgraph_line_names_group_witness :
  Regex.test SUBGRAPH_PATTERN (Js.trim "  SubGraph   My Group ") = true
  /\ fst (FlowMDParser.parseSubgraph (Js.trim "  SubGraph   My Group ") Ctx.initial)
     = Some "My"
  /\ exists kw ws name rest,
      Js.trim "  SubGraph   My Group " = kw ++ ws ++ name ++ rest
      /\ Js.toUpperCase kw = "SUBGRAPH"
      /\ Js.truthy ws = true /\ all_chars Js.is_space ws = true
      /\ Js.truthy name = true
      /\ all_chars (fun c => negb (Js.is_space c)) name = true
      /\ (rest = EmptyString \/ exists c r, rest = String c r /\ Js.is_space c = true)
      /\ fst (FlowMDParser.parseSubgraph (Js.trim "  SubGraph   My Group ") Ctx.initial)
         = Some name
      /\ Ctx.warnings
           (snd (FlowMDParser.parseSubgraph (Js.trim "  SubGraph   My Group ")
                                            Ctx.initial))
         = Ctx.warnings Ctx.initial
      /\ JsMap.has name
           (Ctx.groups
              (snd (FlowMDParser.parseSubgraph (Js.trim "  SubGraph   My Group ")
                                               Ctx.initial))) = true.
Proof.
  split; [reflexivity |]. split; [reflexivity |].
  apply (subgraph_line_names_group "  SubGraph   My Group " Ctx.initial).
  reflexivity.
Defined.


(** ** A text without statements *)

Lemma scan_all_skipped (lines : list string) : forall index ctx,
  Forall (fun l => isSkipped l = true) lines ->
  exists ctx', FlowMDParser.scan index lines ctx = Ok ctx'
               /\ forall k, Ctx.with_line k ctx' = Ctx.with_line k ctx.
Proof.
  induction lines as [| l lines IH]; intros index ctx Hall; cbn [FlowMDParser.scan].
  - exists ctx. now split.
  - inversion Hall as [| ? ? Hl Hrest]; subst.
    rewrite (parseLine_skipped index l ctx Hl).
    destruct (IH (S index) (Ctx.with_line (index + 1) ctx) Hrest) as (ctx' & -> & Hk).
    exists ctx'. split; [reflexivity |]. intros k. rewrite Hk. apply with_line_twice.
Qed.

Lemma finish_with_line (self : FlowMDParser.t) (k : nat) (ctx : Ctx.t) :
  FlowMDParser.finish self (Ctx.with_line k ctx) = FlowMDParser.finish self ctx.
Proof. reflexivity. Qed.

(** A text of blank lines and comments only (the empty text is one) needs
    no header: [parse] returns the empty document, top to bottom, unless
    the hard limit is negative; then it throws the error of the node
    count, with the limit in its message (stated for a limit that is a
    safe integer, as the rendering of numbers is modelled for those). *)
Theorem parse_blank_text (self : FlowMDParser.t) (source : string) :
  Forall (fun l => isSkipped l = true) (Js.split_lines source) ->
  ((0 <= FlowMDParser.maxNodes self)%Z ->
   FlowMDParser.parse self (JsString source)
   = Ok (Graph.mk [] []
           (Meta.mk "TB"
                    (FlowMDParser.preferredMaxNodes self)
                    (FlowMDParser.maxNodes self)
                    [] [] []
                    (0 >? FlowMDParser.preferredMaxNodes self)%Z
                    false)))
  /\ ((FlowMDParser.maxNodes self < 0)%Z ->
      (exists e, FlowMDParser.parse self (JsString source) = Throw e
                 /\ FlowMDError.name e = "FlowMDError"
                 /\ FlowMDError.line e = None)
      /\ (Js.isSafeInteger (FlowMDParser.maxNodes self) = true ->
          FlowMDParser.parse self (JsString source)
          = Throw (FlowMDError.mk "FlowMDError"
                     ("Node count 0 exceeds hard limit "
                      ++ Js.show_Z (FlowMDParser.maxNodes self))
                     None))).
Proof.
  intros Hall. unfold FlowMDParser.parse.
  destruct (scan_all_skipped (Js.split_lines source) 0 Ctx.initial Hall)
    as (ctx' & -> & Hk).
  rewrite <- (finish_with_line self 0 ctx'), Hk, finish_with_line.
  unfold FlowMDParser.finish.
  cbn [Ctx.initial Ctx.nodes Ctx.edges Ctx.groups Ctx.logs Ctx.warnings
       Ctx.orientation JsMap.values map List.length Z.of_nat Meta.overflow
       FlowMDParser.groupsObject fold_left].
  split.
  - intros Hcap.
    destruct (0 >? FlowMDParser.maxNodes self)%Z eqn:E;
      [apply Z.gtb_gt in E; lia | reflexivity].
  - intros Hcap.
    destruct (0 >? FlowMDParser.maxNodes self)%Z eqn:E.
    + split; [| intros _; reflexivity].
      eexists. split; [reflexivity |]. split; reflexivity.
    + assert (H : ~ (0 > FlowMDParser.maxNodes self)%Z)
        by (intros H; apply Z.gtb_gt in H; congruence).
      lia.
Qed.

Lemma parse_blank_text_witness :
  FlowMDParser.parse FlowMDParser.default
    (JsString (text_of [""; "  %% nothing to draw"; "   "]))
  = Ok (Graph.mk [] [] (Meta.mk "TB" 300 1000 [] [] [] false false))
  /\ FlowMDParser.parse (FlowMDParser.mk (-1) 300)
       (JsString (text_of [""; "  %% nothing to draw"; "   "]))
     = Throw (FlowMDError.mk "FlowMDError"
                "Node count 0 exceeds hard limit -1" None).
Proof.
  assert (Hall : Forall (fun l => isSkipped l = true)
                        (Js.split_lines (text_of [""; "  %% nothing to draw"; "   "])))
    by (repeat constructor).
  split.
  - apply (parse_blank_text FlowMDParser.default
             (text_of [""; "  %% nothing to draw"; "   "]) Hall).
    cbn. discriminate.
  - apply (parse_blank_text (FlowMDParser.mk (-1) 300)
             (text_of [""; "  %% nothing to draw"; "   "]) Hall);
      reflexivity.
Defined.

(** ** The log of a parsed document *)

Lemma ensureNode_logs (id : string) (ctx : Ctx.t) (extra : Extra.t) :
  Ctx.logs (snd (FlowMDParser.ensureNode id ctx extra)) = Ctx.logs ctx.
Proof.
  unfold FlowMDParser.ensureNode.
  destruct (JsMap.get id (Ctx.nodes ctx)) as [node |].
  - destruct (Extra.shape extra) as [[| c s] |]; try reflexivity.
    destruct (2 <? String.length (String c s)); reflexivity.
  - reflexivity.
Qed.

Lemma parseEdge_logs (line : string) (ctx : Ctx.t) :
  Ctx.logs (snd (FlowMDParser.parseEdge line ctx)) = Ctx.logs ctx.
Proof.
  unfold FlowMDParser.parseEdge.
  destruct (Regex.exec EDGE_PATTERN line) as [m |]; [| reflexivity].
  destruct (Regex.group "lhs" m) as [lhs |]; [| reflexivity].
  destruct (Regex.group "rhs" m) as [rhs |]; [| reflexivity].
  pose proof (ensureNode_logs lhs ctx (Extra.mk (Some (Ctx.line ctx)) None)) as H1.
  destruct (FlowMDParser.ensureNode lhs ctx _) as [source ctx1]. cbn [snd] in H1.
  pose proof (ensureNode_logs rhs ctx1 (Extra.mk (Some (Ctx.line ctx1)) None)) as H2.
  destruct (FlowMDParser.ensureNode rhs ctx1 _) as [target ctx2]. cbn [snd] in *.
  cbn. congruence.
Qed.

Lemma parseNode_logs (line : string) (ctx : Ctx.t) :
  Ctx.logs (snd (FlowMDParser.parseNode line ctx)) = Ctx.logs ctx.
Proof.
  unfold FlowMDParser.parseNode.
  destruct (Regex.exec NODE_PATTERN line) as [m |]; [| reflexivity].
  destruct (Regex.group "id" m) as [id |]; [| reflexivity].
  pose proof (ensureNode_logs id ctx
                (Extra.mk (Some (Ctx.line ctx)) (Regex.group "shape" m))) as H1.
  destruct (FlowMDParser.ensureNode id ctx _) as [node ctx1]. cbn [snd] in H1.
  destruct (Ctx.currentGroup ctx1) as [[| c s] |]; try exact H1.
  destruct (JsMap.get (String c s) (Ctx.groups ctx1)); exact H1.
Qed.

Lemma parseSubgraph_logs (line : string) (ctx : Ctx.t) :
  Ctx.logs (snd (FlowMDParser.parseSubgraph line ctx)) = Ctx.logs ctx.
Proof.
  unfold FlowMDParser.parseSubgraph.
  destruct (nth_error (Js.split_ws line 2) 1) as [raw |]; [| reflexivity].
  destruct (Js.trim raw) as [| c s]; [reflexivity |].
  destruct (negb _); reflexivity.
Qed.

(** Once the header is read, no line writes to the log. *)
Lemma parseLine_logs (index : nat) (rawLine : string) (ctx ctx' : Ctx.t) :
  Ctx.orientationParsed ctx = true ->
  FlowMDParser.parseLine index rawLine ctx = Ok ctx' ->
  Ctx.logs ctx' = Ctx.logs ctx.
Proof.
  intros Hparsed. unfold FlowMDParser.parseLine.
  set (ctx0 := Ctx.with_line (index + 1) ctx).
  assert (H0 : Ctx.logs ctx0 = Ctx.logs ctx) by reflexivity.
  destruct (negb (Js.truthy (Js.trim rawLine)) || Js.startsWith (Js.trim rawLine) "%%").
  { now intros [= <-]. }
  replace (Ctx.orientationParsed ctx0) with true by (symmetry; exact Hparsed).
  cbn [negb].
  destruct (Regex.test SUBGRAPH_PATTERN (Js.trim rawLine)).
  { pose proof (parseSubgraph_logs (Js.trim rawLine) ctx0) as H1.
    destruct (FlowMDParser.parseSubgraph (Js.trim rawLine) ctx0) as [g ctx1].
    cbn [snd] in H1. intros [= <-]. cbn. congruence. }
  destruct (Regex.test END_PATTERN (Js.trim rawLine)).
  { now intros [= <-]. }
  pose proof (parseEdge_logs (Js.trim rawLine) ctx0) as H1.
  destruct (FlowMDParser.parseEdge (Js.trim rawLine) ctx0) as [isEdge ctx1].
  cbn [snd] in H1. destruct isEdge.
  { intros [= <-]. congruence. }
  pose proof (parseNode_logs (Js.trim rawLine) ctx1) as H2.
  destruct (FlowMDParser.parseNode (Js.trim rawLine) ctx1) as [isNode ctx2].
  cbn [snd] in H2. destruct isNode; intros [= <-]; cbn; congruence.
Qed.

Lemma scan_logs (lines : list string) : forall index ctx ctx',
  Ctx.orientationParsed ctx = true ->
  FlowMDParser.scan index lines ctx = Ok ctx' ->
  Ctx.logs ctx' = Ctx.logs ctx.
Proof.
  induction lines as [| rawLine lines IH]; intros index ctx ctx' Hparsed; simpl.
  - now intros [= <-].
  - destruct (FlowMDParser.parseLine index rawLine ctx) as [ctx1 | e] eqn:E;
      [| discriminate].
    intros H. rewrite <- (parseLine_logs index rawLine ctx ctx1 Hparsed E).
    eapply IH; [| exact H].
    destruct (parseLine_header index rawLine ctx ctx1 Hparsed E) as [_ ->].
    exact Hparsed.
Qed.

(** The log of a parsed document has one entry, written by the header
    line: the first line that is neither blank nor a comment. It gives the
    orientation of the document and the number of that line. *)
Theorem parsed_log
        (self : FlowMDParser.t) (source : string)
        (pre : list string) (rawLine : string) (post : list string) (g : Graph.t) :
  Js.split_lines source = (pre ++ rawLine :: post)%list ->
  Forall (fun l => isSkipped l = true) pre ->
  isSkipped rawLine = false ->
  FlowMDParser.parse self (JsString source) = Ok g ->
  Meta.logs (Graph.meta g)
  = [Log.mk "orientation" (Meta.orientation (Graph.meta g)) (S (List.length pre))].
Proof.
  intros Hlines Hpre Hline.
  unfold FlowMDParser.parse. rewrite Hlines, scan_skipped by assumption.
  cbn [FlowMDParser.scan plus]. unfold FlowMDParser.parseLine.
  unfold isSkipped in Hline. rewrite Hline.
  cbn [Ctx.orientationParsed Ctx.with_line Ctx.initial negb].
  unfold FlowMDParser.parseHeader.
  destruct (Regex.exec ORIENTATION_PATTERN (Js.trim rawLine)) as [m |];
    [| discriminate].
  match goal with
  | |- context [FlowMDParser.scan ?i post ?c] =>
      destruct (FlowMDParser.scan i post c) as [ctx' | e] eqn:E
  end; [| discriminate].
  assert (Hlogs := E). apply scan_logs in Hlogs; [| reflexivity].
  apply scan_header in E; [| reflexivity]. destruct E as [Ho _].
  unfold FlowMDParser.finish. destruct (Meta.overflow _); [discriminate |].
  intros [= <-]. cbn [Graph.meta Meta.orientation Meta.logs].
  rewrite Hlogs, Ho. cbn.
  replace (List.length pre + 1) with (S (List.length pre)) by lia. reflexivity.
Qed.

Lemma parsed_log_witness :
  exists g,
    FlowMDParser.parse FlowMDParser.default
      (JsString (text_of [""; "%% services"; "graph lr"; "A-->B"])) = Ok g
    /\ Meta.logs (Graph.meta g) = [Log.mk "orientation" "LR" 3].
Proof.
  destruct (FlowMDParser.parse FlowMDParser.default
              (JsString (text_of [""; "%% services"; "graph lr"; "A-->B"])))
    as [g | e] eqn:E; [| vm_compute in E; discriminate E].
  exists g. split; [reflexivity |].
  assert (Hpre : Forall (fun l => isSkipped l = true) [""; "%% services"])
    by (repeat constructor).
  rewrite (parsed_log FlowMDParser.default
             (text_of [""; "%% services"; "graph lr"; "A-->B"])
             [""; "%% services"] "graph lr" ["A-->B"] g eq_refl Hpre eq_refl E).
  vm_compute in E. injection E as <-. reflexivity.
Defined.


(** ** White space around the lines, and line endings *)

Lemma parseLine_trim (index : nat) (a b : string) (ctx : Ctx.t) :
  same_statement a b ->
  FlowMDParser.parseLine index a ctx = FlowMDParser.parseLine index b ctx.
Proof. unfold same_statement, FlowMDParser.parseLine. now intros ->. Qed.

Lemma scan_trim (lines lines' : list string) :
  Forall2 same_statement lines lines' ->
  forall index ctx,
    FlowMDParser.scan index lines ctx = FlowMDParser.scan index lines' ctx.
Proof.
  induction 1 as [| a b lines lines' Hab _ IH]; intros index ctx;
    cbn [FlowMDParser.scan]; [reflexivity |].
  rewrite (parseLine_trim index a b ctx Hab).
  destruct (FlowMDParser.parseLine index b ctx); [apply IH | reflexivity].
Qed.

(** The white space around the lines does not count: two texts whose
    lines are the same once trimmed have the same parse. *)
Theorem parse_ignores_indentation (self : FlowMDParser.t) (source source' : string) :
  Forall2 same_statement (Js.split_lines source) (Js.split_lines source') ->
  FlowMDParser.parse self (JsString source)
  = FlowMDParser.parse self (JsString source').
Proof.
  intros H. unfold FlowMDParser.parse.
  now rewrite (scan_trim _ _ H 0 Ctx.initial).
Qed.

Lemma parse_ignores_indentation_witness :
  FlowMDParser.parse FlowMDParser.default
    (JsString (text_of ["graph TB"; "subgraph S"; "  A[Start]"; "end"; "  A --> B  "]))
  = FlowMDParser.parse FlowMDParser.default
      (JsString (text_of ["  graph TB"; "  subgraph S"; "A[Start]  "; "  end"; "A --> B"])).
Proof.
  apply (parse_ignores_indentation FlowMDParser.default).
  change (Forall2 same_statement
            ["graph TB"; "subgraph S"; "  A[Start]"; "end"; "  A --> B  "]
            ["  graph TB"; "  subgraph S"; "A[Start]  "; "  end"; "A --> B"]).
  repeat (apply Forall2_cons; [reflexivity |]). apply Forall2_nil.
Defined.

Lemma trimEnd_snoc_space (c : ascii) : forall (x : string),
  Js.is_space c = true ->
  Js.trimEnd (x ++ String c EmptyString) = Js.trimEnd x.
Proof.
  intros x Hc. induction x as [| d x IH]; cbn [append Js.trimEnd].
  - now rewrite Hc.
  - now rewrite IH.
Qed.

Lemma trimStart_snoc_space (c : ascii) : forall (x : string),
  Js.is_space c = true ->
  Js.trimStart (x ++ String c EmptyString)
  = match Js.trimStart x with
    | EmptyString => EmptyString
    | t => t ++ String c EmptyString
    end.
Proof.
  intros x Hc. induction x as [| d x IH]; cbn [append Js.trimStart].
  - now rewrite Hc.
  - destruct (Js.is_space d); [exact IH | reflexivity].
Qed.

Lemma trim_snoc_space (c : ascii) (x : string) :
  Js.is_space c = true -> same_statement (x ++ String c EmptyString) x.
Proof.
  intros Hc. unfold same_statement, Js.trim. rewrite (trimStart_snoc_space c x Hc).
  destruct (Js.trimStart x) as [| d t]; [reflexivity |].
  now apply trimEnd_snoc_space.
Qed.

Lemma split_cr (d : ascii) (s cur : string) :
  Js.split_lines_aux (String "013"%char (String d s)) cur
  = if Ascii.eqb d "010"%char then cur :: Js.split_lines_aux s EmptyString
    else Js.split_lines_aux (String d s) (cur ++ String "013"%char EmptyString).
Proof. reflexivity. Qed.

Lemma split_lines_char (c : ascii) (s cur : string) :
  Ascii.eqb c "010"%char = false -> Ascii.eqb c "013"%char = false ->
  Js.split_lines_aux (String c s) cur
  = Js.split_lines_aux s (cur ++ String c EmptyString).
Proof. intros Elf Ecr. cbn [Js.split_lines_aux]. now rewrite Elf, Ecr. Qed.

(** [crlf] never starts with a line feed. *)
Lemma split_crlf_cr (s cur : string) :
  Js.split_lines_aux (String "013"%char (crlf s)) cur
  = Js.split_lines_aux (crlf s) (cur ++ String "013"%char EmptyString).
Proof.
  destruct s as [| e t]; [reflexivity |].
  cbn [crlf]. destruct (Ascii.eqb e "010"%char) eqn:E.
  - reflexivity.
  - rewrite split_cr. now rewrite E.
Qed.

Lemma split_crlf : forall (s cur : string),
  Forall2 same_statement (Js.split_lines_aux (crlf s) cur) (Js.split_lines_aux s cur).
Proof.
  induction s as [| c s IH]; intros cur.
  - repeat constructor.
  - cbn [crlf]. destruct (Ascii.eqb c "010"%char) eqn:Elf.
    + apply Ascii.eqb_eq in Elf. subst c.
      change (Js.split_lines_aux (String "010"%char s) cur)
        with (cur :: Js.split_lines_aux s EmptyString).
      change (Js.split_lines_aux
                (String "013"%char (String "010"%char (crlf s))) cur)
        with (cur :: Js.split_lines_aux (crlf s) EmptyString).
      constructor; [reflexivity | apply IH].
    + destruct (Ascii.eqb c "013"%char) eqn:Ecr.
      * apply Ascii.eqb_eq in Ecr. subst c. rewrite split_crlf_cr.
        specialize (IH (cur ++ String "013"%char EmptyString)).
        destruct s as [| d s']; [exact IH |].
        rewrite split_cr.
        destruct (Ascii.eqb d "010"%char) eqn:Ed; [| exact IH].
        apply Ascii.eqb_eq in Ed. subst d.
        change (crlf (String "010"%char s'))
          with (String "013"%char (String "010"%char (crlf s'))) in *.
        change (Js.split_lines_aux
                  (String "013"%char (String "010"%char (crlf s')))
                  (cur ++ String "013"%char EmptyString))
          with ((cur ++ String "013"%char EmptyString)
                  :: Js.split_lines_aux (crlf s') EmptyString) in *.
        change (Js.split_lines_aux (String "010"%char s')
                                   (cur ++ String "013"%char EmptyString))
          with ((cur ++ String "013"%char EmptyString)
                  :: Js.split_lines_aux s' EmptyString) in IH.
        inversion IH as [| ? ? ? ? _ Htail]; subst.
        constructor; [now apply trim_snoc_space | exact Htail].
      * rewrite !split_lines_char by assumption. apply IH.
Qed.

(** Line endings do not count: the text with CR LF for every LF has the
    same parse, line numbers included. *)
Theorem parse_ignores_line_endings (self : FlowMDParser.t) (source : string) :
  FlowMDParser.parse self (JsString (crlf source))
  = FlowMDParser.parse self (JsString source)
  /\ List.length (Js.split_lines (crlf source)) = List.length (Js.split_lines source).
Proof.
  pose proof (split_crlf source EmptyString) as H. split.
  - unfold FlowMDParser.parse, Js.split_lines.
    now rewrite (scan_trim _ _ H 0 Ctx.initial).
  - eapply Forall2_length, H.
Qed.


(** ** A model built a second time *)

Lemma addCycleWarning_known (warnings : list Warning.t) (cycle : list string) :
  In (Warning.message (cycleWarning cycle)) (map Warning.message warnings) ->
  GraphModel.addCycleWarning warnings cycle = warnings.
Proof.
  intros Hin. unfold GraphModel.addCycleWarning.
  assert (H : existsb (fun warning =>
                         String.eqb (Warning.message warning)
                                    ("Cycle detected: " ++ Js.join " -> " cycle))
                      warnings = true).
  { apply in_map_iff in Hin. destruct Hin as (w & Hw & Hin).
    apply existsb_exists. exists w. split; [exact Hin |].
    apply String.eqb_eq. exact Hw. }
  cbv zeta. now rewrite H.
Qed.

Lemma addCycleWarnings_known (cycles : list (list string)) (warnings : list Warning.t) :
  (forall cycle, In cycle cycles ->
                 In (Warning.message (cycleWarning cycle))
                    (map Warning.message warnings)) ->
  fold_left GraphModel.addCycleWarning cycles warnings = warnings.
Proof.
  induction cycles as [| c cycles IH]; intros Hall; cbn [fold_left]; [reflexivity |].
  rewrite addCycleWarning_known by (apply Hall; now left).
  apply IH. intros cycle Hin. apply Hall. now right.
Qed.

(** The constructor is idempotent on the document: built again from the
    document as the constructor left it, which is what [toJSON] returns,
    the model is the same and no warning is added. *)
Theorem model_rebuilt_is_same (g g' : Graph.t) (m : GraphModel.t) :
  GraphModel.new g = Some (m, g') ->
  GraphModel.toJSON m = g'
  /\ GraphModel.new (GraphModel.toJSON m) = Some (m, g').
Proof.
  unfold GraphModel.new.
  destruct (GraphModel.detectCycles
              (GraphModel.buildAdjacency (Graph.nodes g) (Graph.edges g)))
    as [cycles |] eqn:E; [| discriminate].
  intros [= <- <-]. split; [reflexivity |].
  cbn [GraphModel.toJSON GraphModel.nodes GraphModel.edges GraphModel.meta
       Graph.nodes Graph.edges Graph.meta].
  rewrite E. destruct cycles as [| c cycles]; [reflexivity |].
  destruct (addCycleWarnings (c :: cycles) (Meta.warnings (Graph.meta g)))
    as (added & Hfold & _ & _ & Hall).
  cbn [Meta.warnings Meta.with_warnings].
  rewrite (addCycleWarnings_known (c :: cycles)
             (fold_left GraphModel.addCycleWarning (c :: cycles)
                        (Meta.warnings (Graph.meta g)))).
  - reflexivity.
  - intros cycle Hin. rewrite Hfold. now apply Hall.
Qed.

Lemma model_rebuilt_is_same_witness :
  exists g m g',
    FlowMDParser.parse FlowMDParser.default (JsString cycle_text) = Ok g
    /\ GraphModel.new g = Some (m, g')
    /\ List.length (Meta.warnings (Graph.meta g)) = 0
    /\ List.length (Meta.warnings (Graph.meta g')) = 1
    /\ GraphModel.new (GraphModel.toJSON m) = Some (m, g').
Proof.
  destruct (FlowMDParser.parse FlowMDParser.default (JsString cycle_text))
    as [g | e] eqn:E; [| vm_compute in E; discriminate E].
  destruct (GraphModel.new g) as [[m g'] |] eqn:N;
    [| vm_compute in E; injection E as <-; vm_compute in N; discriminate N].
  exists g, m, g'. split; [reflexivity |]. split; [exact N |].
  split; [vm_compute in E; injection E as <-; reflexivity |].
  split; [vm_compute in E; injection E as <-; vm_compute in N;
          injection N as _ <-; reflexivity |].
  apply (model_rebuilt_is_same g g' m N).
Defined.

(** ** An id the document does not know *)

Lemma reach_sink (model : GraphModel.t) (start n : string) :
  GraphModel.successors model start = [] -> reach model start n -> n = start.
Proof.
  intros Hsink H. induction H as [| x s Hx IH Hs]; [reflexivity |].
  subst x. rewrite Hsink in Hs. destruct Hs.
Qed.

Lemma only_element (x : string) (l : list string) :
  NoDup l -> (forall y, In y l <-> y = x) -> l = [x].
Proof.
  intros Hnd H. destruct l as [| a l].
  - exfalso. now apply (proj2 (H x)).
  - assert (a = x) by (apply H; now left). subst a.
    destruct l as [| b l]; [reflexivity |].
    assert (b = x) by (apply H; right; now left). subst b.
    inversion Hnd as [| ? ? Hx _]; subst. exfalso. apply Hx. now left.
Qed.

(** An id that is no id of a record and no end of an edge has no
    successors and no record; [downstream] from it returns the id alone. *)
Theorem unknown_id_is_isolated
        (g g' : Graph.t) (m : GraphModel.t) (id : string) :
  GraphModel.new g = Some (m, g') ->
  ~ In id (map Node.id (Graph.nodes g)) ->
  (forall edge, In edge (Graph.edges g) ->
                Edge.source edge <> id /\ Edge.target edge <> id) ->
  GraphModel.successors m id = []
  /\ GraphModel.findNode m id = None
  /\ (id <> EmptyString ->
      HighlightEngine.downstream m (Some id)
      = Some (HighlightEngine.mk_result [id] [])).
Proof.
  intros Hnew Hnode Hedge.
  pose proof (new_adjacency g g' m Hnew) as Hadj.
  assert (Hnodes : GraphModel.nodes m = Graph.nodes g).
  { unfold GraphModel.new in Hnew.
    destruct (GraphModel.detectCycles _); [| discriminate].
    now injection Hnew as <- _. }
  assert (Hsucc : GraphModel.successors m id = []).
  { unfold GraphModel.successors. rewrite Hadj.
    assert (Hnone : JsMap.get id (GraphModel.buildAdjacency (Graph.nodes g)
                                                            (Graph.edges g)) = None).
    { apply map_get_none. intros Hin. apply buildAdjacency_keys in Hin.
      destruct Hin as [Hin | (edge & Hin & [-> | ->])].
      - now apply Hnode.
      - now apply (proj1 (Hedge edge Hin)).
      - now apply (proj2 (Hedge edge Hin)). }
    now rewrite Hnone. }
  split; [exact Hsucc |]. split.
  - unfold GraphModel.findNode. rewrite Hnodes.
    destruct (find _ (Graph.nodes g)) as [node |] eqn:F; [| reflexivity].
    apply find_some in F. destruct F as [Hin Heq]. apply String.eqb_eq in Heq.
    exfalso. apply Hnode. apply in_map_iff. now exists node.
  - intros Hid. destruct id as [| c s]; [congruence |].
    destruct (downstream_spec m c s) as (r & -> & Hn & He & Hnn & _).
    destruct r as [nodes edges]. cbn [HighlightEngine.nodes HighlightEngine.edges] in *.
    f_equal. f_equal.
    + apply only_element; [exact Hnn |]. intros y. rewrite Hn. split.
      * now apply reach_sink.
      * intros ->. constructor.
    + destruct edges as [| e edges]; [reflexivity |]. exfalso.
      destruct (proj1 (He e) (or_introl eq_refl)) as (n & s' & Hr & Hs & _).
      apply (reach_sink m _ _ Hsucc) in Hr. subst n. rewrite Hsucc in Hs. destruct Hs.
Qed.

Lemma unknown_id_is_isolated_witness :
  exists g m g',
    FlowMDParser.parse FlowMDParser.default (JsString dag_text) = Ok g
    /\ GraphModel.new g = Some (m, g')
    /\ GraphModel.successors m "Z" = []
    /\ GraphModel.findNode m "Z" = None
    /\ HighlightEngine.downstream m (Some "Z")
       = Some (HighlightEngine.mk_result ["Z"] []).
Proof.
  destruct (FlowMDParser.parse FlowMDParser.default (JsString dag_text))
    as [g | e] eqn:E; [| vm_compute in E; discriminate E].
  destruct (GraphModel.new g) as [[m g'] |] eqn:N;
    [| vm_compute in E; injection E as <-; vm_compute in N; discriminate N].
  assert (Hnode : ~ In "Z" (map Node.id (Graph.nodes g))).
  { vm_compute in E. injection E as <-. cbn.
    intros [H | [H | [H | [H | []]]]]; discriminate H. }
  assert (Hedge : forall edge, In edge (Graph.edges g) ->
                               Edge.source edge <> "Z" /\ Edge.target edge <> "Z").
  { vm_compute in E. injection E as <-. cbn.
    intros edge [<- | [<- | [<- | []]]]; split; discriminate. }
  destruct (unknown_id_is_isolated g g' m "Z" N Hnode Hedge) as (H1 & H2 & H3).
  exists g, m, g'. split; [reflexivity |]. split; [exact N |].
  split; [exact H1 |]. split; [exact H2 |]. apply H3. discriminate.
Defined.


(** ** The exported table *)

Lemma mapOrThrow_defined (A B : Type) (f : A -> option B) (h : A -> B) (l : list A) :
  (forall a, In a l -> f a = Some (h a)) ->
  Exporter.mapOrThrow f l = Some (map h l).
Proof.
  induction l as [| a l IH]; intros H; cbn [Exporter.mapOrThrow map]; [reflexivity |].
  rewrite (H a (or_introl eq_refl)), IH; [reflexivity |].
  intros b Hb. apply H. now right.
Qed.

Lemma mapOrThrow_map (A B C : Type) (g : A -> B) (f : B -> option C) (l : list A) :
  Exporter.mapOrThrow f (map g l) = Exporter.mapOrThrow (fun a => f (g a)) l.
Proof.
  induction l as [| a l IH]; cbn [Exporter.mapOrThrow map]; [reflexivity |].
  now rewrite IH.
Qed.

Lemma row_defined (cells : list string) :
  Exporter.row (map Some cells) = Some (csv_row cells).
Proof.
  unfold Exporter.row, csv_row. rewrite mapOrThrow_map.
  now rewrite (mapOrThrow_defined _ _ _ csv_cell).
Qed.

Lemma csv_defined (rows : list (list string)) :
  Exporter.csv (map (map Some) rows) = Some (csv_text rows).
Proof.
  unfold Exporter.csv, csv_text. rewrite mapOrThrow_map.
  rewrite (mapOrThrow_defined _ _ _ csv_row); [reflexivity |].
  intros r _. apply row_defined.
Qed.

Lemma join_cons (sep p : string) (l : list string) :
  l <> [] -> Js.join sep (p :: l) = p ++ sep ++ Js.join sep l.
Proof. destruct l; [contradiction | reflexivity]. Qed.

Lemma read_escape : forall (v rest cur : string) cells rows,
  csv_read (Exporter.escape v ++ String Exporter.dquote rest) InCell cur cells rows
  = csv_read rest AfterQuote (cur ++ v) cells rows.
Proof.
  induction v as [| c v IH]; intros rest cur cells rows.
  - rewrite append_nil_r. reflexivity.
  - cbn [Exporter.escape]. destruct (Ascii.eqb c Exporter.dquote) eqn:E.
    + apply Ascii.eqb_eq in E. subst c.
      change (csv_read (String Exporter.dquote (String Exporter.dquote
                          (Exporter.escape v)) ++ String Exporter.dquote rest)
                       InCell cur cells rows)
        with (csv_read (Exporter.escape v ++ String Exporter.dquote rest)
                       InCell (cur ++ String Exporter.dquote EmptyString) cells rows).
      rewrite IH. now rewrite append_assoc.
    + cbn [append csv_read]. rewrite E. rewrite IH. now rewrite append_assoc.
Qed.

Lemma read_cell (v rest : string) cells rows :
  csv_read (csv_cell v ++ rest) AtCell EmptyString cells rows
  = csv_read rest AfterQuote v cells rows.
Proof.
  unfold csv_cell. cbn [append]. rewrite append_assoc. cbn [append].
  change (csv_read (String Exporter.dquote
                      (Exporter.escape v ++ String Exporter.dquote rest))
                   AtCell EmptyString cells rows)
    with (csv_read (Exporter.escape v ++ String Exporter.dquote rest)
                   InCell EmptyString cells rows).
  now rewrite read_escape.
Qed.

Lemma read_row : forall (front : list string) (final rest : string) cells rows,
  csv_read (csv_row (front ++ [final]) ++ rest) AtCell EmptyString cells rows
  = csv_read rest AfterQuote final (cells ++ front)%list rows.
Proof.
  induction front as [| c front IH]; intros final rest cells rows.
  - cbn [app]. rewrite app_nil_r. unfold csv_row. cbn [map Js.join]. apply read_cell.
  - unfold csv_row. cbn [app map].
    rewrite join_cons by (rewrite map_app; now destruct (map csv_cell front)).
    rewrite !append_assoc, read_cell.
    change (csv_read ("," ++ Js.join "," (map csv_cell (front ++ [final])) ++ rest)
                     AfterQuote c cells rows)
      with (csv_read (csv_row (front ++ [final]) ++ rest)
                     AtCell EmptyString (cells ++ [c])%list rows).
    rewrite IH. now rewrite <- app_assoc.
Qed.

Lemma read_rows : forall (front : list (list string)) (final : list string) rows,
  Forall (fun r => r <> []) front -> final <> [] ->
  csv_read (csv_text (front ++ [final])) AtCell EmptyString [] rows
  = Some (rows ++ front ++ [final])%list.
Proof.
  induction front as [| r front IH]; intros final rows Hfront Hfinal.
  - cbn [app]. unfold csv_text. cbn [map Js.join].
    destruct (exists_last Hfinal) as (cells & c & ->).
    rewrite <- (append_nil_r (csv_row (cells ++ [c]))), read_row. reflexivity.
  - inversion Hfront as [| ? ? Hr Hrest]; subst.
    unfold csv_text. cbn [app map].
    rewrite join_cons by (rewrite map_app; now destruct (map csv_row front)).
    destruct (exists_last Hr) as (cells & c & ->).
    rewrite read_row.
    change (csv_read (Exporter.CRLF
                        ++ Js.join Exporter.CRLF (map csv_row (front ++ [final])))
                     AfterQuote c ([] ++ cells)%list rows)
      with (csv_read (csv_text (front ++ [final])) AtCell EmptyString []
                     (rows ++ [cells ++ [c]])%list).
    rewrite (IH final _ Hrest Hfinal). now rewrite <- app_assoc.
Qed.

Lemma csv_decode_text (rows : list (list string)) :
  rows <> [] -> Forall (fun r => r <> []) rows ->
  csv_decode (csv_text rows) = Some rows.
Proof.
  intros Hrows Hall. destruct (exists_last Hrows) as (front & final & ->).
  apply Forall_app in Hall. destruct Hall as [Hfront Hfinal].
  inversion Hfinal; subst. unfold csv_decode. now rewrite read_rows.
Qed.

(** The table is written without loss: whatever the cells hold (quotes,
    commas and line breaks too), the text reads back as the rows it was
    written from, so two tables with the same text are the same. *)
Theorem csv_round_trip (rows : list (list string)) :
  rows <> [] -> Forall (fun r => r <> []) rows ->
  Exporter.csv (map (map Some) rows) = Some (csv_text rows)
  /\ csv_decode (csv_text rows) = Some rows
  /\ (forall rows', rows' <> [] -> Forall (fun r => r <> []) rows' ->
                    Exporter.csv (map (map Some) rows')
                    = Exporter.csv (map (map Some) rows) ->
                    rows' = rows).
Proof.
  intros Hrows Hall. split; [apply csv_defined |].
  split; [now apply csv_decode_text |].
  intros rows' Hrows' Hall'. rewrite !csv_defined. intros [= Heq].
  pose proof (csv_decode_text rows' Hrows' Hall') as H'.
  rewrite Heq, (csv_decode_text rows Hrows Hall) in H'. now injection H' as ->.
Qed.

Lemma csv_round_trip_witness :
  Exporter.csv [[Some (String Exporter.dquote "a,b"); Some "c"]; [Some "d"; Some ""]]
  = Some (csv_text [[String Exporter.dquote "a,b"; "c"]; ["d"; ""]])
  /\ csv_decode (csv_text [[String Exporter.dquote "a,b"; "c"]; ["d"; ""]])
     = Some [[String Exporter.dquote "a,b"; "c"]; ["d"; ""]].
Proof.
  assert (Hrows : [[String Exporter.dquote "a,b"; "c"]; ["d"; ""]]
                  <> (@nil (list string))) by discriminate.
  assert (Hall : Forall (fun r : list string => r <> [])
                        [[String Exporter.dquote "a,b"; "c"]; ["d"; ""]])
    by (repeat constructor; discriminate).
  destruct (csv_round_trip _ Hrows Hall) as (H1 & H2 & _).
  split; [exact H1 | exact H2].
Defined.


(** ** What exportCsv writes *)

Lemma edge_rows_defined (edges : list Edge.t) :
  [Some "source"; Some "target"] :: map Exporter.rowOfEdge edges
  = map (map Some) (edge_rows edges).
Proof. unfold edge_rows. cbn [map]. now rewrite map_map. Qed.

(** Without highlighted edges (no highlight at all, or a highlight with an
    empty edge set, as after a click on a node without successors)
    [exportCsv] writes every edge of the model, in the order of the
    document, under the header row; it never throws. *)
Theorem export_without_highlight (model : GraphModel.t) (nodes : JsSet.t) :
  Exporter.exportCsv model None
  = Some (Exporter.mk_download (csv_text (edge_rows (GraphModel.edges model)))
                               "text/csv;charset=utf-8" "flowviz-edges.csv")
  /\ Exporter.exportCsv model (Some (HighlightEngine.mk_result nodes []))
     = Exporter.exportCsv model None
  /\ csv_decode (csv_text (edge_rows (GraphModel.edges model)))
     = Some (edge_rows (GraphModel.edges model)).
Proof.
  assert (H : Exporter.exportCsv model None
              = Some (Exporter.mk_download
                        (csv_text (edge_rows (GraphModel.edges model)))
                        "text/csv;charset=utf-8" "flowviz-edges.csv")).
  { unfold Exporter.exportCsv. cbv zeta.
    now rewrite edge_rows_defined, csv_defined. }
  split; [exact H |]. split; [reflexivity |].
  apply csv_decode_text; [discriminate |].
  unfold edge_rows. constructor; [discriminate |].
  apply Forall_forall. intros r Hr. apply in_map_iff in Hr.
  destruct Hr as (edge & <- & _). discriminate.
Qed.

Lemma all_chars_impl (p q : ascii -> bool) (s : string) :
  (forall c, p c = true -> q c = true) ->
  all_chars p s = true -> all_chars q s = true.
Proof.
  intros Hpq. induction s as [| c s IH]; cbn [all_chars]; [reflexivity |].
  intros H. apply andb_true_iff in H. destruct H as [Hc Hs].
  now rewrite (Hpq c Hc), IH.
Qed.

Lemma idChar_no_gt (c : ascii) :
  isIdChar c = true -> negb (Ascii.eqb c ">"%char) = true.
Proof. destruct c as [[] [] [] [] [] [] [] []]; cbv; congruence. Qed.

Lemma split_arrow_plain : forall (s cur : string),
  all_chars (fun c => negb (Ascii.eqb c ">"%char)) s = true ->
  Exporter.split_arrow_aux s cur = [cur ++ s].
Proof.
  induction s as [| c s IH]; intros cur H.
  - cbn. now rewrite append_nil_r.
  - cbn [all_chars] in H. apply andb_true_iff in H. destruct H as [Hc Hs].
    cbn [Exporter.split_arrow_aux]. destruct s as [| d s'].
    + cbn. reflexivity.
    + assert (Hd : Ascii.eqb d ">"%char = false).
      { cbn [all_chars] in Hs. apply andb_true_iff in Hs. destruct Hs as [Hd _].
        now apply negb_true_iff in Hd. }
      rewrite Hd, andb_false_r. rewrite (IH _ Hs). now rewrite append_assoc.
Qed.

Lemma split_arrow_key : forall (n s cur : string),
  all_chars (fun c => negb (Ascii.eqb c ">"%char)) n = true ->
  Exporter.split_arrow_aux (edgeKey n s) cur
  = (cur ++ n) :: Exporter.split_arrow_aux s EmptyString.
Proof.
  unfold edgeKey. induction n as [| c n IH]; intros s cur H.
  - cbn. now rewrite append_nil_r.
  - cbn [all_chars] in H. apply andb_true_iff in H. destruct H as [Hc Hn].
    cbn [append Exporter.split_arrow_aux].
    destruct n as [| d n'].
    + cbn [append]. apply negb_true_iff in Hc.
      change (Ascii.eqb c "-"%char && Ascii.eqb "-"%char ">"%char)
        with (Ascii.eqb c "-"%char && false).
      rewrite andb_false_r.
      specialize (IH s (cur ++ String c EmptyString) eq_refl).
      cbn [append] in IH. rewrite IH. now rewrite append_nil_r.
    + assert (Hd : Ascii.eqb d ">"%char = false).
      { cbn [all_chars] in Hn. apply andb_true_iff in Hn. destruct Hn as [Hd _].
        now apply negb_true_iff in Hd. }
      cbn [append]. rewrite Hd, andb_false_r.
      specialize (IH s (cur ++ String c EmptyString) Hn).
      cbn [append] in IH. rewrite IH. now rewrite append_assoc.
Qed.

(** The row of the key of an edge between two ids without [>]. *)
Lemma rowOfEdgeId_key (n s : string) :
  all_chars (fun c => negb (Ascii.eqb c ">"%char)) n = true ->
  all_chars (fun c => negb (Ascii.eqb c ">"%char)) s = true ->
  Exporter.rowOfEdgeId (edgeKey n s) = [Some n; Some s].
Proof.
  intros Hn Hs. unfold Exporter.rowOfEdgeId, Exporter.split_arrow.
  rewrite (split_arrow_key n s EmptyString Hn), (split_arrow_plain s EmptyString Hs).
  reflexivity.
Qed.

Lemma choose_all (A B : Type) (P : A -> B -> Prop) (l : list A) :
  (forall a, In a l -> exists b, P a b) -> exists bs, Forall2 P l bs.
Proof.
  induction l as [| a l IH]; intros H; [exists []; constructor |].
  destruct (H a (or_introl eq_refl)) as (b & Hb).
  destruct IH as (bs & Hbs); [intros x Hx; apply H; now right |].
  exists (b :: bs). now constructor.
Qed.

(** With the highlight [downstream] returns on the model of a parsed
    document, [exportCsv] writes, under the header row, one row for every
    highlighted edge key, in the order of the set: the source and the
    target of an edge of the document with that key. *)
Theorem export_of_downstream
        (self : FlowMDParser.t) (source : string) (g g' : Graph.t)
        (m : GraphModel.t) (start : string) (r : HighlightEngine.Result) :
  FlowMDParser.parse self (JsString source) = Ok g ->
  GraphModel.new g = Some (m, g') ->
  HighlightEngine.downstream m (Some start) = Some r ->
  HighlightEngine.edges r <> [] ->
  exists chosen,
    map Edge.id chosen = HighlightEngine.edges r
    /\ incl chosen (Graph.edges g)
    /\ Exporter.exportCsv m (Some r)
       = Some (Exporter.mk_download (csv_text (edge_rows chosen))
                                    "text/csv;charset=utf-8" "flowviz-edges.csv")
    /\ csv_decode (csv_text (edge_rows chosen)) = Some (edge_rows chosen).
Proof.
  intros Hparse Hnew Hdown Hedges.
  destruct (parse_scanned self source g Hparse)
    as (ctx & Inv & _ & Hn & He & _).
  destruct Inv as [K N E W O GK G C NG].
  pose proof (new_adjacency g g' m Hnew) as Hadj.
  destruct start as [| c s].
  { injection Hdown as <-. now contradiction Hedges. }
  destruct (downstream_spec m c s) as (r' & Hr' & _ & Her & _).
  rewrite Hdown in Hr'. injection Hr' as <-.
  assert (Hplain : forall id node, In (id, node) (Ctx.nodes ctx) ->
                     all_chars (fun c => negb (Ascii.eqb c ">"%char)) id = true).
  { intros id node Hin. destruct (N id node Hin) as ((_ & Hid) & _).
    exact (all_chars_impl _ _ id idChar_no_gt Hid). }
  assert (Hpick : forall key, In key (HighlightEngine.edges r) ->
                    exists edge, In edge (Graph.edges g) /\ Edge.id edge = key
                                 /\ Exporter.rowOfEdgeId key = Exporter.rowOfEdge edge).
  { intros key Hin. apply Her in Hin. destruct Hin as (n & s' & _ & Hs & ->).
    unfold GraphModel.successors in Hs. rewrite Hadj in Hs.
    destruct (buildAdjacency_edges (Graph.nodes g) (Graph.edges g) n s' Hs)
      as (edge & Hin & <- & <-).
    exists edge. split; [exact Hin |].
    rewrite He in Hin. destruct (E _ Hin) as ((n1 & G1 & _) & (n2 & G2 & _) & Hid & _).
    split; [exact Hid |].
    apply map_get_in in G1. apply map_get_in in G2.
    apply rowOfEdgeId_key; [eapply Hplain, G1 | eapply Hplain, G2]. }
  destruct (choose_all _ _
              (fun key edge => In edge (Graph.edges g) /\ Edge.id edge = key
                               /\ Exporter.rowOfEdgeId key = Exporter.rowOfEdge edge)
              (HighlightEngine.edges r) Hpick) as (chosen & Hchosen).
  exists chosen.
  assert (Hids : map Edge.id chosen = HighlightEngine.edges r).
  { clear - Hchosen. induction Hchosen as [| key edge keys edges (_ & Hid & _) _ IH];
      [reflexivity |]. cbn [map]. now rewrite Hid, IH. }
  assert (Hincl : incl chosen (Graph.edges g)).
  { clear - Hchosen. induction Hchosen as [| key edge keys edges (Hin & _) _ IH];
      [intros x [] |]. intros x [<- | Hx]; [exact Hin | now apply IH]. }
  assert (Hrows : map Exporter.rowOfEdgeId (HighlightEngine.edges r)
                  = map Exporter.rowOfEdge chosen).
  { clear - Hchosen. induction Hchosen as [| key edge keys edges (_ & _ & Hrow) _ IH];
      [reflexivity |]. cbn [map]. now rewrite Hrow, IH. }
  split; [exact Hids |]. split; [exact Hincl |]. split.
  - unfold Exporter.exportCsv. cbv zeta.
    destruct (HighlightEngine.edges r) as [| key keys] eqn:Ekeys;
      [now contradiction Hedges |].
    cbn [List.length Nat.eqb negb]. rewrite Hrows.
    now rewrite edge_rows_defined, csv_defined.
  - apply csv_decode_text; [discriminate |].
    unfold edge_rows. constructor; [discriminate |].
    apply Forall_forall. intros row Hr. apply in_map_iff in Hr.
    destruct Hr as (edge & <- & _). discriminate.
Qed.

Lemma export_of_downstream_witness :
  exists g m g' r,
    FlowMDParser.parse FlowMDParser.default (JsString dag_text) = Ok g
    /\ GraphModel.new g = Some (m, g')
    /\ HighlightEngine.downstream m (Some "B") = Some r
    /\ HighlightEngine.edges r = ["B->D"]
    /\ exists chosen,
        map Edge.id chosen = HighlightEngine.edges r
        /\ incl chosen (Graph.edges g)
        /\ Exporter.exportCsv m (Some r)
           = Some (Exporter.mk_download (csv_text (edge_rows chosen))
                                        "text/csv;charset=utf-8" "flowviz-edges.csv")
        /\ csv_decode (csv_text (edge_rows chosen)) = Some (edge_rows chosen).
Proof.
  destruct (FlowMDParser.parse FlowMDParser.default (JsString dag_text))
    as [g | e] eqn:E; [| vm_compute in E; discriminate E].
  destruct (GraphModel.new g) as [[m g'] |] eqn:N;
    [| vm_compute in E; injection E as <-; vm_compute in N; discriminate N].
  destruct (HighlightEngine.downstream m (Some "B")) as [r |] eqn:D.
  2:{ vm_compute in E. injection E as <-. vm_compute in N. injection N as <- _.
      vm_compute in D. discriminate D. }
  assert (Hedges : HighlightEngine.edges r = ["B->D"]).
  { vm_compute in E. injection E as <-. vm_compute in N. injection N as <- _.
    vm_compute in D. injection D as <-. reflexivity. }
  exists g, m, g', r. split; [reflexivity |]. split; [exact N |].
  split; [exact D |]. split; [exact Hedges |].
  apply (export_of_downstream FlowMDParser.default dag_text g g' m "B" r E N D).
  rewrite Hedges. discriminate.
Defined.


(** ** When exportCsv throws *)

Lemma mapOrThrow_none (A B : Type) (f : A -> option B) (l : list A) :
  Exporter.mapOrThrow f l = None <-> exists a, In a l /\ f a = None.
Proof.
  induction l as [| a l IH]; cbn [Exporter.mapOrThrow].
  - split; [discriminate | intros (a & [] & _)].
  - destruct (f a) as [b |] eqn:Fa.
    + destruct (Exporter.mapOrThrow f l) as [bs |].
      * split; [discriminate |]. intros (x & [<- | Hx] & Hnone); [congruence |].
        assert (H : Some bs = None) by (apply IH; now exists x).
        discriminate H.
      * split; [intros _ | reflexivity].
        destruct (proj1 IH eq_refl) as (x & Hx & Hnone). exists x. split; [now right | exact Hnone].
    + split; [intros _ | reflexivity]. exists a. split; [now left | exact Fa].
Qed.

Lemma split_arrow_pieces : forall (s cur : string),
  exists x tl, Exporter.split_arrow_aux s cur = x :: tl.
Proof.
  induction s as [| c s IH]; intros cur; cbn [Exporter.split_arrow_aux].
  - now exists cur, [].
  - destruct s as [| d s']; [apply IH |].
    destruct (Ascii.eqb c "-"%char && Ascii.eqb d ">"%char); [| apply IH].
    now exists cur, (Exporter.split_arrow_aux s' EmptyString).
Qed.

(** [split] finds a second piece exactly when the string holds an arrow. *)
Lemma split_arrow_decides : forall (s cur : string),
  ((exists a b, s = a ++ "->" ++ b)
   /\ exists x y tl, Exporter.split_arrow_aux s cur = x :: y :: tl)
  \/ ((forall a b, s <> a ++ "->" ++ b)
      /\ Exporter.split_arrow_aux s cur = [cur ++ s]).
Proof.
  induction s as [| c s IH]; intros cur.
  - right. split; [intros [| ? ?] b; discriminate |].
    cbn. now rewrite append_nil_r.
  - cbn [Exporter.split_arrow_aux]. destruct s as [| d s'].
    + right. split; [| reflexivity].
      intros [| c' [| ? ?]] b; cbn; discriminate.
    + destruct (Ascii.eqb c "-"%char && Ascii.eqb d ">"%char) eqn:Arrow.
      * left. apply andb_true_iff in Arrow. destruct Arrow as [Hc Hd].
        apply Ascii.eqb_eq in Hc. apply Ascii.eqb_eq in Hd. subst c d.
        split; [now exists EmptyString, s' |].
        destruct (split_arrow_pieces s' EmptyString) as (y & tl & ->).
        now exists cur, y, tl.
      * destruct (IH (cur ++ String c EmptyString)) as [[(a & b & Hs) Hp] | [Hno Hp]].
        -- left. split; [| exact Hp]. exists (String c a), b.
           rewrite Hs. reflexivity.
        -- right. split; [| rewrite Hp; now rewrite append_assoc].
           intros [| c' a] b; cbn [append].
           ++ intros [= -> ->]. discriminate Arrow.
           ++ intros [= _ Hs]. now apply (Hno a b).
Qed.

Lemma rowOfEdgeId_throws (key : string) :
  Exporter.row (Exporter.rowOfEdgeId key) = None
  <-> forall a b, key <> a ++ "->" ++ b.
Proof.
  unfold Exporter.rowOfEdgeId, Exporter.split_arrow, Exporter.row.
  destruct (split_arrow_decides key EmptyString)
    as [[(a & b & Hkey) (x & y & tl & ->)] | [Hno ->]]; cbn.
  - split; [discriminate |]. intros H. now contradiction (H a b).
  - split; [intros _; exact Hno | reflexivity].
Qed.

Lemma export_plain (model : GraphModel.t) :
  Exporter.exportCsv model None
  = Some (Exporter.mk_download (csv_text (edge_rows (GraphModel.edges model)))
                               "text/csv;charset=utf-8" "flowviz-edges.csv").
Proof.
  unfold Exporter.exportCsv. cbv zeta.
  now rewrite edge_rows_defined, csv_defined.
Qed.

(** [exportCsv] throws (a TypeError, for the target that is not there)
    exactly when a highlighted edge key holds no arrow. The keys
    [downstream] returns all hold one: on its highlights [exportCsv] never
    throws, whatever the model. *)
Theorem export_throws_without_arrow
        (model : GraphModel.t) (h : HighlightEngine.Result) :
  (Exporter.exportCsv model (Some h) = None
   <-> exists key, In key (HighlightEngine.edges h)
                   /\ forall a b, key <> a ++ "->" ++ b)
  /\ (forall start,
         HighlightEngine.downstream model start = Some h ->
         Exporter.exportCsv model (Some h) <> None).
Proof.
  assert (Hiff : Exporter.exportCsv model (Some h) = None
                 <-> exists key, In key (HighlightEngine.edges h)
                                 /\ forall a b, key <> a ++ "->" ++ b).
  { destruct h as [nodes [| key keys]].
    - change (Exporter.exportCsv model (Some (HighlightEngine.mk_result nodes [])))
        with (Exporter.exportCsv model None).
      rewrite export_plain. split; [discriminate | intros (k & [] & _)].
    - unfold Exporter.exportCsv. cbv zeta.
      cbn [HighlightEngine.edges List.length Nat.eqb negb].
      unfold Exporter.csv.
      change (Exporter.mapOrThrow Exporter.row
                ([Some "source"; Some "target"]
                   :: map Exporter.rowOfEdgeId (key :: keys)))
        with (match Exporter.mapOrThrow Exporter.row
                      (map Exporter.rowOfEdgeId (key :: keys)) with
              | Some bs => Some (Js.join "," [csv_cell "source"; csv_cell "target"] :: bs)
              | None => None
              end).
      destruct (Exporter.mapOrThrow Exporter.row
                  (map Exporter.rowOfEdgeId (key :: keys))) as [lines |] eqn:M.
      + split; [discriminate |]. intros (k & Hk & Hno). exfalso.
        assert (Hnone : Exporter.mapOrThrow Exporter.row
                          (map Exporter.rowOfEdgeId (key :: keys)) = None).
        { apply mapOrThrow_none. exists (Exporter.rowOfEdgeId k).
          split; [now apply in_map | now apply rowOfEdgeId_throws]. }
        congruence.
      + split; [intros _ | reflexivity].
        apply mapOrThrow_none in M. destruct M as (row & Hrow & Hnone).
        apply in_map_iff in Hrow. destruct Hrow as (k & <- & Hk).
        exists k. split; [exact Hk | now apply rowOfEdgeId_throws]. }
  split; [exact Hiff |].
  intros start Hdown Hnone. apply Hiff in Hnone.
  destruct Hnone as (key & Hkey & Hno).
  destruct start as [[| c s] |];
    try (injection Hdown as <-; now destruct Hkey).
  destruct (downstream_spec model c s) as (r & Hr & _ & He & _).
  rewrite Hdown in Hr. injection Hr as <-.
  apply He in Hkey. destruct Hkey as (n & s' & _ & _ & ->).
  now apply (Hno n s').
Qed.


(** ** Trimmed labels, and the order of the records *)

Lemma trimEnd_cons (c : ascii) (x : string) :
  Js.trimEnd (String c x)
  = match Js.trimEnd x with
    | EmptyString => if Js.is_space c then EmptyString else String c EmptyString
    | t => String c t
    end.
Proof. reflexivity. Qed.

Lemma trimEnd_idem (s : string) : Js.trimEnd (Js.trimEnd s) = Js.trimEnd s.
Proof.
  induction s as [| c s IH]; [reflexivity |].
  rewrite trimEnd_cons. destruct (Js.trimEnd s) as [| d t] eqn:E.
  - destruct (Js.is_space c) eqn:S; [reflexivity |].
    rewrite trimEnd_cons. cbn [Js.trimEnd]. now rewrite S.
  - rewrite trimEnd_cons, IH. reflexivity.
Qed.

Lemma trimStart_head (s : string) :
  Js.trimStart s = EmptyString
  \/ exists c t, Js.trimStart s = String c t /\ Js.is_space c = false.
Proof.
  induction s as [| c s IH]; [now left |].
  cbn [Js.trimStart]. destruct (Js.is_space c) eqn:S; [exact IH |].
  right. now exists c, s.
Qed.

Lemma trim_idem (s : string) : Js.trim (Js.trim s) = Js.trim s.
Proof.
  unfold Js.trim.
  destruct (trimStart_head s) as [-> | (c & t & -> & Hc)]; [reflexivity |].
  assert (H : exists t', Js.trimEnd (String c t) = String c t').
  { rewrite trimEnd_cons. destruct (Js.trimEnd t); [rewrite Hc |]; eauto. }
  destruct H as (t' & H).
  pose proof (trimEnd_idem (String c t)) as Hidem. rewrite H in *.
  cbn [Js.trimStart]. now rewrite Hc.
Qed.

Lemma idChar_not_space (c : ascii) :
  isIdChar c = true -> negb (Js.is_space c) = true.
Proof. destruct c as [[] [] [] [] [] [] [] []]; cbv; congruence. Qed.

Lemma id_trimmed (id : string) : id_ok id -> Js.trim id = id.
Proof.
  intros [_ H]. apply trim_word.
  exact (all_chars_impl _ _ id idChar_not_space H).
Qed.

Lemma sorted_snoc (R : nat -> nat -> Prop) (l : list nat) (y : nat) :
  StronglySorted R l -> (forall x, In x l -> R x y) ->
  StronglySorted R (l ++ [y]).
Proof.
  induction 1 as [| a l Hs IH Ha]; intros Hy; cbn [app].
  - constructor; constructor.
  - constructor.
    + apply IH. intros x Hx. apply Hy. now right.
    + apply Forall_app. split; [exact Ha |]. constructor; [| constructor].
      apply Hy. now left.
Qed.

Lemma node_lines_replace (nodes : JsMap.t Node.t) (id : string) (old node : Node.t) :
  JsMap.get id nodes = Some old -> Node.line node = Node.line old ->
  map Node.line (JsMap.values (JsMap.set id node nodes))
  = map Node.line (JsMap.values nodes).
Proof.
  unfold JsMap.values.
  induction nodes as [| [k v] nodes IH]; cbn [JsMap.get JsMap.set map]; [discriminate |].
  destruct (String.eqb id k).
  - intros [= ->] Hline. cbn [map snd]. now rewrite Hline.
  - intros Hget Hline. cbn [map snd]. now rewrite IH.
Qed.

(** [ensureNode] keeps the labels trimmed and the nodes in the order of
    their lines. *)
Lemma ensureNode_order (id : string) (ctx : Ctx.t) (shape : option string) :
  parse_inv ctx -> order_inv ctx -> Js.trim id = id ->
  order_inv (snd (FlowMDParser.ensureNode id ctx
                    (Extra.mk (Some (Ctx.line ctx)) shape))).
Proof.
  intros [K N E W O GK G C NG] [L EL ES NS] Hid.
  unfold FlowMDParser.ensureNode. cbn [Extra.shape Extra.line].
  assert (Hsame : order_inv ctx) by (constructor; assumption).
  destruct (JsMap.get id (Ctx.nodes ctx)) as [old |] eqn:Get.
  - destruct shape as [[| c s] |]; cbn [snd]; try exact Hsame.
    destruct (2 <? String.length (String c s)); cbn [snd]; [| exact Hsame].
    constructor; cbn [Ctx.nodes Ctx.edges Ctx.with_nodes]; try assumption.
    + intros id0 node0 Hin. apply map_set_in in Hin.
      destruct Hin as [[= -> ->] | Hin]; [| eapply L, Hin].
      cbn [Node.label Node.with_label].
      destruct (Js.truthy (Js.trim (Js.slice_1_m1 (String c s))));
        [apply trim_idem | eapply L, map_get_in, Get].
    + rewrite (node_lines_replace _ _ old); [exact NS | exact Get | reflexivity].
  - cbn [snd]. constructor; cbn [Ctx.nodes Ctx.edges Ctx.with_nodes]; try assumption.
    + intros id0 node0 Hin. apply map_set_in in Hin.
      destruct Hin as [[= -> ->] | Hin]; [| eapply L, Hin].
      cbn [Node.label].
      destruct shape as [[| c s] |]; cbn [Js.truthy];
        try (destruct (Js.truthy id); exact Hid).
      destruct (Js.truthy (Js.trim (Js.slice_1_m1 (String c s))));
        [apply trim_idem | exact Hid].
    + rewrite map_set_new.
      * unfold JsMap.values. rewrite !map_app. cbn [map snd Node.line].
        apply sorted_snoc; [exact NS |].
        intros x Hx. apply in_map_iff in Hx. destruct Hx as (node0 & <- & Hin).
        apply values_in in Hin. destruct Hin as (k & Hin).
        destruct (N _ _ Hin) as (_ & _ & _ & Hline). lia.
      * unfold JsMap.has. now rewrite Get.
Qed.

Lemma parseEdge_order (line : string) (ctx : Ctx.t) :
  parse_inv ctx -> 1 <= Ctx.line ctx -> order_inv ctx ->
  (forall edge, In edge (Ctx.edges ctx) -> Edge.line edge < Ctx.line ctx) ->
  order_inv (snd (FlowMDParser.parseEdge line ctx)).
Proof.
  intros Inv Hline Ord Hbefore. unfold FlowMDParser.parseEdge.
  destruct (Regex.exec EDGE_PATTERN line) as [m |] eqn:X; [| exact Ord].
  destruct (Regex.group "lhs" m) as [lhs |] eqn:L; [| exact Ord].
  destruct (Regex.group "rhs" m) as [rhs |] eqn:R; [| exact Ord].
  assert (Hlhs : id_ok lhs).
  { apply (exec_group edge_groups EDGE_PATTERN line m "lhs" lhs
             edge_pattern_groups X L). now left. }
  assert (Hrhs : id_ok rhs).
  { apply (exec_group edge_groups EDGE_PATTERN line m "rhs" rhs
             edge_pattern_groups X R). now right. }
  assert (Hnone : forall s, @None string = Some s -> decorator_ok s) by discriminate.
  pose proof (ensureNode_inv lhs ctx None Inv Hlhs Hline Hnone) as H1.
  pose proof (ensureNode_order lhs ctx None Inv Ord (id_trimmed lhs Hlhs)) as O1.
  cbv zeta in H1.
  destruct (FlowMDParser.ensureNode lhs ctx _) as [source ctx1]. cbn [fst snd] in H1, O1.
  destruct H1 as (Inv1 & _ & _ & _ & Eq1).
  destruct (with_nodes_fields _ _ _ Eq1) as (Hl1 & He1 & _).
  pose proof (ensureNode_order rhs ctx1 None Inv1 O1 (id_trimmed rhs Hrhs)) as O2.
  pose proof (ensureNode_inv rhs ctx1 None Inv1 Hrhs) as H2.
  cbv zeta in H2.
  destruct (FlowMDParser.ensureNode rhs ctx1 _) as [target ctx2]. cbn [fst snd] in *.
  destruct H2 as (_ & _ & _ & _ & Eq2); [lia | exact Hnone |].
  destruct (with_nodes_fields _ _ _ Eq2) as (Hl2 & He2 & _).
  destruct O2 as [L2 EL2 ES2 NS2].
  constructor; cbn [Ctx.nodes Ctx.edges Ctx.with_edges]; try assumption.
  - intros edge Hin. apply in_app_iff in Hin.
    destruct Hin as [Hin | [<- | []]]; [now apply EL2 |].
    cbn [Edge.label].
    destruct (Regex.group "label" m) as [[| c s] |]; try reflexivity.
    apply trim_idem.
  - rewrite map_app. cbn [map Edge.line]. apply sorted_snoc; [exact ES2 |].
    intros x Hx. apply in_map_iff in Hx. destruct Hx as (edge & <- & Hin).
    rewrite He2, He1 in Hin. specialize (Hbefore edge Hin). lia.
Qed.

Lemma parseNode_order (line : string) (ctx : Ctx.t) :
  parse_inv ctx -> order_inv ctx ->
  order_inv (snd (FlowMDParser.parseNode line ctx)).
Proof.
  intros Inv Ord. unfold FlowMDParser.parseNode.
  destruct (Regex.exec NODE_PATTERN line) as [m |] eqn:X; [| exact Ord].
  destruct (Regex.group "id" m) as [id |] eqn:L; [| exact Ord].
  assert (Hid : id_ok id).
  { now apply (exec_group node_groups NODE_PATTERN line m "id" id
                 node_pattern_groups X L). }
  pose proof (ensureNode_order id ctx (Regex.group "shape" m) Inv Ord
                (id_trimmed id Hid)) as O1.
  destruct (FlowMDParser.ensureNode id ctx _) as [node ctx1]. cbn [snd] in O1.
  destruct (Ctx.currentGroup ctx1) as [[| c s] |]; try exact O1.
  destruct (JsMap.get (String c s) (Ctx.groups ctx1)); [| exact O1].
  destruct O1 as [L1 EL1 ES1 NS1]. constructor; cbn; assumption.
Qed.

Lemma parseSubgraph_order (line : string) (ctx : Ctx.t) :
  order_inv ctx -> order_inv (snd (FlowMDParser.parseSubgraph line ctx)).
Proof.
  intros [L EL ES NS]. unfold FlowMDParser.parseSubgraph.
  destruct (nth_error (Js.split_ws line 2) 1) as [raw |];
    [| constructor; cbn; assumption].
  destruct (Js.trim raw) as [| c s]; [constructor; cbn; assumption |].
  destruct (negb _); constructor; cbn; assumption.
Qed.

Lemma parseLine_order (index : nat) (rawLine : string) (ctx ctx' : Ctx.t) :
  parse_inv ctx -> Ctx.line ctx <= index -> order_inv ctx ->
  FlowMDParser.parseLine index rawLine ctx = Ok ctx' ->
  order_inv ctx'.
Proof.
  intros Inv Hle Ord. unfold FlowMDParser.parseLine.
  set (ctx0 := Ctx.with_line (index + 1) ctx).
  assert (Inv0 : parse_inv ctx0) by (apply parse_inv_with_line; [lia | exact Inv]).
  assert (Ord0 : order_inv ctx0).
  { destruct Ord as [L EL ES NS]. constructor; cbn; assumption. }
  assert (H1 : 1 <= Ctx.line ctx0) by (cbn; lia).
  assert (Hbefore : forall edge, In edge (Ctx.edges ctx0) ->
                                 Edge.line edge < Ctx.line ctx0).
  { intros edge Hin. cbn in *. destruct Inv as [K N E W O GK G C NG].
    destruct (E _ Hin) as (_ & _ & _ & Hl). lia. }
  destruct (negb (Js.truthy (Js.trim rawLine)) || Js.startsWith (Js.trim rawLine) "%%").
  { now intros [= <-]. }
  destruct (negb (Ctx.orientationParsed ctx0)).
  { unfold FlowMDParser.parseHeader.
    destruct (Regex.exec ORIENTATION_PATTERN (Js.trim rawLine)); [| discriminate].
    intros [= <-]. destruct Ord0 as [L EL ES NS]. constructor; cbn; assumption. }
  destruct (Regex.test SUBGRAPH_PATTERN (Js.trim rawLine)).
  { pose proof (parseSubgraph_order (Js.trim rawLine) ctx0 Ord0) as O1.
    destruct (FlowMDParser.parseSubgraph (Js.trim rawLine) ctx0) as [g ctx1].
    cbn [snd] in O1. intros [= <-].
    destruct O1 as [L EL ES NS]. constructor; cbn; assumption. }
  destruct (Regex.test END_PATTERN (Js.trim rawLine)).
  { intros [= <-]. destruct Ord0 as [L EL ES NS]. constructor; cbn; assumption. }
  pose proof (parseEdge_order (Js.trim rawLine) ctx0 Inv0 H1 Ord0 Hbefore) as O1.
  pose proof (parseEdge_inv (Js.trim rawLine) ctx0 Inv0 H1) as (Inv1 & _).
  destruct (FlowMDParser.parseEdge (Js.trim rawLine) ctx0) as [isEdge ctx1].
  cbn [snd] in *. destruct isEdge.
  { now intros [= <-]. }
  pose proof (parseNode_order (Js.trim rawLine) ctx1 Inv1 O1) as O2.
  destruct (FlowMDParser.parseNode (Js.trim rawLine) ctx1) as [isNode ctx2].
  cbn [snd] in O2. destruct isNode; intros [= <-]; [exact O2 |].
  destruct O2 as [L EL ES NS]. constructor; cbn; assumption.
Qed.

Lemma scan_order (lines : list string) : forall index ctx ctx',
  parse_inv ctx -> Ctx.line ctx <= index -> order_inv ctx ->
  FlowMDParser.scan index lines ctx = Ok ctx' ->
  order_inv ctx'.
Proof.
  induction lines as [| rawLine lines IH]; intros index ctx ctx' Inv Hle Ord; simpl.
  - now intros [= <-].
  - destruct (FlowMDParser.parseLine index rawLine ctx) as [ctx1 | e] eqn:E;
      [| discriminate].
    destruct (parseLine_inv _ _ _ _ Inv Hle E) as [Inv1 Hl1].
    pose proof (parseLine_order _ _ _ _ Inv Hle Ord E) as Ord1.
    assert (Hle1 : Ctx.line ctx1 <= S index) by lia.
    intros H. exact (IH _ _ _ Inv1 Hle1 Ord1 H).
Qed.

Lemma parse_ordered (self : FlowMDParser.t) (source : string) (g : Graph.t) :
  FlowMDParser.parse self (JsString source) = Ok g ->
  exists ctx,
    order_inv ctx
    /\ Graph.nodes g = JsMap.values (Ctx.nodes ctx)
    /\ Graph.edges g = Ctx.edges ctx.
Proof.
  unfold FlowMDParser.parse.
  destruct (FlowMDParser.scan 0 (Js.split_lines source) Ctx.initial)
    as [ctx | e] eqn:E; [| discriminate].
  unfold FlowMDParser.finish. destruct (Meta.overflow _); [discriminate |].
  intros [= <-]. exists ctx. split; [| now split].
  apply (scan_order (Js.split_lines source) 0 Ctx.initial ctx
                    initial_inv (Nat.le_refl 0)); [| exact E].
  constructor; cbn; try (intros; contradiction); constructor.
Qed.

(** The records of a parsed document stand in the order of the text: the
    line numbers of the edges grow strictly, so a line gives one edge at
    most, and the nodes are listed by the line of their first sighting. *)
Theorem parsed_in_text_order (self : FlowMDParser.t) (source : string) (g : Graph.t) :
  FlowMDParser.parse self (JsString source) = Ok g ->
  StronglySorted lt (map Edge.line (Graph.edges g))
  /\ StronglySorted le (map Node.line (Graph.nodes g)).
Proof.
  intros Hparse. destruct (parse_ordered self source g Hparse) as (ctx & Ord & -> & ->).
  destruct Ord as [L EL ES NS]. now split.
Qed.

Lemma parsed_in_text_order_witness :
  exists g,
    FlowMDParser.parse FlowMDParser.default
      (JsString (text_of ["graph TB"; "A --> B --> C"; "C"; "B --> A"])) = Ok g
    /\ map Edge.id (Graph.edges g) = ["A->B"; "B->A"]
    /\ map Edge.line (Graph.edges g) = [2; 4]
    /\ map Node.line (Graph.nodes g) = [2; 2; 3]
    /\ StronglySorted lt (map Edge.line (Graph.edges g)).
Proof.
  destruct (FlowMDParser.parse FlowMDParser.default
              (JsString (text_of ["graph TB"; "A --> B --> C"; "C"; "B --> A"])))
    as [g | e] eqn:E; [| vm_compute in E; discriminate E].
  exists g. split; [reflexivity |].
  split; [vm_compute in E; injection E as <-; reflexivity |].
  split; [vm_compute in E; injection E as <-; reflexivity |].
  split; [vm_compute in E; injection E as <-; reflexivity |].
  apply (parsed_in_text_order FlowMDParser.default _ g E).
Defined.

(** The labels of a parsed document are trimmed: no label of a node or of
    an edge starts or ends with white space. *)
Theorem parsed_labels_trimmed (self : FlowMDParser.t) (source : string) (g : Graph.t) :
  FlowMDParser.parse self (JsString source) = Ok g ->
  (forall node, In node (Graph.nodes g) ->
                Js.trim (Node.label node) = Node.label node)
  /\ (forall edge, In edge (Graph.edges g) ->
                   Js.trim (Edge.label edge) = Edge.label edge).
Proof.
  intros Hparse. destruct (parse_ordered self source g Hparse) as (ctx & Ord & -> & ->).
  destruct Ord as [L EL ES NS]. split; [| exact EL].
  intros node Hin. apply values_in in Hin. destruct Hin as (k & Hin). eapply L, Hin.
Qed.

Lemma parsed_labels_trimmed_witness :
  exists g,
    FlowMDParser.parse FlowMDParser.default
      (JsString (text_of ["graph TB"; "A(  Start here  )"; "A -->|  then  | B"])) = Ok g
    /\ map Node.label (Graph.nodes g) = ["Start here"; "B"]
    /\ map Edge.label (Graph.edges g) = ["then"]
    /\ forall node, In node (Graph.nodes g) ->
                    Js.trim (Node.label node) = Node.label node.
Proof.
  destruct (FlowMDParser.parse FlowMDParser.default
              (JsString (text_of ["graph TB"; "A(  Start here  )"; "A -->|  then  | B"])))
    as [g | e] eqn:E; [| vm_compute in E; discriminate E].
  exists g. split; [reflexivity |].
  split; [vm_compute in E; injection E as <-; reflexivity |].
  split; [vm_compute in E; injection E as <-; reflexivity |].
  apply (parsed_labels_trimmed FlowMDParser.default _ g E).
Defined.


(** ** Later sightings of a node, line by line *)

Lemma parseEdge_fst (line : string) (ctx : Ctx.t) :
  fst (FlowMDParser.parseEdge line ctx) = isEdgeStatement line.
Proof.
  unfold FlowMDParser.parseEdge, isEdgeStatement.
  destruct (Regex.exec EDGE_PATTERN line) as [m |]; [| reflexivity].
  destruct (Regex.group "lhs" m) as [lhs |]; [| reflexivity].
  destruct (Regex.group "rhs" m) as [rhs |]; [| reflexivity].
  destruct (FlowMDParser.ensureNode lhs ctx _) as [source ctx1].
  destruct (FlowMDParser.ensureNode rhs ctx1 _) as [target ctx2]. reflexivity.
Qed.

Lemma parseEdge_not (line : string) (ctx : Ctx.t) :
  isEdgeStatement line = false -> snd (FlowMDParser.parseEdge line ctx) = ctx.
Proof.
  unfold FlowMDParser.parseEdge, isEdgeStatement.
  destruct (Regex.exec EDGE_PATTERN line) as [m |]; [| reflexivity].
  destruct (Regex.group "lhs" m) as [lhs |]; [| reflexivity].
  destruct (Regex.group "rhs" m) as [rhs |]; [discriminate | reflexivity].
Qed.

(** What [ensureNode] leaves of the record of another id, and of the
    record of its own id when it has no decorator. *)
Lemma ensureNode_other (id0 id : string) (ctx : Ctx.t) (extra : Extra.t) :
  id0 <> id ->
  JsMap.get id (Ctx.nodes (snd (FlowMDParser.ensureNode id0 ctx extra)))
  = JsMap.get id (Ctx.nodes ctx).
Proof.
  intros Hne. unfold FlowMDParser.ensureNode.
  destruct (JsMap.get id0 (Ctx.nodes ctx)) as [old |].
  - destruct (Extra.shape extra) as [[| c s] |]; try reflexivity.
    destruct (2 <? String.length (String c s)); [| reflexivity].
    cbn [snd Ctx.nodes Ctx.with_nodes]. apply map_get_set_other. congruence.
  - cbn [snd Ctx.nodes Ctx.with_nodes]. apply map_get_set_other. congruence.
Qed.

Lemma ensureNode_plain (id0 id : string) (ctx : Ctx.t) (line : option nat)
      (node : Node.t) :
  JsMap.get id (Ctx.nodes ctx) = Some node ->
  JsMap.get id (Ctx.nodes (snd (FlowMDParser.ensureNode id0 ctx (Extra.mk line None))))
  = Some node.
Proof.
  intros Hget. destruct (string_dec id0 id) as [-> | Hne].
  - unfold FlowMDParser.ensureNode. rewrite Hget. exact Hget.
  - rewrite ensureNode_other by exact Hne. exact Hget.
Qed.

(** An edge statement leaves the records it sights as they are. *)
Lemma parseEdge_keeps (line id : string) (ctx : Ctx.t) (node : Node.t) :
  JsMap.get id (Ctx.nodes ctx) = Some node ->
  JsMap.get id (Ctx.nodes (snd (FlowMDParser.parseEdge line ctx))) = Some node.
Proof.
  intros Hget. unfold FlowMDParser.parseEdge.
  destruct (Regex.exec EDGE_PATTERN line) as [m |]; [| exact Hget].
  destruct (Regex.group "lhs" m) as [lhs |]; [| exact Hget].
  destruct (Regex.group "rhs" m) as [rhs |]; [| exact Hget].
  pose proof (ensureNode_plain lhs id ctx (Some (Ctx.line ctx)) node Hget) as H1.
  destruct (FlowMDParser.ensureNode lhs ctx _) as [source ctx1]. cbn [snd] in H1.
  pose proof (ensureNode_plain rhs id ctx1 (Some (Ctx.line ctx1)) node H1) as H2.
  destruct (FlowMDParser.ensureNode rhs ctx1 _) as [target ctx2]. cbn [snd] in *.
  exact H2.
Qed.

Lemma parseSubgraph_nodes (line : string) (ctx : Ctx.t) :
  Ctx.nodes (snd (FlowMDParser.parseSubgraph line ctx)) = Ctx.nodes ctx.
Proof.
  unfold FlowMDParser.parseSubgraph.
  destruct (nth_error (Js.split_ws line 2) 1) as [raw |]; [| reflexivity].
  destruct (Js.trim raw) as [| c s]; [reflexivity |].
  destruct (negb _); reflexivity.
Qed.

(** The label a later sighting by a node statement leaves. *)
Lemma ensureNode_label (id : string) (ctx : Ctx.t) (extra : Extra.t) (node : Node.t) :
  JsMap.get id (Ctx.nodes ctx) = Some node ->
  exists node',
    JsMap.get id (Ctx.nodes (snd (FlowMDParser.ensureNode id ctx extra))) = Some node'
    /\ Node.label node'
       = match Extra.shape extra with
         | Some shape =>
             if Js.truthy (Js.trim (Js.slice_1_m1 shape))
             then Js.trim (Js.slice_1_m1 shape)
             else Node.label node
         | None => Node.label node
         end.
Proof.
  intros Hget. unfold FlowMDParser.ensureNode. rewrite Hget.
  destruct (Extra.shape extra) as [[| c s] |]; cbn [snd].
  - exists node. now split.
  - destruct (2 <? String.length (String c s)) eqn:E; cbn [snd].
    + cbn [Ctx.nodes Ctx.with_nodes]. rewrite map_get_set_same.
      eexists. split; reflexivity.
    + apply Nat.ltb_ge in E. rewrite (slice_short (String c s) E).
      exists node. now split.
  - exists node. now split.
Qed.

Lemma parseNode_label (line id : string) (ctx : Ctx.t) (node : Node.t) :
  JsMap.get id (Ctx.nodes ctx) = Some node ->
  exists node',
    JsMap.get id (Ctx.nodes (snd (FlowMDParser.parseNode line ctx))) = Some node'
    /\ Node.label node'
       = match Regex.exec NODE_PATTERN line with
         | Some m =>
             match Regex.group "id" m, Regex.group "shape" m with
             | Some id', Some shape =>
                 if String.eqb id' id && Js.truthy (Js.trim (Js.slice_1_m1 shape))
                 then Js.trim (Js.slice_1_m1 shape)
                 else Node.label node
             | _, _ => Node.label node
             end
         | None => Node.label node
         end.
Proof.
  intros Hget. unfold FlowMDParser.parseNode.
  destruct (Regex.exec NODE_PATTERN line) as [m |]; [| exists node; now split].
  destruct (Regex.group "id" m) as [id' |]; [| exists node; now split].
  assert (H : exists node',
             JsMap.get id
               (Ctx.nodes (snd (FlowMDParser.ensureNode id' ctx
                                  (Extra.mk (Some (Ctx.line ctx))
                                            (Regex.group "shape" m))))) = Some node'
             /\ Node.label node'
                = match Regex.group "shape" m with
                  | Some shape =>
                      if String.eqb id' id
                         && Js.truthy (Js.trim (Js.slice_1_m1 shape))
                      then Js.trim (Js.slice_1_m1 shape)
                      else Node.label node
                  | None => Node.label node
                  end).
  { destruct (String.eqb id' id) eqn:E.
    - apply String.eqb_eq in E. subst id'.
      destruct (ensureNode_label id ctx
                  (Extra.mk (Some (Ctx.line ctx)) (Regex.group "shape" m)) node Hget)
        as (node' & Hget' & Hlabel).
      exists node'. split; [exact Hget' |]. exact Hlabel.
    - apply String.eqb_neq in E. rewrite (ensureNode_other id' id ctx _ E).
      exists node. split; [exact Hget |].
      destruct (Regex.group "shape" m); reflexivity. }
  destruct (FlowMDParser.ensureNode id' ctx _) as [node1 ctx1]. cbn [snd] in H.
  destruct (Ctx.currentGroup ctx1) as [[| c s] |]; try exact H.
  destruct (JsMap.get (String c s) (Ctx.groups ctx1)); exact H.
Qed.

Lemma nodeSighting_edge (ctx : Ctx.t) (rawLine : string) :
  isEdgeStatement (Js.trim rawLine) = true -> nodeSighting ctx rawLine = None.
Proof.
  intros H. unfold nodeSighting. rewrite H.
  destruct (isSkipped rawLine); [reflexivity |].
  destruct (negb (Ctx.orientationParsed ctx)); [reflexivity |].
  destruct (Regex.test SUBGRAPH_PATTERN (Js.trim rawLine)); [reflexivity |].
  destruct (Regex.test END_PATTERN (Js.trim rawLine)); reflexivity.
Qed.

Lemma nodeSighting_decorator (ctx : Ctx.t) (rawLine id : string)
      (shape : option string) :
  nodeSighting ctx rawLine = Some (id, shape) ->
  id_ok id /\ forall s, shape = Some s -> decorator_ok s.
Proof.
  unfold nodeSighting.
  destruct (isSkipped rawLine); [discriminate |].
  destruct (negb (Ctx.orientationParsed ctx)); [discriminate |].
  destruct (Regex.test SUBGRAPH_PATTERN (Js.trim rawLine)); [discriminate |].
  destruct (Regex.test END_PATTERN (Js.trim rawLine)); [discriminate |].
  destruct (isEdgeStatement (Js.trim rawLine)); [discriminate |].
  destruct (Regex.exec NODE_PATTERN (Js.trim rawLine)) as [m |] eqn:X; [| discriminate].
  destruct (Regex.group "id" m) as [id' |] eqn:L; [| discriminate].
  intros [= <- <-]. split.
  - now apply (exec_group node_groups NODE_PATTERN (Js.trim rawLine) m "id" id'
                 node_pattern_groups X L).
  - intros s Hs.
    now apply (exec_group node_groups NODE_PATTERN (Js.trim rawLine) m "shape" s
                 node_pattern_groups X Hs).
Qed.

(** The record of [id] after the loop of [parse] has read one more line. *)
Lemma parseLine_label (index : nat) (rawLine : string) (ctx ctx' : Ctx.t)
      (id : string) (node : Node.t) :
  JsMap.get id (Ctx.nodes ctx) = Some node ->
  FlowMDParser.parseLine index rawLine ctx = Ok ctx' ->
  exists node',
    JsMap.get id (Ctx.nodes ctx') = Some node'
    /\ Node.label node'
       = match nodeSighting ctx rawLine with
         | Some (id', Some shape) =>
             if String.eqb id' id && Js.truthy (Js.trim (Js.slice_1_m1 shape))
             then Js.trim (Js.slice_1_m1 shape)
             else Node.label node
         | _ => Node.label node
         end.
Proof.
  intros Hget. unfold FlowMDParser.parseLine, nodeSighting.
  set (ctx0 := Ctx.with_line (index + 1) ctx).
  assert (Hget0 : JsMap.get id (Ctx.nodes ctx0) = Some node) by exact Hget.
  change (Ctx.orientationParsed ctx0) with (Ctx.orientationParsed ctx).
  change (negb (Js.truthy (Js.trim rawLine)) || Js.startsWith (Js.trim rawLine) "%%")
    with (isSkipped rawLine).
  destruct (isSkipped rawLine).
  { intros [= <-]. exists node. now split. }
  destruct (negb (Ctx.orientationParsed ctx)).
  { unfold FlowMDParser.parseHeader.
    destruct (Regex.exec ORIENTATION_PATTERN (Js.trim rawLine)); [| discriminate].
    intros [= <-]. exists node. now split. }
  destruct (Regex.test SUBGRAPH_PATTERN (Js.trim rawLine)).
  { pose proof (parseSubgraph_nodes (Js.trim rawLine) ctx0) as Hn.
    destruct (FlowMDParser.parseSubgraph (Js.trim rawLine) ctx0) as [g ctx1].
    cbn [snd] in Hn. intros [= <-]. exists node.
    cbn [Ctx.nodes Ctx.with_currentGroup]. rewrite Hn. now split. }
  destruct (Regex.test END_PATTERN (Js.trim rawLine)).
  { intros [= <-]. exists node. now split. }
  pose proof (parseEdge_fst (Js.trim rawLine) ctx0) as Hfst.
  pose proof (parseEdge_keeps (Js.trim rawLine) id ctx0 node Hget0) as Hkeep.
  pose proof (parseEdge_not (Js.trim rawLine) ctx0) as Hnot.
  destruct (FlowMDParser.parseEdge (Js.trim rawLine) ctx0) as [isEdge ctx1].
  cbn [fst snd] in *. subst isEdge.
  destruct (isEdgeStatement (Js.trim rawLine)).
  { intros [= <-]. exists node. now split. }
  rewrite (Hnot eq_refl) in *. clear Hnot Hkeep.
  pose proof (parseNode_label (Js.trim rawLine) id ctx0 node Hget0)
    as (node' & Hget' & Hlabel).
  assert (Hrhs : match Regex.exec NODE_PATTERN (Js.trim rawLine) with
                 | Some m =>
                     match Regex.group "id" m, Regex.group "shape" m with
                     | Some id', Some shape =>
                         if String.eqb id' id
                            && Js.truthy (Js.trim (Js.slice_1_m1 shape))
                         then Js.trim (Js.slice_1_m1 shape)
                         else Node.label node
                     | _, _ => Node.label node
                     end
                 | None => Node.label node
                 end
                 = match
                     match Regex.exec NODE_PATTERN (Js.trim rawLine) with
                     | Some m =>
                         match Regex.group "id" m with
                         | Some id' => Some (id', Regex.group "shape" m)
                         | None => None
                         end
                     | None => None
                     end
                   with
                   | Some (id', Some shape) =>
                       if String.eqb id' id
                          && Js.truthy (Js.trim (Js.slice_1_m1 shape))
                       then Js.trim (Js.slice_1_m1 shape)
                       else Node.label node
                   | _ => Node.label node
                   end).
  { destruct (Regex.exec NODE_PATTERN (Js.trim rawLine)) as [m |]; [| reflexivity].
    destruct (Regex.group "id" m); [| reflexivity].
    destruct (Regex.group "shape" m); reflexivity. }
  rewrite Hrhs in Hlabel.
  destruct (FlowMDParser.parseNode (Js.trim rawLine) ctx0) as [isNode ctx2].
  cbn [snd] in Hget'.
  destruct isNode; intros [= <-]; exists node'; split; assumption.
Qed.

(** What one more line does to a record the scan has: the shape stays,
    and the label is overwritten exactly by a node statement of the id
    with a decorator whose trimmed inner text is not empty. *)
Lemma parseLine_sighting
        (index : nat) (rawLine : string) (ctx ctx' : Ctx.t)
        (id : string) (node : Node.t) :
  JsMap.get id (Ctx.nodes ctx) = Some node ->
  FlowMDParser.parseLine index rawLine ctx = Ok ctx' ->
  exists node',
    JsMap.get id (Ctx.nodes ctx') = Some node'
    /\ Node.shape node' = Node.shape node
    /\ Node.label node'
       = match nodeSighting ctx rawLine with
         | Some (id', Some shape) =>
             if String.eqb id' id && Js.truthy (Js.trim (Js.slice_1_m1 shape))
             then Js.trim (Js.slice_1_m1 shape)
             else Node.label node
         | _ => Node.label node
         end
    /\ (isEdgeStatement (Js.trim rawLine) = true -> Node.label node' = Node.label node)
    /\ (forall id' shape,
           nodeSighting ctx rawLine = Some (id', Some shape) -> decorator_ok shape)
    /\ (forall index2 lines ctx2,
           FlowMDParser.scan index2 lines ctx' = Ok ctx2 ->
           exists node2, JsMap.get id (Ctx.nodes ctx2) = Some node2
                         /\ Node.shape node2 = Node.shape node).
Proof.
  intros Hget Hline.
  destruct (parseLine_label index rawLine ctx ctx' id node Hget Hline)
    as (node' & Hget' & Hlabel).
  pose proof (parseLine_extends index rawLine ctx ctx' Hline) as (N & _ & _).
  destruct (N _ _ Hget) as (node1 & Hget1 & Horigin).
  rewrite Hget' in Hget1. injection Hget1 as <-.
  assert (Hshape : Node.shape node' = Node.shape node) by apply Horigin.
  exists node'. split; [exact Hget' |]. split; [exact Hshape |].
  split; [exact Hlabel |]. split; [| split].
  - intros Hedge. rewrite (nodeSighting_edge ctx rawLine Hedge) in Hlabel.
    exact Hlabel.
  - intros id' shape Hs.
    destruct (nodeSighting_decorator ctx rawLine id' (Some shape) Hs) as [_ H].
    now apply H.
  - intros index2 lines ctx2 Hscan. apply scan_extends in Hscan.
    destruct Hscan as (N2 & _ & _). destruct (N2 _ _ Hget') as (node2 & H2 & S2).
    exists node2. split; [exact H2 |]. rewrite <- Hshape. apply S2.
Qed.

(** ** Group membership in the documents *)

Lemma scan_app (pre : list string) : forall post index ctx,
  FlowMDParser.scan index (pre ++ post) ctx
  = match FlowMDParser.scan index pre ctx with
    | Ok ctx1 => FlowMDParser.scan (index + List.length pre) post ctx1
    | Throw e => Throw e
    end.
Proof.
  induction pre as [| l pre IH]; intros post index ctx; cbn [app FlowMDParser.scan].
  - now rewrite Nat.add_0_r.
  - destruct (FlowMDParser.parseLine index l ctx) as [ctx1 | e]; [| reflexivity].
    rewrite IH. cbn [List.length]. now rewrite Nat.add_succ_r.
Qed.

(** The scan a successful parse finishes from. *)
Lemma parse_scan (self : FlowMDParser.t) (source : string) (g : Graph.t) :
  FlowMDParser.parse self (JsString source) = Ok g ->
  exists ctx,
    FlowMDParser.scan 0 (Js.split_lines source) Ctx.initial = Ok ctx
    /\ parse_inv ctx
    /\ Graph.nodes g = JsMap.values (Ctx.nodes ctx)
    /\ Meta.groups (Graph.meta g) = FlowMDParser.groupsObject (Ctx.groups ctx).
Proof.
  unfold FlowMDParser.parse.
  destruct (FlowMDParser.scan 0 (Js.split_lines source) Ctx.initial)
    as [ctx | e] eqn:E; [| discriminate].
  unfold FlowMDParser.finish. destruct (Meta.overflow _); [discriminate |].
  intros [= <-]. exists ctx. split; [reflexivity |].
  destruct (scan_inv _ _ _ _ initial_inv (Nat.le_refl 0) E) as [Inv _].
  split; [exact Inv |]. now split.
Qed.

Lemma map_in_get (V : Type) (m : JsMap.t V) (k : string) (v : V) :
  NoDup (JsMap.keys m) -> In (k, v) m -> JsMap.get k m = Some v.
Proof.
  induction m as [| [k' v'] m IH]; [intros _ [] |].
  cbn [JsMap.keys map fst JsMap.get]. intros Hnd Hin.
  inversion Hnd as [| ? ? Hk Hrest]; subst.
  destruct Hin as [[= -> ->] | Hin]; [now rewrite String.eqb_refl |].
  destruct (String.eqb k k') eqn:E; [| now apply IH].
  apply String.eqb_eq in E. subst k'. exfalso. apply Hk.
  apply (in_map fst) in Hin. exact Hin.
Qed.












(** ** Later sightings of a node, in the documents *)

(** C7, amended: take a text, the text with one more line, and the
    documents of both. A record of the first document is in the second
    with its id and its shape, and the shape stays whatever lines follow
    the text. Its label is overwritten exactly when the loop reads the
    further line as a node statement of that id with a decorator whose
    inner text, once trimmed, is not empty; the new label is that trimmed
    text. Every other line leaves the label as it was: so does an edge
    statement that sights the id, whatever follows the id in it. *)
Theorem later_sighting_relabels
        (self : FlowMDParser.t) (source0 source : string)
        (pre : list string) (rawLine : string)
        (g0 g : Graph.t) (ctx : Ctx.t) (node0 : Node.t) :
  Js.split_lines source0 = pre ->
  Js.split_lines source = (pre ++ [rawLine])%list ->
  FlowMDParser.parse self (JsString source0) = Ok g0 ->
  FlowMDParser.parse self (JsString source) = Ok g ->
  FlowMDParser.scan 0 pre Ctx.initial = Ok ctx ->
  In node0 (Graph.nodes g0) ->
  (exists node,
      In node (Graph.nodes g)
      /\ Node.id node = Node.id node0
      /\ Node.shape node = Node.shape node0
      /\ Node.label node
         = match nodeSighting ctx rawLine with
           | Some (id', Some shape) =>
               if String.eqb id' (Node.id node0)
                  && Js.truthy (Js.trim (Js.slice_1_m1 shape))
               then Js.trim (Js.slice_1_m1 shape)
               else Node.label node0
           | _ => Node.label node0
           end
      /\ (isEdgeStatement (Js.trim rawLine) = true ->
          Node.label node = Node.label node0))
  /\ (forall id' shape,
         nodeSighting ctx rawLine = Some (id', Some shape) -> decorator_ok shape)
  /\ (forall source' post g',
         Js.split_lines source' = (pre ++ post)%list ->
         FlowMDParser.parse self (JsString source') = Ok g' ->
         exists node', In node' (Graph.nodes g')
                       /\ Node.id node' = Node.id node0
                       /\ Node.shape node' = Node.shape node0).
Proof.
  intros Hpre Hlines Hparse0 Hparse Hscan Hin0.
  destruct (parse_scan self source0 g0 Hparse0) as (ctx0 & Hscan0 & Inv & Hn0 & _).
  rewrite Hpre, Hscan in Hscan0. injection Hscan0 as <-.
  destruct Inv as [K Nok E W O GK Gok C NG].
  rewrite Hn0 in Hin0. apply values_in in Hin0. destruct Hin0 as (id & Hin0).
  assert (Hid : Node.id node0 = id) by now apply K.
  pose proof (map_in_get _ _ _ _ (proj1 K) Hin0) as Hget.
  rewrite Hid. split; [| split].
  - destruct (parse_scan self source g Hparse) as (ctxf & Hscanf & Invf & Hnf & _).
    rewrite Hlines, scan_app, Hscan in Hscanf. cbn [plus FlowMDParser.scan] in Hscanf.
    destruct (FlowMDParser.parseLine (List.length pre) rawLine ctx)
      as [ctx1 | e] eqn:Eline; [| discriminate].
    injection Hscanf as <-.
    destruct (parseLine_sighting _ _ _ _ _ _ Hget Eline)
      as (node & Hget' & Hshape & Hlabel & Hedge & _).
    exists node. apply map_get_in in Hget'.
    split; [rewrite Hnf; apply values_in; now exists id |].
    split; [destruct Invf as [Kf _ _ _ _ _ _ _ _]; now apply Kf |].
    split; [exact Hshape |]. split; [exact Hlabel | exact Hedge].
  - intros id' shape Hs.
    destruct (nodeSighting_decorator ctx rawLine id' (Some shape) Hs) as [_ H].
    now apply H.
  - intros source' post g' Hlines' Hparse'.
    destruct (parse_scan self source' g' Hparse') as (ctxf & Hscanf & Invf & Hnf & _).
    rewrite Hlines', scan_app, Hscan in Hscanf.
    apply scan_extends in Hscanf. destruct Hscanf as (N & _ & _).
    destruct (N _ _ Hget) as (node' & Hget' & Ho).
    exists node'. apply map_get_in in Hget'.
    split; [rewrite Hnf; apply values_in; now exists id |].
    split; [destruct Invf as [Kf _ _ _ _ _ _ _ _]; now apply Kf | apply Ho].
Qed.

Lemma later_sighting_relabels_witness :
  exists g0 g1 g2,
    FlowMDParser.parse FlowMDParser.default
      (JsString (text_of ["graph TB"; "A[one]"])) = Ok g0
    /\ FlowMDParser.parse FlowMDParser.default
         (JsString (text_of ["graph TB"; "A[one]"; "B --> A[two]"])) = Ok g1
    /\ FlowMDParser.parse FlowMDParser.default
         (JsString (text_of ["graph TB"; "A[one]"; "A( two )"])) = Ok g2
    /\ Graph.nodes g0 = [Node.mk "A" "one" "[" 2 None]
    /\ (exists node, In node (Graph.nodes g1) /\ Node.id node = "A"
                     /\ Node.shape node = "[" /\ Node.label node = "one")
    /\ (exists node, In node (Graph.nodes g2) /\ Node.id node = "A"
                     /\ Node.shape node = "[" /\ Node.label node = "two").
Proof.
  destruct (FlowMDParser.parse FlowMDParser.default
              (JsString (text_of ["graph TB"; "A[one]"])))
    as [g0 | e] eqn:E0; [| vm_compute in E0; discriminate E0].
  destruct (FlowMDParser.parse FlowMDParser.default
              (JsString (text_of ["graph TB"; "A[one]"; "B --> A[two]"])))
    as [g1 | e] eqn:E1; [| vm_compute in E1; discriminate E1].
  destruct (FlowMDParser.parse FlowMDParser.default
              (JsString (text_of ["graph TB"; "A[one]"; "A( two )"])))
    as [g2 | e] eqn:E2; [| vm_compute in E2; discriminate E2].
  destruct (FlowMDParser.scan 0 ["graph TB"; "A[one]"] Ctx.initial)
    as [ctx | e] eqn:S; [| vm_compute in S; discriminate S].
  assert (Hctx : nodeSighting ctx "B --> A[two]" = None
                 /\ nodeSighting ctx "A( two )" = Some ("A", Some "( two )")).
  { vm_compute in S. injection S as <-. split; reflexivity. }
  destruct Hctx as [Hs1 Hs2].
  assert (Hg0 : Graph.nodes g0 = [Node.mk "A" "one" "[" 2 None]).
  { vm_compute in E0. now injection E0 as <-. }
  assert (Hin0 : In (Node.mk "A" "one" "[" 2 None) (Graph.nodes g0))
    by (rewrite Hg0; now left).
  assert (Hpre : Js.split_lines (text_of ["graph TB"; "A[one]"])
                 = ["graph TB"; "A[one]"]) by reflexivity.
  assert (Hl1 : Js.split_lines (text_of ["graph TB"; "A[one]"; "B --> A[two]"])
                = (["graph TB"; "A[one]"] ++ ["B --> A[two]"])%list) by reflexivity.
  assert (Hl2 : Js.split_lines (text_of ["graph TB"; "A[one]"; "A( two )"])
                = (["graph TB"; "A[one]"] ++ ["A( two )"])%list) by reflexivity.
  destruct (later_sighting_relabels FlowMDParser.default _ _ _ "B --> A[two]"
              g0 g1 ctx _ Hpre Hl1 E0 E1 S Hin0)
    as ((n1 & I1 & Id1 & Sh1 & L1 & _) & _).
  destruct (later_sighting_relabels FlowMDParser.default _ _ _ "A( two )"
              g0 g2 ctx _ Hpre Hl2 E0 E2 S Hin0)
    as ((n2 & I2 & Id2 & Sh2 & L2 & _) & _).
  rewrite Hs1 in L1. rewrite Hs2 in L2.
  exists g0, g1, g2. split; [reflexivity |]. split; [reflexivity |].
  split; [reflexivity |]. split; [exact Hg0 |]. split.
  - exists n1. split; [exact I1 |]. split; [exact Id1 |]. split; [exact Sh1 | exact L1].
  - exists n2. split; [exact I2 |]. split; [exact Id2 |]. split; [exact Sh2 | exact L2].
Defined.
